(** * Radio-Jamm: tuner, metronome engines and tap tempo

    A shallow embedding of the real-time cores of the practice aid:

    - [Tuner]: the component of [Tuner.tsx] ([updateTuningInfo] and the
      [detectPitch] animation-frame callback);
    - [MetronomeSound]: the engine of [utils/MetronomeSound.ts], run
      against a small model of the host's [setTimeout] table;
    - [LegacyMetronome]: the engine embedded in the standalone Metronome
      page, run against a model of the host's [setInterval] table;
    - [TapTempo]: [handleTapTempo] of [MetronomeControls.tsx].

    JavaScript numbers are modelled as follows.  Frequencies, clarities
    and cents before rounding are real numbers ([R]): the rounding error
    of IEEE doubles is abstracted away, and [Math.log2] is the exact
    binary logarithm.  Millisecond timestamps of [Date.now()] and beat
    counters are integers ([Z]).  Tempi and timer delays are rationals
    ([Q]), which keeps the metronome and the tap estimator executable;
    the two quotients of the tap estimator are rounded to the nearest
    double ([fl]), as the code computes them. *)

From Stdlib Require Import Reals Zfloor Lqa Lra Lia ZArith List String Bool.
From Stdlib Require Import QArith Qround Qabs Qpower.
Import ListNotations.

(* ================================================================== *)
(** * Tuner (Tuner.tsx) *)
(* ================================================================== *)

Module Tuner.
Local Open Scope R_scope.

(** ** JavaScript numeric primitives over the reals *)

Definition Rltb (x y : R) : bool := if Rlt_dec x y then true else false.

Definition Math_abs (x : R) : R := Rabs x.

(** [Math.round] rounds to the nearest integer, halves towards plus
    infinity: it is [floor (x + 1/2)]. *)
Definition Math_round (x : R) : Z := Zfloor (x + / 2).

(** [Math.log2 x] is a finite number only for [0 < x]; it is [-Infinity]
    at [0] and [NaN] below, and neither passes a later [<=] test. *)
Definition Math_log2 (x : R) : option R :=
  if Rlt_dec 0 x then Some (ln x / ln 2) else None.

(** ** Data *)

Record GuitarString := mkString {
  name : string;
  freq : R;
  tuned : bool;
  tuningStartTime : option Z
}.

(** The initial value of the [guitarStrings] state (82.41, 110.00,
    146.83, 196.00, 246.94 and 329.63 Hz). *)
Definition guitarStrings0 : list GuitarString :=
  [ mkString "E" (8241 / 100) false None;
    mkString "A" 110 false None;
    mkString "D" (14683 / 100) false None;
    mkString "G" 196 false None;
    mkString "B" (24694 / 100) false None;
    mkString "E" (32963 / 100) false None ].

(** The component's state that the audio loop reads and writes: the
    [guitarStrings], [currentNote] and [cents] React states, the two
    refs, and the [pitchHistory] array owned by the effect's closure. *)
Record TunerState := mkTuner {
  guitarStrings : list GuitarString;
  lastNoteRef : string;
  noteHoldTimeRef : Z;
  currentNote : string;
  cents : Z;
  pitchHistory : list R
}.

Definition initialTuner : TunerState :=
  mkTuner guitarStrings0 EmptyString 0 EmptyString 0 [].

Definition maxHistoryLength : nat := 5.

(** ** updateTuningInfo *)

(** One iteration of the [for (const string of guitarStrings)] loop on
    the pair [(closest, minDiff)]. *)
Definition scanStep (f : R) (acc : GuitarString * R) (s : GuitarString)
  : GuitarString * R :=
  let diff := Math_abs (f - freq s) in
  if Rltb diff (snd acc) then (s, diff) else acc.

(** The linear scan; [guitarStrings[0]] of an empty array has no [freq]
    (the source would throw), which is [None] here. *)
Definition findClosest (f : R) (strs : list GuitarString)
  : option GuitarString :=
  match strs with
  | [] => None
  | s0 :: _ =>
      Some (fst (fold_left (scanStep f) strs (s0, Math_abs (f - freq s0))))
  end.

(** [Math.round(1200 * Math.log2(freq / closest.freq))]; [None] when the
    logarithm is not a finite number. *)
Definition centsValue (f : R) (closest : GuitarString) : option Z :=
  match Math_log2 (f / freq closest) with
  | Some l => Some (Math_round (1200 * l))
  | None => None
  end.

(** [prev.map(str => str.name === closest.name
                     ? {...str, tuned: true} : str)] *)
Definition markTuned (n : string) (strs : list GuitarString)
  : list GuitarString :=
  map (fun str =>
         if String.eqb (name str) n
         then mkString (name str) (freq str) true (tuningStartTime str)
         else str) strs.

Definition setStrings (st : TunerState) (g : list GuitarString) :=
  mkTuner g (lastNoteRef st) (noteHoldTimeRef st) (currentNote st)
          (cents st) (pitchHistory st).

Definition setHold (st : TunerState) (n : string) (t : Z) :=
  mkTuner (guitarStrings st) n t (currentNote st) (cents st)
          (pitchHistory st).

Definition publish (st : TunerState) (n : string) (c : Z) :=
  mkTuner (guitarStrings st) (lastNoteRef st) (noteHoldTimeRef st) n c
          (pitchHistory st).

Definition setHistory (st : TunerState) (h : list R) :=
  mkTuner (guitarStrings st) (lastNoteRef st) (noteHoldTimeRef st)
          (currentNote st) (cents st) h.

(** The branch taken once [Math.abs(centsValue) <= 50] holds.
    [currentTime] is the value of [Date.now()]. *)
Definition holdStep (closest : GuitarString) (c : Z) (currentTime : Z)
    (st : TunerState) : TunerState :=
  if String.eqb (lastNoteRef st) (name closest) then
    if ((Z.abs c <=? 5) && (currentTime - noteHoldTimeRef st >=? 2000))%Z
    then setStrings st (markTuned (name closest) (guitarStrings st))
    else st
  else setHold st (name closest) currentTime.

(** The audio loop is started by an effect that runs once, so the
    [updateTuningInfo] it calls is the closure of the first render: the
    scan reads the initial [guitarStrings] array ([guitarStrings0]),
    while [setGuitarStrings(prev => ...)] updates the current state. *)
Definition updateTuningInfo (f : R) (currentTime : Z) (st : TunerState)
  : TunerState :=
  match findClosest f guitarStrings0 with
  | None => st
  | Some closest =>
      match centsValue f closest with
      | None => st
      | Some c =>
          if (Z.abs c <=? 50)%Z
          then publish (holdStep closest c currentTime st) (name closest) c
          else st
      end
  end.

(** ** detectPitch *)

(** The acceptance test on the estimate returned by [findPitch]. *)
Definition accepted (detectedPitch detectedClarity : R) : bool :=
  Rltb (8 / 10) detectedClarity && Rltb 50 detectedPitch
  && Rltb detectedPitch 2000.

(** [pitchHistory.push(p); if (length > maxHistoryLength) shift()] *)
Definition pushPitch (h : list R) (p : R) : list R :=
  let h1 := h ++ [p] in
  if (maxHistoryLength <? List.length h1)%nat then tl h1 else h1.

(** [pitchHistory.reduce((sum, val) => sum + val, 0) / pitchHistory.length] *)
Definition average (h : list R) : R :=
  fold_left Rplus h 0 / INR (List.length h).

(** What one frame hands to the tuning tracker: the smoothed frequency
    on an accepted estimate, nothing on a rejected one; together with
    the history the frame leaves behind. *)
Definition smooth (detectedPitch detectedClarity : R) (h : list R)
  : list R * option R :=
  if accepted detectedPitch detectedClarity then
    let h' := pushPitch h detectedPitch in
    (h', if (0 <? List.length h')%nat then Some (average h') else None)
  else
    ((if (0 <? List.length h)%nat then [] else h), None).

(** One animation frame, from the estimate on. *)
Definition detectPitch (detectedPitch detectedClarity : R) (now : Z)
    (st : TunerState) : TunerState :=
  match smooth detectedPitch detectedClarity (pitchHistory st) with
  | (h', Some avgPitch) => updateTuningInfo avgPitch now (setHistory st h')
  | (h', None) =>
      if accepted detectedPitch detectedClarity
      then setHistory st h'
      else publish (setHistory st h') EmptyString 0
  end.

(** A frame as the loop sees it: the estimate and the clock. *)
Record Frame := mkFrame { fPitch : R; fClarity : R; fNow : Z }.

Definition runFrames (fs : list Frame) (st : TunerState) : TunerState :=
  fold_left (fun s fr => detectPitch (fPitch fr) (fClarity fr) (fNow fr) s)
            fs st.

(** The frame's estimate passes the acceptance test. *)
Definition acceptedFrame (fr : Frame) : bool :=
  accepted (fPitch fr) (fClarity fr).

(** A sequence of calls of the tracker, each with its [Date.now()]. *)
Definition runUpdates (us : list (R * Z)) (st : TunerState) : TunerState :=
  fold_left (fun s u => updateTuningInfo (fst u) (snd u) s) us st.

(** The tuned flag of the [i]-th string. *)
Definition tunedAt (i : nat) (st : TunerState) : bool :=
  match nth_error (guitarStrings st) i with
  | Some s => tuned s
  | None => false
  end.

(** ** Notions used to state the properties *)

(** [c] is the first entry of [l] among those nearest to [f]. *)
Definition firstMin (f : R) (l : list GuitarString) (c : GuitarString)
  : Prop :=
  exists pre post,
    l = pre ++ c :: post /\
    (forall x, In x pre -> Rabs (f - freq c) < Rabs (f - freq x)) /\
    (forall x, In x post -> Rabs (f - freq c) <= Rabs (f - freq x)).

(** The reading the tracker publishes for a frequency, if any: the
    matched string and the cents, provided they are within 50. *)
Definition reading (f : R) : option (GuitarString * Z) :=
  match findClosest f guitarStrings0 with
  | Some s =>
      match centsValue f s with
      | Some c => if (Z.abs c <=? 50)%Z then Some (s, c) else None
      | None => None
      end
  | None => None
  end.

(** The update [u] reads string [s] within 5 cents. *)
Definition inTune (s : GuitarString) (u : R * Z) : Prop :=
  exists c, reading (fst u) = Some (s, c) /\ (Z.abs c <= 5)%Z.

(** The time between the first and the last update of a run. *)
Definition span (us : list (R * Z)) : Z :=
  match us with
  | [] => 0
  | u :: _ => snd (last us u) - snd u
  end.

(** "A string is locked only after it has been read within 5 cents
    without interruption for at least 2000 ms": every lock is preceded
    by such a run of updates. *)
Definition lockNeedsSustainedHold : Prop :=
  forall (us : list (R * Z)) (i : nat) (s : GuitarString),
    nth_error guitarStrings0 i = Some s ->
    tunedAt i (runUpdates us initialTuner) = true ->
    exists pre seg post,
      us = pre ++ seg ++ post /\
      Forall (inTune s) seg /\ (2000 <= span seg)%Z.

(** "An estimate is rejected exactly when its confidence is below 0.8
    or its frequency lies outside the closed range from 50 to 2000". *)
Definition rejectsOutsideClosedRange : Prop :=
  forall pitch clarity : R,
    accepted pitch clarity = false <->
    (clarity < 8 / 10 \/ pitch < 50 \/ 2000 < pitch).

(** The last [n] elements of a list. *)
Definition lastN (n : nat) (l : list R) : list R :=
  skipn (List.length l - n) l.

(** What the smoother hands on, frame by frame, for a sequence of
    estimates [(pitch, clarity)] started with history [h]. *)
Fixpoint smoothOutputs (es : list (R * R)) (h : list R)
  : list (option R) :=
  match es with
  | [] => []
  | (p, c) :: rest =>
      let (h', out) := smooth p c h in out :: smoothOutputs rest h'
  end.

(** The history a sequence of estimates leaves behind. *)
Fixpoint smoothHistory (es : list (R * R)) (h : list R) : list R :=
  match es with
  | [] => h
  | (p, c) :: rest => smoothHistory rest (fst (smooth p c h))
  end.

(** One entry after [markTuned n]. *)
Definition markOne (n : string) (str : GuitarString) : GuitarString :=
  if String.eqb (name str) n
  then mkString (name str) (freq str) true (tuningStartTime str)
  else str.

(** The two entries named E, and the low one 40 cents sharp. *)
Definition lowE : GuitarString := mkString "E" (8241 / 100) false None.
Definition highE : GuitarString := mkString "E" (32963 / 100) false None.
Definition sharpE : R := freq lowE * Rpower 2 (40 / 1200).

(** Entries bearing the same name carry the same flag. *)
Definition sameFlag (g : list GuitarString) : Prop :=
  forall a b, In a g -> In b g -> name a = name b -> tuned a = tuned b.

(** The invariant of the strings: the six names, and one flag per name. *)
Definition stringsInv (g : list GuitarString) : Prop :=
  map name g = map name guitarStrings0 /\ sameFlag g.

End Tuner.

(* ================================================================== *)
(** * The host's timers and the tick log *)
(* ================================================================== *)

(** One tick as the engines' clients observe it: the instant it fired,
    the [beatCount] and [currentBeat] fields right after [playBeat], and
    the [isDownbeat] flag that selects the click's timbre. *)
Record Tick := mkTick {
  tickTime : Q;
  tickCount : Z;
  tickBeat : Z;
  tickDownbeat : bool
}.

(** What a client may do to an engine, and what the host may do: deliver
    the next pending timer ([Fire]) or let time pass ([Wait]). *)
Inductive action :=
| Start
| Stop
| SetBPM (newBPM : Q)
| Fire
| Wait (dt : Q).

(** [Math.min] and [Math.max] on numbers that are not NaN. *)
Definition Math_max (a b : Q) : Q := if Qlt_le_dec a b then b else a.
Definition Math_min (a b : Q) : Q := if Qlt_le_dec b a then b else a.

(** A timer id is a positive number, so [if (id)] holds for every id
    the host hands out; [null] and [0] are falsy. *)
Definition truthy (id : option Z) : bool :=
  match id with
  | Some n => negb (n =? 0)%Z
  | None => false
  end.

(** ** Quotients of JavaScript numbers *)

(** JavaScript numbers are IEEE 754 doubles.  Integers below [2^53] in
    absolute value, their sums and their differences are exact; a
    quotient [a / b] is the exact quotient rounded to the nearest
    double, ties to the even mantissa.  [fl] is that rounding for
    values in the normal range, where all quotients of millisecond
    timestamps lie. *)

(** The nearest integer, ties to the even one. *)
Definition roundEven (x : Q) : Z :=
  let f := Qfloor x in
  match Qcompare (x - inject_Z f) (1 # 2) with
  | Lt => f
  | Gt => (f + 1)%Z
  | Eq => if Z.even f then f else (f + 1)%Z
  end.

(** The binade of a positive number: [floor (log2 x)]. *)
Definition ilog2 (x : Q) : Z :=
  let e0 := (Z.log2 (Qnum x) - Z.log2 (Zpos (Qden x)))%Z in
  if Qle_bool (2 ^ e0) x then e0 else (e0 - 1)%Z.

(** The double nearest to [x]: a mantissa of 53 bits, rounded to
    nearest with ties to even, times the power of two of the binade. *)
Definition fl (x : Q) : Q :=
  if Qeq_bool x 0 then 0%Q
  else
    let a := Qabs x in
    let e := (ilog2 a - 52)%Z in
    let r := (inject_Z (roundEven (a / 2 ^ e)) * 2 ^ e)%Q in
    if Qle_bool 0 x then r else (- r)%Q.

(* ================================================================== *)
(** * MetronomeSound (utils/MetronomeSound.ts) *)
(* ================================================================== *)

Module MetronomeSound.
Local Open Scope Q_scope.

(** The two arrow functions the class hands to [setTimeout]: the one of
    [scheduleNextBeat] and the one of [setBPM]. *)
Inductive callback := ScheduledBeat | TempoBeat.

(** A pending single-shot timer.  The host is idealised: a timer armed
    with delay [d] at instant [t] is due at [t + d]. *)
Record timer := mkTimer { tid : Z; due : Q; cb : callback }.

(** The object's fields, the host's clock and timer table, and the log
    of the ticks fired so far. *)
Record world := mkWorld {
  isPlaying : bool;
  timeoutId : option Z;
  intervalId : option Z;
  bpm : Q;
  beatCount : Z;
  currentBeat : Z;
  now : Q;
  nextId : Z;
  timers : list timer;
  ticks : list Tick
}.

(** The constructor, at instant 0 of a host with no timer. *)
Definition fresh : world :=
  mkWorld false None None 120 0 0 0 1 [] [].

(** [window.setTimeout(c, delay)]: the new id and the new world. *)
Definition setTimeout (c : callback) (delay : Q) (w : world) : Z * world :=
  (nextId w,
   mkWorld (isPlaying w) (timeoutId w) (intervalId w) (bpm w) (beatCount w)
           (currentBeat w) (now w) (nextId w + 1)
           (timers w ++ [mkTimer (nextId w) (now w + delay) c]) (ticks w)).

(** [clearTimeout(id)] (and [clearInterval(id)], same table). *)
Definition clearTimeout (id : Z) (w : world) : world :=
  mkWorld (isPlaying w) (timeoutId w) (intervalId w) (bpm w) (beatCount w)
          (currentBeat w) (now w) (nextId w)
          (filter (fun t => negb (tid t =? id)%Z) (timers w)) (ticks w).

Definition setTimeoutId (i : option Z) (w : world) : world :=
  mkWorld (isPlaying w) i (intervalId w) (bpm w) (beatCount w)
          (currentBeat w) (now w) (nextId w) (timers w) (ticks w).

Definition setIntervalId (i : option Z) (w : world) : world :=
  mkWorld (isPlaying w) (timeoutId w) i (bpm w) (beatCount w)
          (currentBeat w) (now w) (nextId w) (timers w) (ticks w).

Definition setIsPlaying (b : bool) (w : world) : world :=
  mkWorld b (timeoutId w) (intervalId w) (bpm w) (beatCount w)
          (currentBeat w) (now w) (nextId w) (timers w) (ticks w).

Definition setBpmField (q : Q) (w : world) : world :=
  mkWorld (isPlaying w) (timeoutId w) (intervalId w) q (beatCount w)
          (currentBeat w) (now w) (nextId w) (timers w) (ticks w).

Definition setBeatCount (n : Z) (w : world) : world :=
  mkWorld (isPlaying w) (timeoutId w) (intervalId w) (bpm w) n
          (currentBeat w) (now w) (nextId w) (timers w) (ticks w).

Definition setCurrentBeat (n : Z) (w : world) : world :=
  mkWorld (isPlaying w) (timeoutId w) (intervalId w) (bpm w) (beatCount w)
          n (now w) (nextId w) (timers w) (ticks w).

(** [playBeat]: the counters, the [onBeat] callback and the click, the
    last two recorded as one [Tick].  JavaScript's [%] is [Z.rem].  The
    audio context is created by the constructor and never cleared, so
    the guard on it never returns. *)
Definition playBeat (w : world) : world :=
  let count := (beatCount w + 1)%Z in
  let beatInMeasure := Z.rem count 4 in
  let isDownbeat := (beatInMeasure =? 0)%Z in
  mkWorld (isPlaying w) (timeoutId w) (intervalId w) (bpm w) count
          beatInMeasure (now w) (nextId w) (timers w)
          (ticks w ++ [mkTick (now w) count beatInMeasure isDownbeat]).

Definition scheduleNextBeat (w : world) : world :=
  if negb (isPlaying w) then w
  else
    let interval := 60000 / bpm w in
    let (id, w') := setTimeout ScheduledBeat interval w in
    setTimeoutId (Some id) w'.

Definition start (w : world) : world :=
  if isPlaying w then w
  else
    let w1 := setCurrentBeat 0 (setBeatCount (-1) (setIsPlaying true w)) in
    scheduleNextBeat (playBeat w1).

Definition stop (w : world) : world :=
  let w1 := setIsPlaying false w in
  let w2 :=
    match timeoutId w1 with
    | Some id => if truthy (Some id)
                 then setTimeoutId None (clearTimeout id w1) else w1
    | None => w1
    end in
  match intervalId w2 with
  | Some id => if truthy (Some id)
               then setIntervalId None (clearTimeout id w2) else w2
  | None => w2
  end.

Definition setBPM (newBPM : Q) (w : world) : world :=
  let w1 := setBpmField (Math_min (Math_max newBPM 40) 300) w in
  match timeoutId w1 with
  | Some old =>
      if isPlaying w1 && truthy (Some old) then
        let w2 := clearTimeout old w1 in
        let interval := 60000 / bpm w2 in
        let (id, w3) := setTimeout TempoBeat interval w2 in
        setTimeoutId (Some id) w3
      else w1
  | None => w1
  end.

(** The bodies of the two timer callbacks. *)
Definition runCallback (c : callback) (w : world) : world :=
  match c with
  | ScheduledBeat =>
      if negb (isPlaying w) then w
      else scheduleNextBeat (playBeat w)
  | TempoBeat =>
      if negb (isPlaying w) then w
      else
        let w1 := setCurrentBeat (Z.rem (currentBeat w + 1) 4) w in
        scheduleNextBeat (playBeat w1)
  end.

(** The pending timer the host delivers next: the earliest due one, the
    first armed among equals. *)
Fixpoint earliest (ts : list timer) : option timer :=
  match ts with
  | [] => None
  | t :: rest =>
      match earliest rest with
      | Some t' => if Qlt_le_dec (due t') (due t) then Some t' else Some t
      | None => Some t
      end
  end.

(** The host delivers the next timer: the clock moves to its due time,
    the timer leaves the table (it is single-shot) and its callback
    runs. *)
Definition fire (w : world) : world :=
  match earliest (timers w) with
  | None => w
  | Some t =>
      runCallback (cb t)
        (mkWorld (isPlaying w) (timeoutId w) (intervalId w) (bpm w)
                 (beatCount w) (currentBeat w) (due t) (nextId w)
                 (filter (fun t' => negb (tid t' =? tid t)%Z) (timers w))
                 (ticks w))
  end.

(** Time passes without any timer being delivered; it cannot pass
    beyond the next due time. *)
Definition wait (dt : Q) (w : world) : world :=
  let ok :=
    match earliest (timers w) with
    | Some t => if Qlt_le_dec (due t) (now w + dt) then false else true
    | None => true
    end in
  if (if Qlt_le_dec dt 0 then false else ok) then
    mkWorld (isPlaying w) (timeoutId w) (intervalId w) (bpm w)
            (beatCount w) (currentBeat w) (now w + dt) (nextId w)
            (timers w) (ticks w)
  else w.

Definition step (w : world) (a : action) : world :=
  match a with
  | Start => start w
  | Stop => stop w
  | SetBPM q => setBPM q w
  | Fire => fire w
  | Wait dt => wait dt w
  end.

Definition run (acts : list action) (w : world) : world :=
  fold_left step acts w.

(** ** Notions used to state the properties *)

(** A tick carries a count from 0 up, the beat [count % 4] and the
    downbeat flag of beat 0. *)
Definition tickOk (k : Tick) : Prop :=
  (0 <= tickCount k)%Z /\
  tickBeat k = Z.rem (tickCount k) 4 /\
  tickDownbeat k = (tickBeat k =? 0)%Z.

(** What holds of every world the engine can be in. *)
Definition wellFormed (w : world) : Prop :=
  intervalId w = None /\
  (1 <= nextId w)%Z /\
  (40 <= bpm w /\ bpm w <= 300) /\
  (0 <= beatCount w)%Z /\
  currentBeat w = Z.rem (beatCount w) 4 /\
  Forall tickOk (ticks w) /\
  if isPlaying w
  then exists t, timers w = [t] /\ timeoutId w = Some (tid t) /\
                 (1 <= tid t < nextId w)%Z /\ now w <= due t
  else timers w = [] /\ timeoutId w = None.

End MetronomeSound.

(* ================================================================== *)
(** * The engine embedded in the standalone Metronome page *)
(* ================================================================== *)

Module LegacyMetronome.
Local Open Scope Q_scope.

(** A repeating timer of [setInterval]: after each delivery it is due
    again one [period] later.  Its callback is always
    [() => this.playBeat()]. *)
Record timer := mkTimer { tid : Z; due : Q; period : Q }.

Record world := mkWorld {
  isPlaying : bool;
  intervalId : option Z;
  bpm : Q;
  beatCount : Z;
  currentBeat : Z;
  now : Q;
  nextId : Z;
  timers : list timer;
  ticks : list Tick
}.

Definition fresh : world :=
  mkWorld false None 120 0 0 0 1 [] [].

Definition setInterval (interval : Q) (w : world) : Z * world :=
  (nextId w,
   mkWorld (isPlaying w) (intervalId w) (bpm w) (beatCount w)
           (currentBeat w) (now w) (nextId w + 1)
           (timers w ++ [mkTimer (nextId w) (now w + interval) interval])
           (ticks w)).

Definition clearInterval (id : Z) (w : world) : world :=
  mkWorld (isPlaying w) (intervalId w) (bpm w) (beatCount w)
          (currentBeat w) (now w) (nextId w)
          (filter (fun t => negb (tid t =? id)%Z) (timers w)) (ticks w).

Definition setIntervalId (i : option Z) (w : world) : world :=
  mkWorld (isPlaying w) i (bpm w) (beatCount w) (currentBeat w) (now w)
          (nextId w) (timers w) (ticks w).

Definition setIsPlaying (b : bool) (w : world) : world :=
  mkWorld b (intervalId w) (bpm w) (beatCount w) (currentBeat w) (now w)
          (nextId w) (timers w) (ticks w).

Definition setBpmField (q : Q) (w : world) : world :=
  mkWorld (isPlaying w) (intervalId w) q (beatCount w) (currentBeat w)
          (now w) (nextId w) (timers w) (ticks w).

Definition setBeatCount (n : Z) (w : world) : world :=
  mkWorld (isPlaying w) (intervalId w) (bpm w) n (currentBeat w) (now w)
          (nextId w) (timers w) (ticks w).

(** [playBeat]: the click with [isDownbeat = (currentBeat === 0)], then
    [currentBeat = (currentBeat + 1) % 4]; [beatCount] is not touched. *)
Definition playBeat (w : world) : world :=
  let isDownbeat := (currentBeat w =? 0)%Z in
  let next := Z.rem (currentBeat w + 1) 4 in
  mkWorld (isPlaying w) (intervalId w) (bpm w) (beatCount w) next (now w)
          (nextId w) (timers w)
          (ticks w ++ [mkTick (now w) (beatCount w) next isDownbeat]).

Definition start (w : world) : world :=
  if isPlaying w then w
  else
    let w1 := setBeatCount 0 (setIsPlaying true w) in
    let interval := 60000 / bpm w1 in
    let w2 := playBeat w1 in
    let (id, w3) := setInterval interval w2 in
    setIntervalId (Some id) w3.

Definition stop (w : world) : world :=
  let w1 := setIsPlaying false w in
  match intervalId w1 with
  | Some id => if truthy (Some id)
               then setIntervalId None (clearInterval id w1) else w1
  | None => w1
  end.

Definition setBPM (newBPM : Q) (w : world) : world :=
  let w1 := setBpmField newBPM w in
  match intervalId w1 with
  | Some old =>
      if isPlaying w1 && truthy (Some old) then
        let w2 := clearInterval old w1 in
        let interval := 60000 / bpm w2 in
        let (id, w3) := setInterval interval w2 in
        setIntervalId (Some id) w3
      else w1
  | None => w1
  end.

Fixpoint earliest (ts : list timer) : option timer :=
  match ts with
  | [] => None
  | t :: rest =>
      match earliest rest with
      | Some t' => if Qlt_le_dec (due t') (due t) then Some t' else Some t
      | None => Some t
      end
  end.

(** The host delivers the next timer: the clock moves to its due time,
    the timer is re-queued one period later and [playBeat] runs. *)
Definition fire (w : world) : world :=
  match earliest (timers w) with
  | None => w
  | Some t =>
      playBeat
        (mkWorld (isPlaying w) (intervalId w) (bpm w) (beatCount w)
                 (currentBeat w) (due t) (nextId w)
                 (map (fun t' => if (tid t' =? tid t)%Z
                                 then mkTimer (tid t') (due t' + period t')
                                              (period t')
                                 else t') (timers w))
                 (ticks w))
  end.

Definition wait (dt : Q) (w : world) : world :=
  let ok :=
    match earliest (timers w) with
    | Some t => if Qlt_le_dec (due t) (now w + dt) then false else true
    | None => true
    end in
  if (if Qlt_le_dec dt 0 then false else ok) then
    mkWorld (isPlaying w) (intervalId w) (bpm w) (beatCount w)
            (currentBeat w) (now w + dt) (nextId w) (timers w) (ticks w)
  else w.

Definition step (w : world) (a : action) : world :=
  match a with
  | Start => start w
  | Stop => stop w
  | SetBPM q => setBPM q w
  | Fire => fire w
  | Wait dt => wait dt w
  end.

Definition run (acts : list action) (w : world) : world :=
  fold_left step acts w.

End LegacyMetronome.

(* ================================================================== *)
(** * Tap tempo (MetronomeControls.tsx) *)
(* ================================================================== *)

Module MetronomeControls.
Local Open Scope Z_scope.

(** The part of the component's state that [handleTapTempo] touches:
    the [bpm] and [tapTimes] states and the engine behind
    [metronomeRef]. *)
Record controls := mkControls {
  bpm : Z;
  tapTimes : list Z;
  metronome : MetronomeSound.world
}.

Definition initialControls : controls :=
  mkControls 120 [] MetronomeSound.fresh.

(** [arr.slice(-n)]: the last [n] elements. *)
Definition sliceLast (n : nat) (l : list Z) : list Z :=
  skipn (List.length l - n) l.

(** [intervals.push(newTapTimes[i] - newTapTimes[i - 1])] for [i >= 1]. *)
Fixpoint intervals (l : list Z) : list Z :=
  match l with
  | a :: (b :: _) as rest => (b - a) :: intervals rest
  | _ => []
  end.

(** [intervals.reduce((a, b) => a + b, 0) / intervals.length]: the
    sum of the integer intervals is exact, the quotient is a double. *)
Definition averageInterval (ints : list Z) : Q :=
  fl (inject_Z (fold_left Z.add ints 0%Z)
      / inject_Z (Z.of_nat (List.length ints)))%Q.

Definition Math_round (x : Q) : Z := Qfloor (x + (1 # 2))%Q.

(** [Math.round(60000 / averageInterval)], the quotient being a
    double again; a zero interval makes it infinite, which is [None]
    here and fails the range test. *)
Definition calculatedBpm (ints : list Z) : option Z :=
  let avg := averageInterval ints in
  if Qeq_bool avg 0%Q then None
  else Some (Math_round (fl (60000 / avg))%Q).

(** The tempo the tap applies, if any. *)
Definition tapEstimate (newTapTimes : list Z) : option Z :=
  if (1 <? List.length newTapTimes)%nat then
    match calculatedBpm (intervals newTapTimes) with
    | Some b => if (40 <=? b) && (b <=? 300) then Some b else None
    | None => None
    end
  else None.

(** [handleTapTempo], with [now] the value of [Date.now()]; the clean-up
    timer it arms is [clearOldTaps] below. *)
Definition handleTapTempo (now : Z) (c : controls) : controls :=
  let newTapTimes := sliceLast 4 (tapTimes c ++ [now]) in
  match tapEstimate newTapTimes with
  | Some b =>
      mkControls b newTapTimes
                 (MetronomeSound.setBPM (inject_Z b) (metronome c))
  | None => mkControls (bpm c) newTapTimes (metronome c)
  end.

(** The clean-up callback, run at instant [later]:
    [prev.filter(time => (Date.now() - time) < 2000)]. *)
Definition clearOldTaps (later : Z) (c : controls) : controls :=
  mkControls (bpm c)
             (filter (fun time => later - time <? 2000) (tapTimes c))
             (metronome c).

Definition registerTaps (taps : list Z) (c : controls) : controls :=
  fold_left (fun s t => handleTapTempo t s) taps c.

(** ** Notions used to state the properties *)

(** The spec's words, in exact arithmetic: the inter-tap intervals,
    "the mean inter-tap interval" and "BPM = round(60000 / mean)". *)
Definition gaps (taps : list Z) : list Z :=
  map (fun p => snd p - fst p) (combine taps (tl taps)).

Definition meanInterval (taps : list Z) : Q :=
  (inject_Z (fold_right Z.add 0%Z (gaps taps))
   / inject_Z (Z.of_nat (List.length (gaps taps))))%Q.

Definition exactBpm (taps : list Z) : Z :=
  Math_round (60000 / meanInterval taps)%Q.

(** "With at least 2 taps the estimate is round(60000 / mean), applied
    only if it lies in [40,300]", read in exact arithmetic. *)
Definition estimateIsExactRound : Prop :=
  forall taps,
    (2 <= List.length taps)%nat -> ~ (meanInterval taps == 0)%Q ->
    tapEstimate taps
    = if (40 <=? exactBpm taps) && (exactBpm taps <=? 300)
      then Some (exactBpm taps) else None.

End MetronomeControls.

(* ================================================================== *)
(** * Comparing the two engines *)
(* ================================================================== *)

(** Short names for the two engines. *)
Module Legacy := LegacyMetronome.
Module Engine := MetronomeSound.

(** What a client can observe of an engine: the stored tempo, the ticks
    fired so far and the instants at which pending timers are due. *)
Record observation := mkObs {
  oBpm : Q;
  oTicks : list Tick;
  oPending : list Q
}.

Definition observeLegacy (w : Legacy.world) : observation :=
  mkObs (Legacy.bpm w) (Legacy.ticks w) (map Legacy.due (Legacy.timers w)).

Definition observeEngine (w : Engine.world) : observation :=
  mkObs (Engine.bpm w) (Engine.ticks w) (map Engine.due (Engine.timers w)).













(* ================================================================== *)
(** * The tuner's display (Tuner.tsx) *)
(* ================================================================== *)

Module TunerDisplay.
Import Tuner.
Local Open Scope R_scope.

(** The colours of the indicator: [#10b981], [#ef4444], [#f59e0b] and
    [white]. *)
Inductive color := Green | Red | Amber | White.

(** A string is truthy when it is not empty. *)
Definition truthyString (s : string) : bool :=
  negb (String.eqb s EmptyString).

(** The [borderTop] colour of the indicator:
    [currentNote && Math.abs(cents) <= 5 ? green
     : currentNote && cents > 0 ? red
     : currentNote && cents < 0 ? amber : white]. *)
Definition indicatorColor (currentNote : string) (cents : Z) : color :=
  if truthyString currentNote && (Z.abs cents <=? 5)%Z then Green
  else if truthyString currentNote && (0 <? cents)%Z then Red
  else if truthyString currentNote && (cents <? 0)%Z then Amber
  else White.

Definition indicatorOf (st : TunerState) : color :=
  indicatorColor (currentNote st) (Tuner.cents st).

(** The deviation from string [s] before rounding, in cents. *)
Definition exactCents (f : R) (s : GuitarString) : R :=
  1200 * (ln (f / freq s) / ln 2).

(** A frequency the acceptance test lets through. *)
Definition plausible (x : R) : Prop := 50 < x < 2000.

(** A note name the tracker can hold: none, or the name of a string. *)
Definition noteOk (n : string) : Prop :=
  n = EmptyString \/ In n (map name guitarStrings0).

(** The string table but for the tuned flags. *)
Definition stringsUntouched (g : list GuitarString) : Prop :=
  Forall2 (fun a b => name a = name b /\ freq a = freq b /\
                      tuningStartTime a = None) g guitarStrings0.

(** What the display and the refs hold after a call. *)
Definition displayOk (st : TunerState) : Prop :=
  (Z.abs (Tuner.cents st) <= 50)%Z /\ noteOk (currentNote st) /\
  noteOk (lastNoteRef st) /\
  (currentNote st = EmptyString -> Tuner.cents st = 0%Z).

End TunerDisplay.

(* ================================================================== *)
(** * Pace of the engine *)
(* ================================================================== *)

(** Instants in the order they happened. *)
Fixpoint nondecreasing (l : list Q) : Prop :=
  match l with
  | a :: (b :: _) as rest => (a <= b)%Q /\ nondecreasing rest
  | _ => True
  end.

(** No tick lies in the future, the ticks are in order, and a pending
    timer is due at least 200 ms after every tick so far and at most
    1500 ms from now. *)
Definition paced (w : Engine.world) : Prop :=
  Forall (fun k => (tickTime k <= Engine.now w)%Q) (Engine.ticks w) /\
  nondecreasing (map tickTime (Engine.ticks w)) /\
  Forall (fun t =>
            (Engine.now w <= Engine.due t)%Q /\
            (Engine.due t <= Engine.now w + 1500)%Q /\
            Forall (fun k => (tickTime k + 200 <= Engine.due t)%Q)
                   (Engine.ticks w))
         (Engine.timers w).

(* ================================================================== *)
(** * The whole control panel (MetronomeControls.tsx) *)
(* ================================================================== *)

Module ControlPanel.
Import MetronomeControls.
Local Open Scope Z_scope.

(** The component's state: the part [handleTapTempo] touches ([core]),
    the play, pulse, colour and drag states, and the arguments the
    parent's [onDownbeat] handler has been called with. *)
Record panel := mkPanel {
  core : controls;
  isPlaying : bool;
  activeBeat : Z;
  isGreenDownbeat : bool;
  isDragging : bool;
  downbeatCalls : list Z
}.

Definition initialPanel : panel :=
  mkPanel initialControls false (-1) false false [].

Definition setCore (c : controls) (p : panel) : panel :=
  mkPanel c (isPlaying p) (activeBeat p) (isGreenDownbeat p)
          (isDragging p) (downbeatCalls p).

Definition setEngine (w : Engine.world) (p : panel) : panel :=
  setCore (mkControls (bpm (core p)) (tapTimes (core p)) w) p.

(** [setBpm(newBpm); metronomeRef.current.setBPM(newBpm)] *)
Definition applyBpm (newBpm : Z) (p : panel) : panel :=
  setCore (mkControls newBpm (tapTimes (core p))
                      (Engine.setBPM (inject_Z newBpm)
                                     (metronome (core p)))) p.

(** The [onBeat] callback installed on the engine, for one tick: the
    pulse, the colour switch every 8 beats and the parent's handler,
    which gets the engine's [beatCount].  The timer that clears the
    pulse 150 ms later is [pulseOff]. *)
Definition onBeat (k : Tick) (p : panel) : panel :=
  let beat := tickBeat k in
  let beatCount := tickCount k in
  let green :=
    if (beat =? 0) && (0 <? beatCount) && (Z.rem beatCount 8 =? 0)
    then negb (isGreenDownbeat p) else isGreenDownbeat p in
  mkPanel (core p) (isPlaying p) beat green (isDragging p)
          (downbeatCalls p ++ [beatCount]).

Definition pulseOff (p : panel) : panel :=
  mkPanel (core p) (isPlaying p) (-1) (isGreenDownbeat p) (isDragging p)
          (downbeatCalls p).

(** The engine calls [onBeat] from [playBeat]: once per tick it adds
    to its log while going from [before] to [after]. *)
Definition dispatch (before after : Engine.world) (p : panel) : panel :=
  fold_left (fun q k => onBeat k q)
            (skipn (List.length (Engine.ticks before)) (Engine.ticks after))
            p.

Definition togglePlay (p : panel) : panel :=
  let w := metronome (core p) in
  if isPlaying p then
    let p1 := setEngine (Engine.stop w) p in
    mkPanel (core p1) false (activeBeat p1) (isGreenDownbeat p1)
            (isDragging p1) (downbeatCalls p1)
  else
    let w1 := Engine.setBeatCount (-1) w in
    let w2 := Engine.setBPM (inject_Z (bpm (core p))) w1 in
    let w3 := Engine.start w2 in
    let p1 := mkPanel (core p) (isPlaying p) (activeBeat p) false
                      (isDragging p) (downbeatCalls p) in
    let p2 := dispatch w2 w3 (setEngine w3 p1) in
    mkPanel (core p2) true (activeBeat p2) (isGreenDownbeat p2)
            (isDragging p2) (downbeatCalls p2).

(** [Math.max(40, Math.min(300, bpm + delta))] *)
Definition changeBpm (delta : Z) (p : panel) : panel :=
  applyBpm (Z.max 40 (Z.min 300 (bpm (core p) + delta))) p.

(** [parseInt(e.target.value)] is [newBpm]. *)
Definition handleSliderChange (newBpm : Z) (p : panel) : panel :=
  applyBpm newBpm p.

(** [Math.round(40 + Math.max(0, Math.min(1, position)) * 260)], for a
    position that is a finite number. *)
Definition sliderBpm (position : Q) : Z :=
  Math_round (40 + Math_max 0 (Math_min 1 position) * 260)%Q.

(** The thumb's place on the track: [(bpm - 40) / 260]. *)
Definition thumbPosition (b : Z) : Q := ((inject_Z b - 40) / 260)%Q.

Definition moveTo (position : Q) (p : panel) : panel :=
  let newBpm := sliderBpm position in
  if newBpm =? bpm (core p) then p else applyBpm newBpm p.

Definition handleMouseDown (position : Q) (p : panel) : panel :=
  moveTo position
         (mkPanel (core p) (isPlaying p) (activeBeat p) (isGreenDownbeat p)
                  true (downbeatCalls p)).

Definition handleMove (position : Q) (p : panel) : panel :=
  if isDragging p then moveTo position p else p.

Definition handleUp (p : panel) : panel :=
  mkPanel (core p) (isPlaying p) (activeBeat p) (isGreenDownbeat p) false
          (downbeatCalls p).

(** What can happen to the panel: the user's gestures, the host's
    timers (the engine's, the pulse's, the taps') and the passing of
    time. *)
Inductive event :=
| Toggle
| ChangeBpm (delta : Z)
| SliderChange (newBpm : Z)
| MouseDown (position : Q)
| MouseMove (position : Q)
| MouseUp
| Tap (now : Z)
| CleanTaps (later : Z)
| Deliver
| PulseOff
| Pass (dt : Q).

Definition react (p : panel) (e : event) : panel :=
  match e with
  | Toggle => togglePlay p
  | ChangeBpm delta => changeBpm delta p
  | SliderChange n => handleSliderChange n p
  | MouseDown x => handleMouseDown x p
  | MouseMove x => handleMove x p
  | MouseUp => handleUp p
  | Tap t => setCore (handleTapTempo t (core p)) p
  | CleanTaps later => setCore (clearOldTaps later (core p)) p
  | Deliver =>
      let w := metronome (core p) in
      dispatch w (Engine.fire w) (setEngine (Engine.fire w) p)
  | PulseOff => pulseOff p
  | Pass dt => setEngine (Engine.wait dt (metronome (core p))) p
  end.

Definition session (es : list event) (p : panel) : panel :=
  fold_left react es p.

(** The range input offers values from 40 to 300 only. *)
Definition sliderInRange (e : event) : Prop :=
  match e with
  | SliderChange n => 40 <= n <= 300
  | _ => True
  end.

(** The panel and its engine in step. *)
Definition inStep (p : panel) : Prop :=
  Engine.wellFormed (metronome (core p)) /\
  isPlaying p = Engine.isPlaying (metronome (core p)) /\
  Engine.bpm (metronome (core p)) = inject_Z (bpm (core p)) /\
  40 <= bpm (core p) <= 300 /\
  isGreenDownbeat p
    = Z.odd (Engine.beatCount (metronome (core p)) / 8) /\
  downbeatCalls p = map tickCount (Engine.ticks (metronome (core p))).

End ControlPanel.

(* ================================================================== *)
(** * The standalone Metronome page *)
(* ================================================================== *)

Module MetronomePage.
Local Open Scope Z_scope.

(** [handleTapTempo] of the page: the new history (the last 8 taps) and
    the tempo it applies, if any, computed from the last two taps. *)
Definition newTapTimes (tapTimes : list Z) (now : Z) : list Z :=
  MetronomeControls.sliceLast 8 (tapTimes ++ [now]).

(** [Math.round(60000 / timeDiff)]; a zero difference makes the
    quotient infinite, which fails the range test. *)
Definition pairBpm (secondLastTap lastTap : Z) : option Z :=
  let timeDiff := lastTap - secondLastTap in
  if timeDiff =? 0 then None
  else Some (MetronomeControls.Math_round (60000 / inject_Z timeDiff)%Q).

Definition tapEstimate (taps : list Z) : option Z :=
  if (2 <=? List.length taps)%nat then
    let lastTap := nth (List.length taps - 1) taps 0 in
    let secondLastTap := nth (List.length taps - 2) taps 0 in
    match pairBpm secondLastTap lastTap with
    | Some b => if (40 <=? b) && (b <=? 300) then Some b else None
    | None => None
    end
  else None.

(** The page's state that the tap touches. *)
Record page := mkPage {
  bpm : Z;
  isPlaying : bool;
  tapTimes : list Z;
  metronome : Legacy.world
}.

Definition handleTapTempo (now : Z) (p : page) : page :=
  let taps := newTapTimes (tapTimes p) now in
  match tapEstimate taps with
  | Some b =>
      mkPage b (isPlaying p) taps
             (if isPlaying p
              then Legacy.setBPM (inject_Z b) (metronome p)
              else metronome p)
  | None => mkPage (bpm p) (isPlaying p) taps (metronome p)
  end.

(** The clean-up armed by the tap at [now], whenever it runs:
    [prev.filter(time => now - time < 3000)], with the tap's own
    [now]. *)
Definition clearOldTaps (now : Z) (p : page) : page :=
  mkPage (bpm p) (isPlaying p)
         (filter (fun time => now - time <? 3000) (tapTimes p))
         (metronome p).

Definition initialPage : page := mkPage 120 false [] Legacy.fresh.

(** [togglePlay]: [stop()], or [setBPM(bpm)] and [start()]. *)
Definition togglePlay (p : page) : page :=
  if isPlaying p then
    mkPage (bpm p) false (tapTimes p) (Legacy.stop (metronome p))
  else
    mkPage (bpm p) true (tapTimes p)
           (Legacy.start (Legacy.setBPM (inject_Z (bpm p)) (metronome p))).

(** [setBpm(newBpm)], and [setBPM(newBpm)] on the engine only while
    the page is playing. *)
Definition applyBpm (newBpm : Z) (p : page) : page :=
  mkPage newBpm (isPlaying p) (tapTimes p)
         (if isPlaying p
          then Legacy.setBPM (inject_Z newBpm) (metronome p)
          else metronome p).

Definition handleBpmChange (increment : bool) (p : page) : page :=
  applyBpm (if increment then bpm p + 1 else bpm p - 1) p.

Definition handleSliderChange (newBpm : Z) (p : page) : page :=
  applyBpm newBpm p.

Inductive event :=
| Toggle
| BpmChange (increment : bool)
| SliderChange (newBpm : Z)
| Tap (now : Z)
| CleanTaps (now : Z)
| Deliver
| Pass (dt : Q).

Definition setEngine (w : Legacy.world) (p : page) : page :=
  mkPage (bpm p) (isPlaying p) (tapTimes p) w.

Definition react (p : page) (e : event) : page :=
  match e with
  | Toggle => togglePlay p
  | BpmChange i => handleBpmChange i p
  | SliderChange n => handleSliderChange n p
  | Tap t => handleTapTempo t p
  | CleanTaps t => clearOldTaps t p
  | Deliver => setEngine (Legacy.fire (metronome p)) p
  | Pass dt => setEngine (Legacy.wait dt (metronome p)) p
  end.

Definition session (es : list event) (p : page) : page :=
  fold_left react es p.

(** The page and its engine in step: playing alike, and the same tempo
    while playing. *)
Definition inStep (p : page) : Prop :=
  isPlaying p = Legacy.isPlaying (metronome p) /\
  (isPlaying p = true -> Legacy.bpm (metronome p) = inject_Z (bpm p)).

(** The legacy engine's measure: the position is the number of ticks
    so far modulo 4, whatever starts and stops there were. *)
Definition measureKept (w : Legacy.world) : Prop :=
  Legacy.currentBeat w
    = Z.of_nat (List.length (Legacy.ticks w)) mod 4 /\
  map tickDownbeat (Legacy.ticks w)
    = map (fun i => Z.of_nat i mod 4 =? 0)
          (seq 0 (List.length (Legacy.ticks w))) /\
  map tickBeat (Legacy.ticks w)
    = map (fun i => (Z.of_nat i + 1) mod 4)
          (seq 0 (List.length (Legacy.ticks w))).

End MetronomePage.

(* ================================================================== *)
(** * Properties of the tuner *)
(* ================================================================== *)

Section TunerFacts.
Import Tuner.
Local Open Scope R_scope.

Lemma Rltb_true x y : Rltb x y = true <-> x < y.
Proof. unfold Rltb; destruct (Rlt_dec x y); split; intros; try easy. Qed.

Lemma Rltb_false x y : Rltb x y = false <-> y <= x.
Proof.
  unfold Rltb; destruct (Rlt_dec x y); split; intros; try easy; lra.
Qed.

Lemma Math_round_spec x z :
  IZR z - / 2 <= x < IZR z + / 2 -> Math_round x = z.
Proof. intros H; unfold Math_round; apply Zfloor_eq; lra. Qed.

Lemma Math_round_IZR z : Math_round (IZR z) = z.
Proof. apply Math_round_spec; lra. Qed.

Lemma Math_round_bound x (b : Z) :
  Rabs x <= IZR b -> (Z.abs (Math_round x) <= b)%Z.
Proof.
  intros H. unfold Math_round.
  assert (Hx : - IZR b <= x <= IZR b).
  { unfold Rabs in H; destruct (Rcase_abs x); lra. }
  pose proof (Zfloor_bound (x + / 2)) as [Hl Hu].
  assert (H1 : (Zfloor (x + / 2) < b + 1)%Z).
  { apply lt_IZR; rewrite plus_IZR; lra. }
  assert (H2 : (- b - 1 < Zfloor (x + / 2))%Z).
  { apply lt_IZR; rewrite minus_IZR, opp_IZR; lra. }
  lia.
Qed.

(** ** The binary logarithm and powers of two *)

Lemma ln2_pos : 0 < ln 2.
Proof. pose proof ln_lt_2; lra. Qed.

Lemma log2_Rpower x : Math_log2 (Rpower 2 x) = Some x.
Proof.
  unfold Math_log2.
  assert (Hp : 0 < Rpower 2 x) by (unfold Rpower; apply exp_pos).
  destruct (Rlt_dec 0 (Rpower 2 x)) as [_|H]; [|contradiction].
  f_equal. rewrite ln_Rpower. field. pose proof ln2_pos; lra.
Qed.

Lemma Rpower2_24th : Rpower 2 (/ 24) < 103 / 100.
Proof.
  set (a := Rpower 2 (/ 24)).
  assert (Ha : 0 < a) by (unfold a, Rpower; apply exp_pos).
  destruct (Rlt_dec a (103 / 100)) as [H|H]; [exact H|exfalso].
  assert (Hpow : a ^ 24 = 2).
  { rewrite <- Rpower_pow by exact Ha. unfold a. rewrite Rpower_mult.
    replace (/ 24 * INR 24) with 1 by (simpl; field).
    apply Rpower_1; lra. }
  assert (Hle : (103 / 100) ^ 24 <= a ^ 24) by (apply pow_incr; lra).
  assert (Hc : 2 < (103 / 100) ^ 24) by (simpl; lra).
  lra.
Qed.

Lemma Rpower2_band delta :
  Rabs delta <= 50 ->
  97 / 100 < Rpower 2 (delta / 1200) < 103 / 100.
Proof.
  intros H.
  assert (Hd : - 50 <= delta <= 50).
  { unfold Rabs in H; destruct (Rcase_abs delta); lra. }
  pose proof Rpower2_24th as Hup.
  assert (Hp : 0 < Rpower 2 (/ 24)) by (unfold Rpower; apply exp_pos).
  split.
  - assert (Hlo : Rpower 2 (- / 24) <= Rpower 2 (delta / 1200)).
    { apply Rle_Rpower; lra. }
    rewrite Rpower_Ropp in Hlo.
    assert (97 / 100 < / Rpower 2 (/ 24)); [|lra].
    apply Rmult_lt_reg_r with (Rpower 2 (/ 24)); [exact Hp|].
    rewrite Rinv_l by lra. nra.
  - assert (Hhi : Rpower 2 (delta / 1200) <= Rpower 2 (/ 24)).
    { apply Rle_Rpower; lra. }
    lra.
Qed.

(** ** The linear scan *)

Lemma scanStep_eq f c x :
  scanStep f (c, Rabs (f - freq c)) x =
  if Rltb (Rabs (f - freq x)) (Rabs (f - freq c))
  then (x, Rabs (f - freq x)) else (c, Rabs (f - freq c)).
Proof. reflexivity. Qed.

Lemma scan_firstMin f l : forall p c,
  firstMin f p c ->
  firstMin f (p ++ l)
           (fst (fold_left (scanStep f) l (c, Rabs (f - freq c)))).
Proof.
  induction l as [|x l IH]; intros p c Hp.
  - rewrite app_nil_r. exact Hp.
  - replace (p ++ x :: l) with ((p ++ [x]) ++ l)
      by (rewrite <- app_assoc; reflexivity).
    cbn [fold_left]. rewrite scanStep_eq.
    destruct (Rltb (Rabs (f - freq x)) (Rabs (f - freq c))) eqn:E.
    + apply Rltb_true in E. apply IH.
      destruct Hp as (pre & post & -> & Hpre & Hpost).
      exists (pre ++ c :: post), []. split; [reflexivity|]. split.
      * intros y Hy. apply in_app_or in Hy. destruct Hy as [Hy|[<-|Hy]].
        -- specialize (Hpre y Hy). lra.
        -- exact E.
        -- specialize (Hpost y Hy). lra.
      * intros y [].
    + apply Rltb_false in E. apply IH.
      destruct Hp as (pre & post & -> & Hpre & Hpost).
      exists pre, (post ++ [x]). split.
      { rewrite <- app_assoc. reflexivity. }
      split; [exact Hpre|].
      intros y Hy. apply in_app_or in Hy. destruct Hy as [Hy|[<-|[]]].
      * apply Hpost, Hy.
      * exact E.
Qed.

Lemma findClosest_firstMin f l c :
  findClosest f l = Some c -> firstMin f l c.
Proof.
  destruct l as [|s0 rest]; [discriminate|].
  unfold findClosest, Math_abs. intros H. injection H as <-.
  cbn [fold_left]. rewrite scanStep_eq.
  replace (Rltb (Rabs (f - freq s0)) (Rabs (f - freq s0))) with false.
  2:{ symmetry. apply Rltb_false. lra. }
  apply (scan_firstMin f rest [s0] s0).
  exists [], []. split; [reflexivity|].
  split; intros y [].
Qed.

Lemma findClosest_some f l :
  l <> [] -> exists c, findClosest f l = Some c.
Proof. destruct l; [congruence|]. intros _. simpl. eauto. Qed.

Lemma firstMin_In f l c : firstMin f l c -> In c l.
Proof.
  intros (pre & post & -> & _). apply in_or_app. right. left. reflexivity.
Qed.

Lemma firstMin_le f l c x :
  firstMin f l c -> In x l -> Rabs (f - freq c) <= Rabs (f - freq x).
Proof.
  intros (pre & post & -> & Hpre & Hpost) Hx.
  apply in_app_or in Hx. destruct Hx as [Hx|[<-|Hx]].
  - specialize (Hpre x Hx). lra.
  - lra.
  - apply Hpost, Hx.
Qed.

(** Within 3 percent of an open-string frequency, that string is
    strictly nearer than each of the other five. *)
Lemma near_strict s s' f :
  In s guitarStrings0 -> In s' guitarStrings0 ->
  97 / 100 * freq s < f < 103 / 100 * freq s ->
  s' = s \/ Rabs (f - freq s) < Rabs (f - freq s').
Proof.
  intros Hs Hs' Hf.
  unfold guitarStrings0 in Hs, Hs'; simpl in Hs, Hs'.
  destruct Hs as [<-|[<-|[<-|[<-|[<-|[<-|[]]]]]]];
    destruct Hs' as [<-|[<-|[<-|[<-|[<-|[<-|[]]]]]]];
    try (left; reflexivity); right; simpl in Hf |- *;
    unfold Rabs; repeat destruct (Rcase_abs _); lra.
Qed.

Lemma closest_near s f :
  In s guitarStrings0 ->
  97 / 100 * freq s < f < 103 / 100 * freq s ->
  findClosest f guitarStrings0 = Some s.
Proof.
  intros Hin Hf.
  destruct (findClosest_some f guitarStrings0) as [c Hc];
    [discriminate|].
  rewrite Hc. f_equal.
  pose proof (findClosest_firstMin _ _ _ Hc) as Hmin.
  pose proof (firstMin_In _ _ _ Hmin) as Hcin.
  pose proof (firstMin_le _ _ _ s Hmin Hin) as Hle.
  destruct (near_strict s c f Hin Hcin Hf) as [E|E]; [exact E|lra].
Qed.

(** ** Cents *)

Lemma freq_pos s : In s guitarStrings0 -> 0 < freq s.
Proof.
  unfold guitarStrings0; simpl.
  intros [<-|[<-|[<-|[<-|[<-|[<-|[]]]]]]]; simpl; lra.
Qed.

Lemma centsValue_exact s delta :
  0 < freq s ->
  centsValue (freq s * Rpower 2 (delta / 1200)) s = Some (Math_round delta).
Proof.
  intros Hs. unfold centsValue.
  replace (freq s * Rpower 2 (delta / 1200) / freq s)
    with (Rpower 2 (delta / 1200)) by (field; lra).
  rewrite log2_Rpower. do 2 f_equal. field.
Qed.

Lemma centsValue_self s : 0 < freq s -> centsValue (freq s) s = Some 0%Z.
Proof.
  intros Hs.
  replace (freq s) with (freq s * Rpower 2 (0 / 1200)) at 1.
  - rewrite centsValue_exact by exact Hs. f_equal.
    apply Math_round_spec. simpl. lra.
  - replace (0 / 1200) with 0 by field.
    rewrite Rpower_O by lra. ring.
Qed.

Lemma in_band s delta :
  0 < freq s -> Rabs delta <= 50 ->
  97 / 100 * freq s < freq s * Rpower 2 (delta / 1200)
    < 103 / 100 * freq s.
Proof.
  intros Hs Hd. pose proof (Rpower2_band delta Hd) as [Hl Hu]. nra.
Qed.

(** ** One call of the tracker *)

Lemma update_reading f t st :
  updateTuningInfo f t st =
  match reading f with
  | Some (s, c) => publish (holdStep s c t st) (name s) c
  | None => st
  end.
Proof.
  unfold updateTuningInfo, reading.
  destruct (findClosest f guitarStrings0) as [s|]; [|reflexivity].
  destruct (centsValue f s) as [c|]; [|reflexivity].
  destruct (Z.abs c <=? 50)%Z; reflexivity.
Qed.

Lemma reading_near s delta :
  In s guitarStrings0 -> Rabs delta <= 50 ->
  reading (freq s * Rpower 2 (delta / 1200)) = Some (s, Math_round delta).
Proof.
  intros Hin Hd. pose proof (freq_pos s Hin) as Hs.
  unfold reading.
  rewrite (closest_near s _ Hin (in_band s delta Hs Hd)).
  rewrite (centsValue_exact s delta Hs).
  assert (H : (Z.abs (Math_round delta) <= 50)%Z)
    by (apply Math_round_bound; exact Hd).
  apply Z.leb_le in H. rewrite H. reflexivity.
Qed.

Lemma reading_exact s :
  In s guitarStrings0 -> reading (freq s) = Some (s, 0%Z).
Proof.
  intros Hin. pose proof (freq_pos s Hin) as Hs. unfold reading.
  rewrite (closest_near s (freq s) Hin) by lra.
  rewrite (centsValue_self s Hs). reflexivity.
Qed.

(** C1. For each of the six open strings [s] and every offset [delta]
    of at most 50 cents in absolute value, the tracker fed with
    [freq s * 2^(delta/1200)] matches [s], which is the first entry
    nearest in Hz (as the scan always returns), and publishes the name
    of [s] with the cents [round(1200 * log2 (f / freq s))], which is
    [round delta], hence within one cent of it. *)
Theorem tracker_matches_within_50_cents
    (s : GuitarString) (delta : R) (t : Z) (st : TunerState) :
  In s guitarStrings0 -> Rabs delta <= 50 ->
  let f := freq s * Rpower 2 (delta / 1200) in
  let st' := updateTuningInfo f t st in
  findClosest f guitarStrings0 = Some s /\
  firstMin f guitarStrings0 s /\
  (forall g c, findClosest g guitarStrings0 = Some c ->
               firstMin g guitarStrings0 c) /\
  centsValue f s = Some (Math_round delta) /\
  currentNote st' = name s /\
  cents st' = Math_round delta /\
  (Z.abs (cents st' - Math_round delta) <= 1)%Z.
Proof.
  intros Hin Hd f st'.
  pose proof (freq_pos s Hin) as Hs.
  assert (Hc : findClosest f guitarStrings0 = Some s)
    by (apply closest_near; [exact Hin|apply in_band; assumption]).
  assert (Hst : st' = publish (holdStep s (Math_round delta) t st)
                              (name s) (Math_round delta)).
  { unfold st'. rewrite update_reading. unfold f.
    rewrite (reading_near s delta Hin Hd). reflexivity. }
  split; [exact Hc|].
  split; [apply findClosest_firstMin; exact Hc|].
  split; [intros g c; apply findClosest_firstMin|].
  split; [apply centsValue_exact; exact Hs|].
  rewrite Hst. cbn [publish currentNote cents].
  split; [reflexivity|]. split; [reflexivity|].
  rewrite Z.sub_diag. simpl. lia.
Qed.

Lemma tracker_matches_within_50_cents_witness :
  cents (updateTuningInfo
           (freq (mkString "E" (8241 / 100) false None)
            * Rpower 2 (0 / 1200)) 0 initialTuner)
  = Math_round 0.
Proof.
  apply (tracker_matches_within_50_cents
           (mkString "E" (8241 / 100) false None) 0 0%Z initialTuner).
  - left. reflexivity.
  - rewrite Rabs_R0. lra.
Defined.

(** ** The acceptance gate and the smoother *)

Lemma accepted_true pitch clarity :
  accepted pitch clarity = true <->
  (8 / 10 < clarity /\ 50 < pitch < 2000).
Proof.
  unfold accepted. rewrite !andb_true_iff, !Rltb_true. tauto.
Qed.

Lemma accepted_false pitch clarity :
  accepted pitch clarity = false <->
  (clarity <= 8 / 10 \/ pitch <= 50 \/ 2000 <= pitch).
Proof.
  unfold accepted. rewrite !andb_false_iff, !Rltb_false. tauto.
Qed.

Lemma pushPitch_nonempty h p : (0 <? List.length (pushPitch h p))%nat = true.
Proof.
  apply Nat.ltb_lt. unfold pushPitch, maxHistoryLength.
  destruct (5 <? List.length (h ++ [p]))%nat eqn:E.
  - apply Nat.ltb_lt in E. destruct (h ++ [p]); simpl in *; lia.
  - rewrite length_app. simpl. lia.
Qed.

Lemma smooth_accepted p c h :
  accepted p c = true ->
  smooth p c h = (pushPitch h p, Some (average (pushPitch h p))).
Proof.
  intros H. unfold smooth. rewrite H, pushPitch_nonempty. reflexivity.
Qed.

Lemma smooth_rejected p c h :
  accepted p c = false -> smooth p c h = ([], None).
Proof.
  intros H. unfold smooth. rewrite H. destruct h; reflexivity.
Qed.

Lemma detectPitch_rejected p c t st :
  accepted p c = false ->
  detectPitch p c t st = publish (setHistory st []) EmptyString 0.
Proof.
  intros H. unfold detectPitch. rewrite (smooth_rejected p c _ H), H.
  reflexivity.
Qed.

Lemma detectPitch_accepted p c t st :
  accepted p c = true ->
  detectPitch p c t st =
  updateTuningInfo (average (pushPitch (pitchHistory st) p)) t
                   (setHistory st (pushPitch (pitchHistory st) p)).
Proof.
  intros H. unfold detectPitch. rewrite (smooth_accepted p c _ H).
  reflexivity.
Qed.

(** C7, as the code has it. An estimate is accepted exactly when its
    clarity is strictly above 0.8 and its frequency strictly between 50
    and 2000 Hz, and rejected exactly when the clarity is at most 0.8 or
    the frequency at most 50 or at least 2000.  A rejected frame takes
    the no-pitch branch: the history is emptied, the note is cleared and
    the cents are 0, with the strings and the hold untouched; an
    accepted frame hands the window's average to the tracker. *)
Theorem estimate_accepted_iff_strictly_inside
    (pitch clarity : R) (t : Z) (st : TunerState) :
  (accepted pitch clarity = true <->
     (8 / 10 < clarity /\ 50 < pitch < 2000)) /\
  (accepted pitch clarity = false <->
     (clarity <= 8 / 10 \/ pitch <= 50 \/ 2000 <= pitch)) /\
  (accepted pitch clarity = false ->
     let st' := detectPitch pitch clarity t st in
     currentNote st' = EmptyString /\ cents st' = 0%Z /\
     pitchHistory st' = [] /\
     guitarStrings st' = guitarStrings st /\
     lastNoteRef st' = lastNoteRef st /\
     noteHoldTimeRef st' = noteHoldTimeRef st) /\
  (accepted pitch clarity = true ->
     detectPitch pitch clarity t st =
     updateTuningInfo (average (pushPitch (pitchHistory st) pitch)) t
       (setHistory st (pushPitch (pitchHistory st) pitch))).
Proof.
  split; [apply accepted_true|].
  split; [apply accepted_false|].
  split.
  - intros H. rewrite (detectPitch_rejected _ _ _ _ H).
    cbn. repeat split; reflexivity.
  - apply detectPitch_accepted.
Qed.

Lemma estimate_accepted_iff_strictly_inside_witness :
  currentNote (detectPitch 50 (9 / 10) 0 initialTuner) = EmptyString.
Proof.
  apply (estimate_accepted_iff_strictly_inside 50 (9 / 10) 0%Z initialTuner).
  apply accepted_false. right. left. lra.
Defined.

(** C7 as stated fails at the boundary: a frame of exactly 50 Hz with
    clarity 0.9 is rejected although it lies in the closed range. *)
Lemma closed_range_counterexample : ~ rejectsOutsideClosedRange.
Proof.
  intros H. destruct (H 50 (9 / 10)) as [H1 _].
  assert (Hrej : accepted 50 (9 / 10) = false).
  { apply accepted_false. right. left. lra. }
  destruct (H1 Hrej) as [A|[A|A]]; lra.
Qed.

Lemma fold_left_Rplus_acc l : forall a,
  fold_left Rplus l a = a + fold_right Rplus 0 l.
Proof.
  induction l as [|x l IH]; intros a; simpl.
  - ring.
  - rewrite IH. ring.
Qed.

Lemma average_sum h :
  h <> [] -> average h * INR (List.length h) = fold_right Rplus 0 h.
Proof.
  intros Hh. unfold average. rewrite fold_left_Rplus_acc.
  assert (INR (List.length h) <> 0).
  { apply not_0_INR. destruct h; [congruence|simpl; lia]. }
  field. assumption.
Qed.

Lemma pushPitch_window h p :
  (List.length h <= 5)%nat ->
  pushPitch h p = lastN 5 (h ++ [p]) /\
  (List.length (pushPitch h p) <= 5)%nat.
Proof.
  intros Hh. unfold pushPitch, lastN, maxHistoryLength.
  assert (Hl : List.length (h ++ [p]) = S (List.length h))
    by (rewrite length_app; simpl; lia).
  destruct (5 <? List.length (h ++ [p]))%nat eqn:E.
  - apply Nat.ltb_lt in E.
    replace (List.length (h ++ [p]) - 5)%nat with 1%nat by lia.
    split; [destruct (h ++ [p]); reflexivity|].
    destruct (h ++ [p]); simpl in *; lia.
  - apply Nat.ltb_ge in E.
    replace (List.length (h ++ [p]) - 5)%nat with 0%nat by lia.
    split; [reflexivity|lia].
Qed.

Lemma smooth_length p c h :
  (List.length h <= 5)%nat -> (List.length (fst (smooth p c h)) <= 5)%nat.
Proof.
  intros Hh. destruct (accepted p c) eqn:E.
  - rewrite (smooth_accepted _ _ _ E). apply pushPitch_window, Hh.
  - rewrite (smooth_rejected _ _ _ E). simpl. lia.
Qed.

Lemma smoothHistory_length es : forall h,
  (List.length h <= 5)%nat -> (List.length (smoothHistory es h) <= 5)%nat.
Proof.
  induction es as [|[p c] es IH]; intros h Hh; simpl; [exact Hh|].
  apply IH, smooth_length, Hh.
Qed.

Lemma smoothOutputs_gap pre : forall p c post h,
  accepted p c = false ->
  smoothOutputs (pre ++ (p, c) :: post) h =
  smoothOutputs pre h ++ None :: smoothOutputs post [].
Proof.
  induction pre as [|[q d] pre IH]; intros p c post h H; simpl.
  - rewrite (smooth_rejected _ _ _ H). reflexivity.
  - destruct (smooth q d h) as [h' out]. simpl. f_equal. apply IH, H.
Qed.

(** ** Hold and lock *)


Lemma markOne_name n str : name (markOne n str) = name str.
Proof. unfold markOne. destruct (String.eqb (name str) n); reflexivity. Qed.

Lemma markOne_tuned n str :
  tuned (markOne n str) = (String.eqb (name str) n || tuned str)%bool.
Proof. unfold markOne. destruct (String.eqb (name str) n); reflexivity. Qed.

Lemma markTuned_map n g : markTuned n g = map (markOne n) g.
Proof. reflexivity. Qed.

Lemma markTuned_names n g : map name (markTuned n g) = map name g.
Proof.
  rewrite markTuned_map, map_map. apply map_ext. apply markOne_name.
Qed.

Lemma markTuned_nth n g i :
  nth_error (markTuned n g) i = option_map (markOne n) (nth_error g i).
Proof. rewrite markTuned_map. apply nth_error_map. Qed.

Lemma markTuned_marks_all n g s :
  In s (markTuned n g) -> name s = n -> tuned s = true.
Proof.
  rewrite markTuned_map, in_map_iff. intros (x & <- & _) Hn.
  rewrite markOne_name in Hn. rewrite markOne_tuned.
  apply String.eqb_eq in Hn. rewrite Hn. reflexivity.
Qed.

(** What [holdStep] does to the strings, the hold and the last note. *)
Lemma holdStep_strings s c t st :
  guitarStrings (holdStep s c t st) =
  if (String.eqb (lastNoteRef st) (name s)
      && ((Z.abs c <=? 5) && (t - noteHoldTimeRef st >=? 2000))%Z)%bool
  then markTuned (name s) (guitarStrings st)
  else guitarStrings st.
Proof.
  unfold holdStep.
  destruct (String.eqb (lastNoteRef st) (name s)); simpl; [|reflexivity].
  destruct ((Z.abs c <=? 5) && (t - noteHoldTimeRef st >=? 2000))%Z;
    reflexivity.
Qed.

Lemma holdStep_hold s c t st :
  noteHoldTimeRef (holdStep s c t st) =
  (if String.eqb (lastNoteRef st) (name s) then noteHoldTimeRef st else t)
  /\ lastNoteRef (holdStep s c t st) = name s.
Proof.
  unfold holdStep.
  destruct (String.eqb (lastNoteRef st) (name s)) eqn:E; simpl.
  - apply String.eqb_eq in E.
    destruct ((Z.abs c <=? 5) && (t - noteHoldTimeRef st >=? 2000))%Z;
      simpl; auto.
  - auto.
Qed.

Lemma update_strings f t st :
  guitarStrings (updateTuningInfo f t st) =
  match reading f with
  | Some (s, c) =>
      if (String.eqb (lastNoteRef st) (name s)
          && ((Z.abs c <=? 5) && (t - noteHoldTimeRef st >=? 2000))%Z)%bool
      then markTuned (name s) (guitarStrings st)
      else guitarStrings st
  | None => guitarStrings st
  end.
Proof.
  rewrite update_reading. destruct (reading f) as [[s c]|]; [|reflexivity].
  cbn [publish guitarStrings]. apply holdStep_strings.
Qed.

Lemma update_hold f t st :
  noteHoldTimeRef (updateTuningInfo f t st) =
  match reading f with
  | Some (s, _) =>
      if String.eqb (lastNoteRef st) (name s)
      then noteHoldTimeRef st else t
  | None => noteHoldTimeRef st
  end.
Proof.
  rewrite update_reading. destruct (reading f) as [[s c]|]; [|reflexivity].
  cbn [publish noteHoldTimeRef]. apply holdStep_hold.
Qed.

Lemma update_lastNote f t st :
  lastNoteRef (updateTuningInfo f t st) =
  match reading f with
  | Some (s, _) => name s
  | None => lastNoteRef st
  end.
Proof.
  rewrite update_reading. destruct (reading f) as [[s c]|]; [|reflexivity].
  cbn [publish lastNoteRef]. apply holdStep_hold.
Qed.

Lemma tunedAt_strings i st st' :
  guitarStrings st' = guitarStrings st -> tunedAt i st' = tunedAt i st.
Proof. unfold tunedAt. intros ->. reflexivity. Qed.

Lemma tunedAt_marked i n st st' :
  guitarStrings st' = markTuned n (guitarStrings st) ->
  tunedAt i st' =
  match nth_error (guitarStrings st) i with
  | Some si => (String.eqb (name si) n || tuned si)%bool
  | None => false
  end.
Proof.
  unfold tunedAt. intros ->. rewrite markTuned_nth.
  destruct (nth_error (guitarStrings st) i); simpl; [|reflexivity].
  apply markOne_tuned.
Qed.

(** A call sets the flag of entry [i] exactly when the entry bears the
    name just matched, the name is the one matched before, the reading
    is within 5 cents and the hold started at least 2000 ms ago. *)
Lemma update_sets_flag f t st i :
  tunedAt i (updateTuningInfo f t st) = true <->
  (tunedAt i st = true \/
   exists s c si,
     reading f = Some (s, c) /\ (Z.abs c <= 5)%Z /\
     lastNoteRef st = name s /\ (2000 <= t - noteHoldTimeRef st)%Z /\
     nth_error (guitarStrings st) i = Some si /\ name si = name s).
Proof.
  pose proof (update_strings f t st) as Hg.
  destruct (reading f) as [[s c]|] eqn:Hr.
  2:{ rewrite (tunedAt_strings _ _ _ Hg). split; [auto|].
      intros [H|(s & c & si & H & _)]; [exact H|discriminate]. }
  destruct (String.eqb (lastNoteRef st) (name s)
            && ((Z.abs c <=? 5) && (t - noteHoldTimeRef st >=? 2000))%Z)%bool
    eqn:E.
  - rewrite (tunedAt_marked _ _ _ _ Hg).
    apply andb_true_iff in E. destruct E as [E1 E2].
    apply andb_true_iff in E2. destruct E2 as [E2 E3].
    apply String.eqb_eq in E1. apply Z.leb_le in E2.
    apply Z.geb_le in E3.
    unfold tunedAt.
    destruct (nth_error (guitarStrings st) i) as [si|] eqn:Hn.
    + rewrite orb_true_iff, String.eqb_eq. split.
      * intros [H|H]; [right|left; exact H].
        exists s, c, si. repeat split; assumption.
      * intros [H|(s' & c' & si' & H1 & _ & _ & _ & H5 & H6)];
          [right; exact H|left].
        injection H1 as <- <-. injection H5 as <-. exact H6.
    + split; [discriminate|].
      intros [H|(s' & c' & si' & _ & _ & _ & _ & H5 & _)]; discriminate.
  - rewrite (tunedAt_strings _ _ _ Hg). split; [auto|].
    intros [H|(s' & c' & si' & H1 & H2 & H3 & H4 & _)]; [exact H|exfalso].
    injection H1 as <- <-.
    apply String.eqb_eq in H3. apply Z.leb_le in H2.
    apply Z.geb_le in H4. rewrite H3, H2, H4 in E. discriminate.
Qed.

Lemma runUpdates_cons u us st :
  runUpdates (u :: us) st =
  runUpdates us (updateTuningInfo (fst u) (snd u) st).
Proof. reflexivity. Qed.

Lemma update_keeps_flag f t st i :
  tunedAt i st = true -> tunedAt i (updateTuningInfo f t st) = true.
Proof. intros H. apply update_sets_flag. left. exact H. Qed.

Lemma runUpdates_keeps_flag us : forall st i,
  tunedAt i st = true -> tunedAt i (runUpdates us st) = true.
Proof.
  induction us as [|u us IH]; intros st i H; [exact H|].
  rewrite runUpdates_cons. apply IH, update_keeps_flag, H.
Qed.

Lemma detectPitch_keeps_flag p c t st i :
  tunedAt i st = true -> tunedAt i (detectPitch p c t st) = true.
Proof.
  intros H. destruct (accepted p c) eqn:E.
  - rewrite (detectPitch_accepted _ _ _ _ E). apply update_keeps_flag.
    exact H.
  - rewrite (detectPitch_rejected _ _ _ _ E). exact H.
Qed.

Lemma runFrames_keeps_flag fs : forall st i,
  tunedAt i st = true -> tunedAt i (runFrames fs st) = true.
Proof.
  induction fs as [|fr fs IH]; intros st i H; [exact H|].
  apply IH, detectPitch_keeps_flag, H.
Qed.

(** ** Runs of in-tune readings on a fresh tracker *)

Lemma names_nonempty s : In s guitarStrings0 -> name s <> EmptyString.
Proof.
  unfold guitarStrings0; simpl.
  intros [<-|[<-|[<-|[<-|[<-|[<-|[]]]]]]]; discriminate.
Qed.

Lemma update_names f t st :
  map name (guitarStrings (updateTuningInfo f t st)) =
  map name (guitarStrings st).
Proof.
  rewrite update_strings. destruct (reading f) as [[s c]|]; [|reflexivity].
  destruct (_ && _)%bool; [apply markTuned_names|reflexivity].
Qed.

(** The first in-tune reading of [s] on a fresh tracker starts the
    hold and locks nothing. *)
Lemma first_reading s u0 :
  In s guitarStrings0 -> inTune s u0 ->
  let st := updateTuningInfo (fst u0) (snd u0) initialTuner in
  lastNoteRef st = name s /\ noteHoldTimeRef st = snd u0 /\
  guitarStrings st = guitarStrings0.
Proof.
  intros Hin (c & Hr & Hc) st. unfold st.
  rewrite update_lastNote, update_hold, update_strings, Hr.
  assert (E : String.eqb (lastNoteRef initialTuner) (name s) = false).
  { apply String.eqb_neq. simpl. intros H. symmetry in H.
    exact (names_nonempty s Hin H). }
  rewrite E. simpl. auto.
Qed.

(** Further in-tune readings of [s] keep the hold where it started. *)
Lemma held_run s t0 us : forall st,
  Forall (inTune s) us ->
  lastNoteRef st = name s -> noteHoldTimeRef st = t0 ->
  lastNoteRef (runUpdates us st) = name s /\
  noteHoldTimeRef (runUpdates us st) = t0.
Proof.
  induction us as [|u us IH]; intros st Hall Hl Hh; [auto|].
  inversion Hall as [|? ? (c & Hr & Hc) Hall']; subst.
  rewrite runUpdates_cons. apply IH; [exact Hall'| |].
  - rewrite update_lastNote, Hr. reflexivity.
  - rewrite update_hold, Hr, Hl, String.eqb_refl. reflexivity.
Qed.

Lemma held_run_short s t0 us : forall st,
  Forall (inTune s) us ->
  Forall (fun u => (snd u - t0 < 2000)%Z) us ->
  lastNoteRef st = name s -> noteHoldTimeRef st = t0 ->
  guitarStrings (runUpdates us st) = guitarStrings st.
Proof.
  induction us as [|u us IH]; intros st Hall Ht Hl Hh; [reflexivity|].
  inversion Hall as [|? ? (c & Hr & Hc) Hall']; subst.
  inversion Ht as [|? ? Hu Ht']; subst.
  rewrite runUpdates_cons.
  assert (Hg : guitarStrings (updateTuningInfo (fst u) (snd u) st)
               = guitarStrings st).
  { rewrite update_strings, Hr.
    replace (snd u - noteHoldTimeRef st >=? 2000)%Z with false.
    - rewrite !andb_false_r. reflexivity.
    - symmetry. rewrite Z.geb_leb. apply Z.leb_gt. lia. }
  rewrite <- Hg. apply IH; [exact Hall'|exact Ht'| |].
  - rewrite update_lastNote, Hr. reflexivity.
  - rewrite update_hold, Hr, Hl, String.eqb_refl. reflexivity.
Qed.

Lemma runUpdates_app us vs st :
  runUpdates (us ++ vs) st = runUpdates vs (runUpdates us st).
Proof. apply fold_left_app. Qed.

Lemma runUpdates_names us : forall st,
  map name (guitarStrings (runUpdates us st)) = map name (guitarStrings st).
Proof.
  induction us as [|u us IH]; intros st; [reflexivity|].
  rewrite runUpdates_cons.
  etransitivity; [apply IH|apply update_names].
Qed.

Lemma fresh_short_hold s u0 rest i :
  In s guitarStrings0 -> Forall (inTune s) (u0 :: rest) ->
  Forall (fun u => (snd u - snd u0 < 2000)%Z) rest ->
  tunedAt i (runUpdates (u0 :: rest) initialTuner) = false.
Proof.
  intros Hin Hall Ht. inversion Hall as [|? ? H0 Hrest]; subst.
  destruct (first_reading s u0 Hin H0) as (Hl & Hh & Hg).
  rewrite runUpdates_cons. unfold tunedAt.
  rewrite (held_run_short s (snd u0) rest _ Hrest Ht Hl Hh), Hg.
  unfold guitarStrings0.
  do 6 (destruct i as [|i]; [reflexivity|]). destruct i; reflexivity.
Qed.

Lemma fresh_long_hold i s u0 mid u :
  nth_error guitarStrings0 i = Some s ->
  Forall (inTune s) (u0 :: mid ++ [u]) ->
  (2000 <= snd u - snd u0)%Z ->
  tunedAt i (runUpdates (u0 :: mid ++ [u]) initialTuner) = true.
Proof.
  intros Hi Hall Ht.
  assert (Hin : In s guitarStrings0) by (eapply nth_error_In; exact Hi).
  inversion Hall as [|? ? H0 Hrest]; subst.
  apply Forall_app in Hrest. destruct Hrest as [Hmid Hu].
  inversion Hu as [|? ? (c & Hr & Hc) _]; subst.
  destruct (first_reading s u0 Hin H0) as (Hl & Hh & Hg).
  rewrite runUpdates_cons, runUpdates_app.
  set (st1 := updateTuningInfo (fst u0) (snd u0) initialTuner) in *.
  destruct (held_run s (snd u0) mid st1 Hmid Hl Hh) as (Hl2 & Hh2).
  set (st2 := runUpdates mid st1) in *.
  rewrite runUpdates_cons. cbn [runUpdates fold_left].
  apply update_sets_flag. right.
  assert (Hn : map name (guitarStrings st2) = map name guitarStrings0).
  { unfold st2. rewrite runUpdates_names. unfold st1.
    rewrite update_names. reflexivity. }
  assert (Hsi : exists si, nth_error (guitarStrings st2) i = Some si
                           /\ name si = name s).
  { pose proof (map_nth_error name i guitarStrings0 Hi) as H1.
    rewrite <- Hn in H1. rewrite nth_error_map in H1.
    destruct (nth_error (guitarStrings st2) i) as [si|]; [|discriminate].
    exists si. split; [reflexivity|]. simpl in H1. congruence. }
  destruct Hsi as (si & Hsi & Hname).
  exists s, c, si. repeat split; try assumption. lia.
Qed.

(** C2, as the code has it. A call of the tracker sets the tuned flag
    of an entry exactly when the entry bears the matched name, that name
    is the one matched by the previous published reading, the present
    reading is within 5 cents, and at least 2000 ms have passed since
    the hold started; the hold starts when a published reading changes
    the matched name and at no other time.  On a fresh tracker a run of
    readings within 5 cents of one string locks nothing while it lasts
    less than 2000 ms and locks the string once it reaches 2000 ms.  A
    flag that is set stays set. *)
Theorem lock_after_hold_of_2000_ms :
  (forall f t st i,
     tunedAt i (updateTuningInfo f t st) = true <->
     (tunedAt i st = true \/
      exists s c si,
        reading f = Some (s, c) /\ (Z.abs c <= 5)%Z /\
        lastNoteRef st = name s /\ (2000 <= t - noteHoldTimeRef st)%Z /\
        nth_error (guitarStrings st) i = Some si /\ name si = name s)) /\
  (forall f t st,
     noteHoldTimeRef (updateTuningInfo f t st) =
     match reading f with
     | Some (s, _) =>
         if String.eqb (lastNoteRef st) (name s)
         then noteHoldTimeRef st else t
     | None => noteHoldTimeRef st
     end) /\
  (forall s u0 rest i,
     In s guitarStrings0 -> Forall (inTune s) (u0 :: rest) ->
     Forall (fun u => (snd u - snd u0 < 2000)%Z) rest ->
     tunedAt i (runUpdates (u0 :: rest) initialTuner) = false) /\
  (forall i s u0 mid u,
     nth_error guitarStrings0 i = Some s ->
     Forall (inTune s) (u0 :: mid ++ [u]) ->
     (2000 <= snd u - snd u0)%Z ->
     tunedAt i (runUpdates (u0 :: mid ++ [u]) initialTuner) = true) /\
  (forall us st i,
     tunedAt i st = true -> tunedAt i (runUpdates us st) = true) /\
  (forall fs st i,
     tunedAt i st = true -> tunedAt i (runFrames fs st) = true).
Proof.
  split; [exact update_sets_flag|].
  split; [exact update_hold|].
  split; [exact fresh_short_hold|].
  split; [exact fresh_long_hold|].
  split; [exact runUpdates_keeps_flag|exact runFrames_keeps_flag].
Qed.

Lemma lock_after_hold_of_2000_ms_witness :
  tunedAt 0 (runUpdates [(8241 / 100, 0%Z); (8241 / 100, 2000%Z)]
                        initialTuner) = true.
Proof.
  destruct lock_after_hold_of_2000_ms as (_ & _ & _ & Hlong & _).
  apply (Hlong 0%nat (mkString "E" (8241 / 100) false None)
               (8241 / 100, 0%Z) [] (8241 / 100, 2000%Z)).
  - reflexivity.
  - repeat constructor; exists 0%Z;
      (split; [apply (reading_exact (mkString "E" (8241 / 100) false None));
               left; reflexivity | simpl; lia]).
  - simpl. lia.
Defined.


Lemma reading_sharpE : reading sharpE = Some (lowE, 40%Z).
Proof.
  unfold sharpE. rewrite (reading_near lowE 40).
  - rewrite Math_round_IZR. reflexivity.
  - left. reflexivity.
  - unfold Rabs. destruct (Rcase_abs 40); lra.
Qed.

Lemma sharp_then_exact_locks :
  tunedAt 0 (runUpdates [(sharpE, 0%Z); (8241 / 100, 2000%Z)] initialTuner)
  = true.
Proof.
  rewrite !runUpdates_cons. cbn [runUpdates fold_left fst snd].
  apply update_sets_flag. right.
  exists lowE, 0%Z, lowE.
  split; [apply (reading_exact lowE); left; reflexivity|].
  split; [simpl; lia|].
  rewrite update_lastNote, update_hold, update_strings, reading_sharpE.
  cbn. repeat split; try reflexivity; try lia.
Qed.

(** C2 as stated fails: a reading 40 cents sharp at instant 0 starts the
    hold, and a single reading in tune at instant 2000 locks the string,
    which has then been within 5 cents for no time at all. *)
Lemma lock_without_sustained_hold : ~ lockNeedsSustainedHold.
Proof.
  intros H.
  destruct (H [(sharpE, 0%Z); (8241 / 100, 2000%Z)] 0%nat lowE
              eq_refl sharp_then_exact_locks)
    as (pre & seg & post & Heq & Hall & Hspan).
  destruct seg as [|a [|b seg]].
  - simpl in Hspan. lia.
  - simpl in Hspan. lia.
  - destruct pre as [|p pre].
    + simpl in Heq. injection Heq as <- _.
      inversion Hall as [|? ? (c & Hr & Hc) _]; subst.
      simpl in Hr. rewrite reading_sharpE in Hr. injection Hr as <-.
      simpl in Hc. lia.
    + simpl in Heq. injection Heq as _ Heq.
      destruct pre as [|q pre]; simpl in Heq.
      * discriminate.
      * injection Heq as _ Heq. destruct pre; discriminate.
Qed.

(** The same in the audio loop: one accepted frame, a rejected frame,
    and one accepted frame 2000 ms after the first lock the string. *)
Lemma average_single x : average [x] = x.
Proof. unfold average. simpl. field. Qed.

Lemma two_frames_across_a_gap_lock :
  tunedAt 0 (runFrames [mkFrame (8241 / 100) (9 / 10) 0;
                        mkFrame 0 0 1000;
                        mkFrame (8241 / 100) (9 / 10) 2000] initialTuner)
  = true.
Proof.
  assert (Ha : accepted (8241 / 100) (9 / 10) = true)
    by (apply accepted_true; lra).
  assert (Hr : accepted 0 0 = false)
    by (apply accepted_false; left; lra).
  assert (He : reading (8241 / 100) = Some (lowE, 0%Z))
    by (apply (reading_exact lowE); left; reflexivity).
  unfold runFrames. cbn [fold_left fPitch fClarity fNow].
  rewrite (detectPitch_accepted _ _ 0%Z initialTuner Ha).
  cbn [initialTuner pitchHistory pushPitch app List.length maxHistoryLength
       Nat.ltb Nat.leb].
  rewrite average_single.
  set (st1 := updateTuningInfo _ _ _).
  rewrite (detectPitch_rejected _ _ _ st1 Hr).
  set (st2 := publish _ _ _).
  rewrite (detectPitch_accepted _ _ _ st2 Ha).
  cbn [st2 publish setHistory pitchHistory pushPitch app List.length
       maxHistoryLength Nat.ltb Nat.leb].
  rewrite average_single.
  apply update_sets_flag. right.
  exists lowE, 0%Z, lowE.
  split; [exact He|]. split; [simpl; lia|].
  unfold st2, st1.
  cbn [lastNoteRef noteHoldTimeRef guitarStrings setHistory publish].
  rewrite update_lastNote, update_hold, update_strings, He.
  cbn. repeat split; try reflexivity; try lia.
Qed.

(** ** The two strings named E *)



Lemma markTuned_sameFlag n g : sameFlag g -> sameFlag (markTuned n g).
Proof.
  intros Hg a b Ha Hb Hab.
  rewrite markTuned_map, in_map_iff in Ha, Hb.
  destruct Ha as (a0 & <- & Ha). destruct Hb as (b0 & <- & Hb).
  rewrite !markOne_name in Hab. rewrite !markOne_tuned.
  rewrite (Hg a0 b0 Ha Hb Hab), Hab. reflexivity.
Qed.

Lemma update_sameFlag f t st :
  sameFlag (guitarStrings st) ->
  sameFlag (guitarStrings (updateTuningInfo f t st)).
Proof.
  intros H. rewrite update_strings.
  destruct (reading f) as [[s c]|]; [|exact H].
  destruct (_ && _)%bool; [apply markTuned_sameFlag|]; exact H.
Qed.

Lemma detectPitch_strings_inv (P : list GuitarString -> Prop) p c t st :
  (forall f t' st', P (guitarStrings st') ->
                    P (guitarStrings (updateTuningInfo f t' st'))) ->
  P (guitarStrings st) -> P (guitarStrings (detectPitch p c t st)).
Proof.
  intros Hstep H. destruct (accepted p c) eqn:E.
  - rewrite (detectPitch_accepted _ _ _ _ E). apply Hstep. exact H.
  - rewrite (detectPitch_rejected _ _ _ _ E). exact H.
Qed.

Lemma runFrames_strings_inv (P : list GuitarString -> Prop) fs :
  (forall f t' st', P (guitarStrings st') ->
                    P (guitarStrings (updateTuningInfo f t' st'))) ->
  forall st, P (guitarStrings st) -> P (guitarStrings (runFrames fs st)).
Proof.
  intros Hstep. induction fs as [|fr fs IH]; intros st H; [exact H|].
  apply IH. apply detectPitch_strings_inv; assumption.
Qed.

Lemma runUpdates_strings_inv (P : list GuitarString -> Prop) us :
  (forall f t' st', P (guitarStrings st') ->
                    P (guitarStrings (updateTuningInfo f t' st'))) ->
  forall st, P (guitarStrings st) -> P (guitarStrings (runUpdates us st)).
Proof.
  intros Hstep. induction us as [|u us IH]; intros st H; [exact H|].
  rewrite runUpdates_cons. apply IH, Hstep, H.
Qed.


Lemma stringsInv_initial : stringsInv guitarStrings0.
Proof.
  split; [reflexivity|].
  intros a b Ha Hb _. unfold guitarStrings0 in Ha, Hb. simpl in Ha, Hb.
  destruct Ha as [<-|[<-|[<-|[<-|[<-|[<-|[]]]]]]];
    destruct Hb as [<-|[<-|[<-|[<-|[<-|[<-|[]]]]]]]; reflexivity.
Qed.

Lemma stringsInv_update f t st :
  stringsInv (guitarStrings st) ->
  stringsInv (guitarStrings (updateTuningInfo f t st)).
Proof.
  intros [Hn Hf]. split.
  - rewrite update_names. exact Hn.
  - apply update_sameFlag, Hf.
Qed.

Lemma stringsInv_E_flags st :
  stringsInv (guitarStrings st) -> tunedAt 0 st = tunedAt 5 st.
Proof.
  intros [Hn Hf]. unfold tunedAt.
  destruct (guitarStrings st) as [|a [|b [|c [|d [|e [|f [|x g]]]]]]];
    try discriminate.
  simpl in Hn |- *.
  apply Hf; [left; reflexivity|do 5 right; left; reflexivity|].
  congruence.
Qed.

Lemma same_name_keeps_hold f t st s c :
  reading f = Some (s, c) -> lastNoteRef st = name s ->
  noteHoldTimeRef (updateTuningInfo f t st) = noteHoldTimeRef st /\
  lastNoteRef (updateTuningInfo f t st) = lastNoteRef st.
Proof.
  intros Hr Hl. rewrite update_hold, update_lastNote, Hr, Hl.
  rewrite String.eqb_refl. auto.
Qed.

Lemma reading_lowE : reading (freq lowE) = Some (lowE, 0%Z).
Proof. apply reading_exact. left. reflexivity. Qed.

Lemma reading_highE : reading (freq highE) = Some (highE, 0%Z).
Proof. apply reading_exact. do 5 right. left. reflexivity. Qed.

Lemma switch_between_E_strings f g a b ca cb t t' st :
  reading f = Some (a, ca) -> reading g = Some (b, cb) ->
  name a = name b ->
  let st1 := updateTuningInfo f t st in
  let st2 := updateTuningInfo g t' st1 in
  lastNoteRef st2 = lastNoteRef st1 /\
  noteHoldTimeRef st2 = noteHoldTimeRef st1.
Proof.
  intros Ha Hb Hab st1 st2.
  assert (Hl : lastNoteRef st1 = name b).
  { unfold st1. rewrite update_lastNote, Ha. exact Hab. }
  destruct (same_name_keeps_hold g t' st1 b cb Hb Hl). auto.
Qed.

Lemma low_then_high_locks_both t t' :
  (2000 <= t' - t)%Z ->
  let st := runUpdates [(freq lowE, t); (freq highE, t')] initialTuner in
  tunedAt 0 st = true /\ tunedAt 5 st = true.
Proof.
  intros Ht st. unfold st. rewrite !runUpdates_cons.
  cbn [runUpdates fold_left fst snd].
  assert (H0 : inTune lowE (freq lowE, t)).
  { exists 0%Z. split; [exact reading_lowE|simpl; lia]. }
  destruct (first_reading lowE (freq lowE, t)
              (or_introl eq_refl) H0) as (Hl & Hh & Hg).
  cbn [fst snd] in Hl, Hh, Hg.
  split; apply update_sets_flag; right.
  - exists highE, 0%Z, lowE. rewrite Hl, Hh, Hg.
    repeat split; try reflexivity; try (simpl; lia).
    exact reading_highE.
  - exists highE, 0%Z, highE. rewrite Hl, Hh, Hg.
    repeat split; try reflexivity; try (simpl; lia).
    exact reading_highE.
Qed.

(** C9. Entries 0 and 5 of the string table are both named E (82.41
    and 329.63 Hz).  Marking by name marks every entry of that name, so
    after any sequence of frames, and after any sequence of calls of the
    tracker, the two carry the same flag.  The previous match is
    remembered by name alone: a reading whose matched name equals the
    remembered one leaves the hold start as it was, in particular when
    low E is followed by high E or high E by low E; a low E followed at
    least 2000 ms later by a high E locks both entries. *)
Theorem strings_named_E_share_flag_and_hold :
  (nth_error guitarStrings0 0 = Some lowE /\
   nth_error guitarStrings0 5 = Some highE /\
   name lowE = name highE /\ freq lowE <> freq highE) /\
  (forall n g s, In s (markTuned n g) -> name s = n -> tuned s = true) /\
  (forall fs, tunedAt 0 (runFrames fs initialTuner)
              = tunedAt 5 (runFrames fs initialTuner)) /\
  (forall us, tunedAt 0 (runUpdates us initialTuner)
              = tunedAt 5 (runUpdates us initialTuner)) /\
  (forall f t st s c,
     reading f = Some (s, c) -> lastNoteRef st = name s ->
     noteHoldTimeRef (updateTuningInfo f t st) = noteHoldTimeRef st /\
     lastNoteRef (updateTuningInfo f t st) = lastNoteRef st) /\
  (forall t t' st,
     let st1 := updateTuningInfo (freq lowE) t st in
     let st2 := updateTuningInfo (freq highE) t' st1 in
     lastNoteRef st2 = lastNoteRef st1 /\
     noteHoldTimeRef st2 = noteHoldTimeRef st1) /\
  (forall t t' st,
     let st1 := updateTuningInfo (freq highE) t st in
     let st2 := updateTuningInfo (freq lowE) t' st1 in
     lastNoteRef st2 = lastNoteRef st1 /\
     noteHoldTimeRef st2 = noteHoldTimeRef st1) /\
  (forall t t',
     (2000 <= t' - t)%Z ->
     let st := runUpdates [(freq lowE, t); (freq highE, t')] initialTuner in
     tunedAt 0 st = true /\ tunedAt 5 st = true).
Proof.
  split.
  { repeat split; try reflexivity. simpl. lra. }
  split; [exact markTuned_marks_all|].
  split.
  { intros fs. apply stringsInv_E_flags.
    apply (runFrames_strings_inv stringsInv fs stringsInv_update).
    exact stringsInv_initial. }
  split.
  { intros us. apply stringsInv_E_flags.
    apply (runUpdates_strings_inv stringsInv us stringsInv_update).
    exact stringsInv_initial. }
  split; [exact same_name_keeps_hold|].
  split.
  { intros t t' st.
    exact (switch_between_E_strings _ _ _ _ _ _ t t' st
             reading_lowE reading_highE eq_refl). }
  split.
  { intros t t' st.
    exact (switch_between_E_strings _ _ _ _ _ _ t t' st
             reading_highE reading_lowE eq_refl). }
  exact low_then_high_locks_both.
Qed.

Lemma strings_named_E_share_flag_and_hold_witness :
  let st := runUpdates [(freq lowE, 0%Z); (freq highE, 2500%Z)]
                       initialTuner in
  tunedAt 0 st = true /\ tunedAt 5 st = true.
Proof.
  destruct strings_named_E_share_flag_and_hold
    as (_ & _ & _ & _ & _ & _ & _ & Hboth).
  apply (Hboth 0%Z 2500%Z). lia.
Defined.

End TunerFacts.


(* ================================================================== *)
(** * Properties of the metronome engine *)
(* ================================================================== *)

Section MetronomeFacts.
Import MetronomeSound.
Local Open Scope Q_scope.

Ltac qlra := Lqa.lra.



Lemma interval_nonneg q : 40 <= q -> 0 <= 60000 / q.
Proof.
  intros H. apply Qle_shift_div_l; qlra.
Qed.

Lemma clamp_range q :
  40 <= Math_min (Math_max q 40) 300 /\ Math_min (Math_max q 40) 300 <= 300.
Proof.
  unfold Math_min, Math_max.
  destruct (Qlt_le_dec q 40); destruct (Qlt_le_dec 300 _); qlra.
Qed.

Lemma clamp_id q : 40 <= q -> q <= 300 -> Math_min (Math_max q 40) 300 = q.
Proof.
  intros H1 H2. unfold Math_min, Math_max.
  destruct (Qlt_le_dec q 40); [qlra|].
  destruct (Qlt_le_dec 300 q); [qlra|reflexivity].
Qed.

Lemma wellFormed_fresh : wellFormed fresh.
Proof.
  unfold wellFormed, fresh; simpl.
  repeat split; try lia; try qlra; try constructor; discriminate.
Qed.

Lemma truthy_pos n : (1 <= n)%Z -> truthy (Some n) = true.
Proof.
  intros H. unfold truthy. destruct (Z.eqb_spec n 0); [lia|reflexivity].
Qed.

Lemma tickOk_next n :
  (0 <= n)%Z ->
  tickOk (mkTick 0 (n + 1) (Z.rem (n + 1) 4) (Z.rem (n + 1) 4 =? 0)%Z).
Proof. intros H. unfold tickOk; simpl. repeat split; lia. Qed.

Ltac wf_tick :=
  apply Forall_app; split; [assumption|];
  constructor; [|constructor];
  unfold tickOk; cbn [tickCount tickBeat tickDownbeat];
  repeat split; lia.

Lemma wellFormed_start w : wellFormed w -> wellFormed (start w).
Proof.
  intros Hw. unfold start. destruct (isPlaying w) eqn:Ep; [exact Hw|].
  destruct w as [pl to iv b bc cb nw nx tm tk].
  unfold wellFormed in *. cbn in Ep. subst pl.
  cbn in Hw. destruct Hw as (Hiv & Hnx & Hb & Hbc & Hcb & Htk & Htm & Hto).
  subst tm to iv. cbn.
  pose proof (interval_nonneg b (proj1 Hb)) as Hi.
  repeat split; try lia; try tauto; try reflexivity.
  - wf_tick.
  - eexists. repeat split; cbn; try reflexivity; try lia. qlra.
Qed.

Lemma wellFormed_stop w : wellFormed w -> wellFormed (stop w).
Proof.
  intros Hw.
  destruct w as [pl to iv b bc cb nw nx tm tk].
  unfold wellFormed in *. cbn in Hw.
  destruct Hw as (Hiv & Hnx & Hb & Hbc & Hcb & Htk & Hpl). subst iv.
  destruct pl.
  - destruct Hpl as (t & -> & -> & Hid & Hdue).
    unfold stop. cbn [setIsPlaying timeoutId].
    rewrite (truthy_pos (tid t)) by lia. cbn.
    rewrite Z.eqb_refl. cbn. repeat split; try assumption; tauto.
  - destruct Hpl as (-> & ->). cbn. repeat split; try assumption; tauto.
Qed.

Lemma wellFormed_setBPM q w : wellFormed w -> wellFormed (setBPM q w).
Proof.
  intros Hw.
  destruct w as [pl to iv b bc cb nw nx tm tk].
  unfold wellFormed in *. cbn in Hw.
  destruct Hw as (Hiv & Hnx & Hb & Hbc & Hcb & Htk & Hpl). subst iv.
  pose proof (clamp_range q) as Hc.
  pose proof (interval_nonneg _ (proj1 Hc)) as Hi.
  destruct pl.
  - destruct Hpl as (t & -> & -> & Hid & Hdue).
    unfold setBPM. cbn [setBpmField timeoutId isPlaying].
    rewrite (truthy_pos (tid t)) by lia. cbn.
    rewrite Z.eqb_refl. cbn.
    repeat split; try assumption; try lia; try tauto.
    eexists. repeat split; cbn; try reflexivity; try lia. qlra.
  - destruct Hpl as (-> & ->). cbn.
    repeat split; try assumption; tauto.
Qed.

Lemma wellFormed_fire w : wellFormed w -> wellFormed (fire w).
Proof.
  intros Hw.
  destruct w as [pl to iv b bc cb nw nx tm tk].
  unfold wellFormed in *. cbn in Hw.
  destruct Hw as (Hiv & Hnx & Hb & Hbc & Hcb & Htk & Hpl). subst iv.
  pose proof (interval_nonneg b (proj1 Hb)) as Hi.
  destruct pl.
  - destruct Hpl as (t & -> & -> & Hid & Hdue).
    unfold fire. cbn [timers earliest].
    cbn [filter]. rewrite Z.eqb_refl. cbn [negb].
    destruct t as [i d c]. cbn [MetronomeSound.cb MetronomeSound.due tid] in *.
    destruct c; cbn.
    + repeat split; try assumption; try lia; try tauto.
      * wf_tick.
      * eexists. repeat split; cbn; try reflexivity; try lia. qlra.
    + repeat split; try assumption; try lia; try tauto.
      * wf_tick.
      * eexists. repeat split; cbn; try reflexivity; try lia. qlra.
  - destruct Hpl as (-> & ->). cbn. repeat split; try assumption; tauto.
Qed.

Lemma wellFormed_wait dt w : wellFormed w -> wellFormed (wait dt w).
Proof.
  intros Hw.
  destruct w as [pl to iv b bc cb nw nx tm tk].
  unfold wellFormed in *. cbn in Hw.
  destruct Hw as (Hiv & Hnx & Hb & Hbc & Hcb & Htk & Hpl). subst iv.
  unfold wait. cbn [timers now].
  destruct (Qlt_le_dec dt 0) as [Hd|Hd].
  { cbn. repeat split; try assumption; tauto. }
  destruct pl.
  - destruct Hpl as (t & -> & -> & Hid & Hdue). cbn [earliest].
    destruct (Qlt_le_dec (due t) (nw + dt)) as [Hl|Hl]; cbn.
    + repeat split; try assumption; try tauto.
      exists t. repeat split; try assumption; lia.
    + repeat split; try assumption; try tauto.
      exists t. repeat split; try assumption; lia.
  - destruct Hpl as (-> & ->). cbn. repeat split; try assumption; tauto.
Qed.

Lemma wellFormed_step w a : wellFormed w -> wellFormed (step w a).
Proof.
  destruct a; cbn [step].
  - apply wellFormed_start.
  - apply wellFormed_stop.
  - apply wellFormed_setBPM.
  - apply wellFormed_fire.
  - apply wellFormed_wait.
Qed.

Lemma wellFormed_run acts : forall w, wellFormed w -> wellFormed (run acts w).
Proof.
  induction acts as [|a acts IH]; intros w Hw; [exact Hw|].
  apply IH, wellFormed_step, Hw.
Qed.

Lemma reachable_wellFormed acts : wellFormed (run acts fresh).
Proof. apply wellFormed_run, wellFormed_fresh. Qed.


(** ** Start *)

Lemma start_from_idle w :
  isPlaying w = false ->
  start w =
    scheduleNextBeat
      (playBeat (setCurrentBeat 0 (setBeatCount (-1) (setIsPlaying true w))))
  /\ isPlaying (start w) = true
  /\ beatCount (start w) = 0%Z
  /\ currentBeat (start w) = 0%Z
  /\ now (start w) = now w
  /\ bpm (start w) = bpm w
  /\ ticks (start w) = ticks w ++ [mkTick (now w) 0 0 true]
  /\ timers (start w) =
       timers w ++ [mkTimer (nextId w) (now w + 60000 / bpm w) ScheduledBeat].
Proof.
  intros H. unfold start. rewrite H.
  destruct w as [pl to iv b bc cb nw nx tm tk]. cbn.
  repeat split; reflexivity.
Qed.

Lemma ticks_wellFormed acts k :
  In k (ticks (run acts fresh)) ->
  (0 <= tickCount k)%Z /\
  tickBeat k = Z.rem (tickCount k) 4 /\
  tickBeat k = (tickCount k mod 4)%Z /\
  tickDownbeat k = (tickBeat k =? 0)%Z.
Proof.
  intros Hin.
  destruct (reachable_wellFormed acts) as (_ & _ & _ & _ & _ & Htk & _).
  rewrite Forall_forall in Htk. destruct (Htk k Hin) as (H0 & H1 & H2).
  repeat split; try assumption.
  rewrite H1. apply Z.rem_mod_nonneg; lia.
Qed.

(** ** Tempo changes and re-arming *)

Lemma playing_has_one_timer w :
  wellFormed w -> isPlaying w = true ->
  exists t, timers w = [t] /\ timeoutId w = Some (tid t) /\
            (1 <= tid t < nextId w)%Z /\ now w <= due t.
Proof.
  intros (_ & _ & _ & _ & _ & _ & H) Hp. rewrite Hp in H. exact H.
Qed.

Lemma setBPM_while_playing q w :
  wellFormed w -> isPlaying w = true ->
  let w' := setBPM q w in
  bpm w' = Math_min (Math_max q 40) 300 /\
  (40 <= bpm w' /\ bpm w' <= 300) /\
  timers w' = [mkTimer (nextId w) (now w + 60000 / bpm w') TempoBeat] /\
  timeoutId w' = Some (nextId w) /\
  (forall old, In old (timers w) -> tid old <> nextId w) /\
  isPlaying w' = true /\
  beatCount w' = beatCount w /\
  currentBeat w' = currentBeat w /\
  ticks w' = ticks w /\
  now w' = now w.
Proof.
  intros Hw Hp.
  destruct (playing_has_one_timer w Hw Hp) as (t & Ht & Hto & Hid & Hdue).
  destruct w as [pl to iv b bc cb nw nx tm tk].
  cbn in Hp, Ht, Hto, Hid, Hdue. subst pl tm to.
  unfold setBPM. cbn [setBpmField timeoutId isPlaying].
  rewrite (truthy_pos (tid t)) by lia. cbn.
  rewrite Z.eqb_refl. cbn.
  repeat split; try reflexivity; try apply clamp_range.
  intros old [<-|[]]. lia.
Qed.

Lemma fire_while_playing w :
  wellFormed w -> isPlaying w = true ->
  exists t,
    timers w = [t] /\
    let w' := fire w in
    now w' = due t /\
    ticks w' =
      ticks w ++ [mkTick (due t) (beatCount w + 1)
                         (Z.rem (beatCount w + 1) 4)
                         (Z.rem (beatCount w + 1) 4 =? 0)%Z] /\
    beatCount w' = (beatCount w + 1)%Z /\
    currentBeat w' = Z.rem (beatCount w + 1) 4 /\
    bpm w' = bpm w /\
    isPlaying w' = true /\
    timers w' = [mkTimer (nextId w) (due t + 60000 / bpm w) ScheduledBeat].
Proof.
  intros Hw Hp.
  destruct (playing_has_one_timer w Hw Hp) as (t & Ht & Hto & Hid & Hdue).
  exists t. split; [exact Ht|].
  destruct w as [pl to iv b bc cb nw nx tm tk].
  cbn in Hp, Ht, Hto, Hid, Hdue. subst pl tm to.
  unfold fire. cbn [timers earliest filter]. rewrite Z.eqb_refl.
  cbn [negb]. destruct t as [i d c]. destruct c; cbn;
    repeat split; reflexivity.
Qed.

(** ** Counting the ticks of a session *)

Lemma stop_ticks w : ticks (stop w) = ticks w.
Proof.
  destruct w as [pl to iv b bc cb nw nx tm tk].
  destruct to as [i|], iv as [j|]; unfold stop, truthy; cbn;
    repeat (match goal with
            | |- context [(?x =? 0)%Z] => destruct (x =? 0)%Z; cbn
            end);
    reflexivity.
Qed.

Lemma run_app_engine acts acts' w :
  run (acts ++ acts') w = run acts' (run acts w).
Proof. apply fold_left_app. Qed.

Lemma fires_count n : forall w,
  wellFormed w -> isPlaying w = true ->
  exists new,
    ticks (run (repeat Fire n) w) = ticks w ++ new /\
    map tickCount new =
      map (fun i => (beatCount w + 1 + Z.of_nat i)%Z) (seq 0 n).
Proof.
  induction n as [|n IH]; intros w Hw Hp.
  - exists []. cbn. rewrite app_nil_r. auto.
  - destruct (fire_while_playing w Hw Hp)
      as (t & _ & _ & Htk & Hbc & _ & _ & Hp' & _).
    destruct (IH (fire w) (wellFormed_fire w Hw) Hp') as (new & Hnew & Hc).
    eexists (_ :: new).
    change (run (repeat Fire (S n)) w) with (run (repeat Fire n) (fire w)).
    rewrite Hnew, Htk, <- app_assoc. split; [reflexivity|].
    cbn [map tickCount seq]. rewrite Hc, Hbc. f_equal; [lia|].
    rewrite <- seq_shift, map_map. apply map_ext. intros i. lia.
Qed.

Lemma session_counts acts n :
  let w := run acts fresh in
  isPlaying w = false ->
  exists new,
    ticks (run (Start :: repeat Fire n ++ [Stop]) w) = ticks w ++ new /\
    map tickCount new = map Z.of_nat (seq 0 (S n)) /\
    map tickBeat new = map (fun i => (Z.of_nat i mod 4)%Z) (seq 0 (S n)).
Proof.
  intros w Hp.
  pose proof (reachable_wellFormed acts) as Hw. fold w in Hw.
  destruct (start_from_idle w Hp) as (_ & Hp1 & Hbc & _ & _ & _ & Htk & _).
  destruct (fires_count n (start w) (wellFormed_start w Hw) Hp1)
    as (new & Hnew & Hc).
  exists (mkTick (now w) 0 0 true :: new).
  assert (Hall : ticks (run (Start :: repeat Fire n ++ [Stop]) w)
                 = ticks w ++ mkTick (now w) 0 0 true :: new).
  { change (run (Start :: repeat Fire n ++ [Stop]) w)
      with (run (repeat Fire n ++ [Stop]) (start w)).
    rewrite run_app_engine.
    change (run [Stop] (run (repeat Fire n) (start w)))
      with (stop (run (repeat Fire n) (start w))).
    rewrite stop_ticks, Hnew, Htk, <- app_assoc. reflexivity. }
  assert (Hcounts : map tickCount (mkTick (now w) 0 0 true :: new)
                    = map Z.of_nat (seq 0 (S n))).
  { cbn [map tickCount seq]. f_equal. rewrite Hc, Hbc.
    rewrite <- seq_shift, map_map. apply map_ext. intros i. lia. }
  split; [exact Hall|]. split; [exact Hcounts|].
  rewrite <- (map_map Z.of_nat (fun z => (z mod 4)%Z)), <- Hcounts.
  rewrite map_map. apply map_ext_in. intros k Hk.
  assert (Hin : In k (ticks (run (acts ++ Start :: repeat Fire n ++ [Stop])
                                 fresh))).
  { rewrite run_app_engine. fold w. rewrite Hall.
    apply in_or_app. right. exact Hk. }
  apply (ticks_wellFormed _ k Hin).
Qed.

(** C3. Starting an idle engine sets [beatCount] to -1 and plays a beat
    at once, so the first tick is beat 0, a downbeat, with
    [beatCount = 0], and the next tick is armed one interval
    [60000 / bpm] later.  With the tempo set to 120, a start, three
    deliveries of the timer and a stop give four ticks, at 0, 500, 1000
    and 1500 ms, with [beatCount] 0,1,2,3 and [currentBeat] 0,1,2,3; at
    any tempo, a start, [n] deliveries and a stop give [n + 1] ticks
    with [beatCount] 0 to [n] and [currentBeat] 0,1,2,3,0,...  At every
    tick of every run [currentBeat] is [beatCount % 4]. *)
Theorem start_fires_beat_zero :
  (forall w,
     isPlaying w = false ->
     start w =
       scheduleNextBeat
         (playBeat
            (setCurrentBeat 0 (setBeatCount (-1) (setIsPlaying true w))))
     /\ isPlaying (start w) = true
     /\ beatCount (start w) = 0%Z
     /\ currentBeat (start w) = 0%Z
     /\ now (start w) = now w
     /\ bpm (start w) = bpm w
     /\ ticks (start w) = ticks w ++ [mkTick (now w) 0 0 true]
     /\ timers (start w) =
          timers w
          ++ [mkTimer (nextId w) (now w + 60000 / bpm w) ScheduledBeat]) /\
  (let w := run [SetBPM 120; Start; Fire; Fire; Fire; Stop] fresh in
   map tickCount (ticks w) = [0; 1; 2; 3]%Z /\
   map tickBeat (ticks w) = [0; 1; 2; 3]%Z /\
   map tickDownbeat (ticks w) = [true; false; false; false] /\
   map (fun k => Qred (tickTime k)) (ticks w) = [0; 500; 1000; 1500] /\
   isPlaying w = false /\ timers w = []) /\
  (forall acts n,
     let w := run acts fresh in
     isPlaying w = false ->
     exists new,
       ticks (run (Start :: repeat Fire n ++ [Stop]) w) = ticks w ++ new /\
       map tickCount new = map Z.of_nat (seq 0 (S n)) /\
       map tickBeat new =
         map (fun i => (Z.of_nat i mod 4)%Z) (seq 0 (S n))) /\
  (forall acts k,
     In k (ticks (run acts fresh)) ->
     (0 <= tickCount k)%Z /\
     tickBeat k = Z.rem (tickCount k) 4 /\
     tickBeat k = (tickCount k mod 4)%Z /\
     tickDownbeat k = (tickBeat k =? 0)%Z).
Proof.
  split; [exact start_from_idle|].
  split; [vm_compute; repeat split; reflexivity|].
  split; [exact session_counts|].
  exact ticks_wellFormed.
Qed.

Lemma start_fires_beat_zero_witness :
  ticks (start fresh) = ticks fresh ++ [mkTick (now fresh) 0 0 true].
Proof.
  destruct start_fires_beat_zero as (H & _).
  apply (H fresh). reflexivity.
Defined.

(** C4. While the engine runs, [setBPM] stores its argument clamped to
    the range from 40 to 300, removes the pending timer and arms a new
    one due [60000 / bpm] after the present instant, with the new tempo;
    counters, measure position and tick log are untouched.  Every
    delivery of the pending timer plays the next beat and arms one new
    timer whose delay is [60000 / bpm] for the tempo at that moment; so
    the tick after a tempo change comes one new interval after the
    change, and the one after it one new interval later. *)
Theorem setBPM_rearms_with_new_interval :
  (forall acts q,
     let w := run acts fresh in
     isPlaying w = true ->
     let w' := setBPM q w in
     bpm w' = Math_min (Math_max q 40) 300 /\
     (40 <= bpm w' /\ bpm w' <= 300) /\
     timers w' = [mkTimer (nextId w) (now w + 60000 / bpm w') TempoBeat] /\
     timeoutId w' = Some (nextId w) /\
     (forall old, In old (timers w) -> tid old <> nextId w) /\
     isPlaying w' = true /\
     beatCount w' = beatCount w /\
     currentBeat w' = currentBeat w /\
     ticks w' = ticks w /\
     now w' = now w) /\
  (forall acts,
     let w := run acts fresh in
     isPlaying w = true ->
     exists t,
       timers w = [t] /\
       let w' := fire w in
       now w' = due t /\
       ticks w' =
         ticks w ++ [mkTick (due t) (beatCount w + 1)
                            (Z.rem (beatCount w + 1) 4)
                            (Z.rem (beatCount w + 1) 4 =? 0)%Z] /\
       beatCount w' = (beatCount w + 1)%Z /\
       currentBeat w' = Z.rem (beatCount w + 1) 4 /\
       bpm w' = bpm w /\
       isPlaying w' = true /\
       timers w' =
         [mkTimer (nextId w) (due t + 60000 / bpm w) ScheduledBeat]) /\
  (forall acts q,
     let w := run acts fresh in
     isPlaying w = true ->
     let w1 := fire (setBPM q w) in
     let new := 60000 / Math_min (Math_max q 40) 300 in
     ticks w1 =
       ticks w ++ [mkTick (now w + new) (beatCount w + 1)
                          (Z.rem (beatCount w + 1) 4)
                          (Z.rem (beatCount w + 1) 4 =? 0)%Z] /\
     timers w1 =
       [mkTimer (nextId w + 1) (now w + new + new) ScheduledBeat]).
Proof.
  split.
  { intros acts q w Hp. apply setBPM_while_playing; [|exact Hp].
    apply reachable_wellFormed. }
  split.
  { intros acts w Hp. apply fire_while_playing; [|exact Hp].
    apply reachable_wellFormed. }
  intros acts q w Hp w1 new.
  pose proof (reachable_wellFormed acts) as Hw. fold w in Hw.
  destruct (setBPM_while_playing q w Hw Hp)
    as (Hb & _ & Htm & _ & _ & Hp' & Hbc & _ & Htk & _).
  pose proof (wellFormed_setBPM q w Hw) as Hw'.
  destruct (fire_while_playing (setBPM q w) Hw' Hp')
    as (t & Ht & _ & Hticks & _ & _ & _ & _ & Htimers).
  rewrite Htm in Ht. injection Ht as <-.
  cbn [due] in Hticks, Htimers.
  rewrite Htk, Hbc, Hb in Hticks. rewrite Hb in Htimers.
  split; [exact Hticks|].
  unfold w1. rewrite Htimers. f_equal. f_equal.
  destruct (playing_has_one_timer w Hw Hp) as (t & Ht & Hto & Hid & _).
  clear -Hp Ht Hto Hid.
  destruct w as [pl to iv b bc cb nw nx tm tk].
  cbn in Hp, Ht, Hto, Hid. subst pl tm to.
  unfold setBPM. cbn [setBpmField timeoutId isPlaying].
  rewrite (truthy_pos (tid t)) by lia. reflexivity.
Qed.

Lemma setBPM_rearms_with_new_interval_witness :
  bpm (setBPM 500 (run [Start] fresh)) = Math_min (Math_max 500 40) 300.
Proof.
  destruct setBPM_rearms_with_new_interval as (H & _).
  apply (H [Start] 500). reflexivity.
Defined.

(** ** Stop *)

Lemma stop_effect w :
  wellFormed w ->
  let w' := stop w in
  isPlaying w' = false /\ timers w' = [] /\ timeoutId w' = None /\
  beatCount w' = beatCount w /\ currentBeat w' = currentBeat w /\
  ticks w' = ticks w /\ now w' = now w /\ bpm w' = bpm w.
Proof.
  intros Hw.
  destruct w as [pl to iv b bc cb nw nx tm tk].
  unfold wellFormed in Hw. cbn in Hw.
  destruct Hw as (Hiv & Hnx & Hb & Hbc & Hcb & Htk & Hpl). subst iv.
  destruct pl.
  - destruct Hpl as (t & -> & -> & Hid & Hdue).
    unfold stop. cbn [setIsPlaying timeoutId].
    rewrite (truthy_pos (tid t)) by lia. cbn.
    rewrite Z.eqb_refl. cbn. repeat split; reflexivity.
  - destruct Hpl as (-> & ->). cbn. repeat split; reflexivity.
Qed.

(** Whatever happens to an idle engine, short of a start, fires no tick
    and leaves the counters alone. *)
Lemma idle_step w a :
  wellFormed w -> isPlaying w = false -> a <> Start ->
  let w' := step w a in
  isPlaying w' = false /\ ticks w' = ticks w /\
  beatCount w' = beatCount w /\ currentBeat w' = currentBeat w /\
  timers w' = [].
Proof.
  intros Hw Hp Ha.
  destruct w as [pl to iv b bc cb nw nx tm tk].
  unfold wellFormed in Hw. cbn in Hw, Hp. subst pl.
  destruct Hw as (Hiv & Hnx & Hb & Hbc & Hcb & Htk & -> & ->). subst iv.
  destruct a as [| |q| |dt]; [congruence| | | |]; cbn.
  - repeat split; reflexivity.
  - repeat split; reflexivity.
  - repeat split; reflexivity.
  - unfold wait. cbn. destruct (Qlt_le_dec dt 0); cbn;
      repeat split; reflexivity.
Qed.

Lemma idle_run later : forall w,
  wellFormed w -> isPlaying w = false -> ~ In Start later ->
  let w' := run later w in
  isPlaying w' = false /\ ticks w' = ticks w /\
  beatCount w' = beatCount w /\ currentBeat w' = currentBeat w /\
  timers w' = [].
Proof.
  induction later as [|a later IH]; intros w Hw Hp Hn.
  - cbn. repeat split; try reflexivity; try assumption.
    destruct Hw as (_ & _ & _ & _ & _ & _ & H). rewrite Hp in H. tauto.
  - assert (Ha : a <> Start) by (intros ->; apply Hn; left; reflexivity).
    destruct (idle_step w a Hw Hp Ha) as (Hp1 & Ht1 & Hb1 & Hc1 & _).
    assert (Hn' : ~ In Start later) by (intros H; apply Hn; right; exact H).
    destruct (IH (step w a) (wellFormed_step w a Hw) Hp1 Hn')
      as (Hp2 & Ht2 & Hb2 & Hc2 & Htm2).
    cbn [run fold_left]. fold (run later (step w a)).
    repeat split; try assumption; congruence.
Qed.

(** C5. [stop] leaves the engine idle with no timer pending and with
    [beatCount], [currentBeat] and the tick log as they were; from then
    on, whatever the host delivers, however long one waits and whatever
    tempo is set, no tick fires and the counters stay put, until the
    next start. *)
Theorem stop_cancels_pending_tick :
  forall acts,
    let w := run acts fresh in
    let w' := stop w in
    isPlaying w' = false /\ timers w' = [] /\ timeoutId w' = None /\
    beatCount w' = beatCount w /\ currentBeat w' = currentBeat w /\
    ticks w' = ticks w /\ now w' = now w /\
    fire w' = w' /\
    (forall later,
       ~ In Start later ->
       let w'' := run later w' in
       isPlaying w'' = false /\ ticks w'' = ticks w /\
       beatCount w'' = beatCount w /\ currentBeat w'' = currentBeat w /\
       timers w'' = []).
Proof.
  intros acts w w'.
  pose proof (reachable_wellFormed acts) as Hw. fold w in Hw.
  destruct (stop_effect w Hw) as (Hp & Htm & Hto & Hbc & Hcb & Htk & Hnow & _).
  fold w' in Hp, Htm, Hto, Hbc, Hcb, Htk, Hnow.
  repeat split; try assumption.
  - unfold fire. rewrite Htm. reflexivity.
  - destruct (idle_run later w' (wellFormed_stop w Hw) Hp H)
      as (H1 & H2 & H3 & H4 & H5). exact H1.
  - destruct (idle_run later w' (wellFormed_stop w Hw) Hp H)
      as (H1 & H2 & H3 & H4 & H5). congruence.
  - destruct (idle_run later w' (wellFormed_stop w Hw) Hp H)
      as (H1 & H2 & H3 & H4 & H5). congruence.
  - destruct (idle_run later w' (wellFormed_stop w Hw) Hp H)
      as (H1 & H2 & H3 & H4 & H5). congruence.
  - destruct (idle_run later w' (wellFormed_stop w Hw) Hp H)
      as (H1 & H2 & H3 & H4 & H5). exact H5.
Qed.

Lemma stop_cancels_pending_tick_witness :
  ticks (run [Fire; Wait 1000; Fire; SetBPM 90; Fire]
             (stop (run [SetBPM 120; Start; Fire] fresh)))
  = ticks (run [SetBPM 120; Start; Fire] fresh).
Proof.
  destruct (stop_cancels_pending_tick [SetBPM 120; Start; Fire])
    as (_ & _ & _ & _ & _ & _ & _ & _ & H).
  apply (H [Fire; Wait 1000; Fire; SetBPM 90; Fire]).
  intros [H1|[H1|[H1|[H1|[H1|[]]]]]]; discriminate.
Defined.

End MetronomeFacts.


(* ================================================================== *)
(** * The two engines side by side *)
(* ================================================================== *)

Section Comparison.
Local Open Scope Q_scope.




Lemma legacy_setBPM_unclamped q l : Legacy.bpm (Legacy.setBPM q l) = q.
Proof.
  destruct l as [lp li lb lbc lcb ln lx lt lk]. unfold Legacy.setBPM. cbn.
  destruct li as [i|]; [|reflexivity].
  destruct lp; [|reflexivity]. destruct (i =? 0)%Z; reflexivity.
Qed.

End Comparison.


(* ================================================================== *)
(** * Quotients in double arithmetic *)
(* ================================================================== *)

Section DoubleFacts.
Local Open Scope Q_scope.

Lemma roundEven_floor y : (Qfloor y <= roundEven y <= Qfloor y + 1)%Z.
Proof.
  unfold roundEven.
  destruct (y - inject_Z (Qfloor y) ?= 1 # 2); [|lia|lia].
  destruct (Z.even (Qfloor y)); lia.
Qed.

Lemma roundEven_near y :
  y - (1 # 2) <= inject_Z (roundEven y) /\
  inject_Z (roundEven y) <= y + (1 # 2).
Proof.
  pose proof (Qfloor_le y) as Hl. pose proof (Qlt_floor y) as Hu.
  rewrite inject_Z_plus in Hu. change (inject_Z 1) with 1 in Hu.
  unfold roundEven.
  destruct (y - inject_Z (Qfloor y) ?= 1 # 2) eqn:E.
  - apply Qeq_alt in E.
    destruct (Z.even (Qfloor y)); [|rewrite inject_Z_plus;
      change (inject_Z 1) with 1]; split; Lqa.lra.
  - apply Qlt_alt in E. split; Lqa.lra.
  - apply Qgt_alt in E. rewrite inject_Z_plus.
    change (inject_Z 1) with 1. split; Lqa.lra.
Qed.

Lemma pow2_pos e : 0 < 2 ^ e.
Proof. apply Qpower_0_lt. reflexivity. Qed.

Lemma pow2_inject n : (0 <= n)%Z -> inject_Z (2 ^ n) == 2 ^ n.
Proof. intros H. rewrite Zpower_Qpower by exact H. reflexivity. Qed.

Lemma pow2_minus n m : 2 ^ (n - m) == 2 ^ n / 2 ^ m.
Proof. apply Qpower_minus. discriminate. Qed.

Lemma pow2_succ n : 2 ^ (n + 1) == 2 ^ n * 2.
Proof. rewrite Qpower_plus by discriminate. reflexivity. Qed.

(** [ilog2 x] is the binade of a positive [x]. *)
Lemma ilog2_spec x :
  0 < x -> 2 ^ ilog2 x <= x /\ x < 2 ^ (ilog2 x + 1).
Proof.
  intros Hx. destruct x as [n d].
  assert (Hn : (0 < n)%Z).
  { unfold Qlt in Hx. cbn in Hx. lia. }
  unfold ilog2. cbn [Qnum Qden].
  set (ln := Z.log2 n). set (ld := Z.log2 (Z.pos d)).
  destruct (Z.log2_spec n Hn) as [Hn1 Hn2]. fold ln in Hn1, Hn2.
  destruct (Z.log2_spec (Z.pos d) ltac:(lia)) as [Hd1 Hd2].
  fold ld in Hd1, Hd2.
  rewrite <- Z.add_1_r in Hn2, Hd2.
  assert (Hln : (0 <= ln)%Z) by apply Z.log2_nonneg.
  assert (Hld : (0 <= ld)%Z) by apply Z.log2_nonneg.
  assert (Hq : n # d == inject_Z n / inject_Z (Z.pos d))
    by apply Qmake_Qdiv.
  assert (Hdpos : 0 < inject_Z (Z.pos d)) by reflexivity.
  destruct (Qle_bool (2 ^ (ln - ld)) (n # d)) eqn:E.
  - apply Qle_bool_iff in E. split; [exact E|].
    rewrite Hq. apply Qlt_shift_div_r; [exact Hdpos|].
    replace (ln - ld + 1)%Z with (ln + 1 - ld)%Z by lia.
    rewrite pow2_minus, <- !pow2_inject by lia.
    assert (H2 : 0 < inject_Z (2 ^ ld)).
    { rewrite pow2_inject by lia. apply pow2_pos. }
    assert (Hr : inject_Z (2 ^ (ln + 1)) / inject_Z (2 ^ ld)
                 * inject_Z (Z.pos d)
                 == inject_Z (2 ^ (ln + 1)) * inject_Z (Z.pos d)
                    / inject_Z (2 ^ ld)) by (field; Lqa.lra).
    rewrite Hr. apply Qlt_shift_div_l; [exact H2|].
    rewrite <- !inject_Z_mult, <- Zlt_Qlt. nia.
  - assert (Hlt : n # d < 2 ^ (ln - ld)).
    { apply Qnot_le_lt. intros H. apply Qle_bool_iff in H. congruence. }
    split.
    + replace (ln - ld - 1)%Z with (ln - (ld + 1))%Z by lia.
      rewrite pow2_minus, <- !pow2_inject by lia.
      assert (H2 : 0 < inject_Z (2 ^ (ld + 1))).
      { rewrite pow2_inject by lia. apply pow2_pos. }
      apply Qle_shift_div_r; [exact H2|].
      rewrite Hq.
      assert (Hr : inject_Z n / inject_Z (Z.pos d) * inject_Z (2 ^ (ld + 1))
                   == inject_Z n * inject_Z (2 ^ (ld + 1))
                      / inject_Z (Z.pos d)) by (field; discriminate).
      rewrite Hr. apply Qle_shift_div_l; [exact Hdpos|].
      rewrite <- !inject_Z_mult, <- Zle_Qle. nia.
    + replace (ln - ld - 1 + 1)%Z with (ln - ld)%Z by lia. exact Hlt.
Qed.

(** The mantissa of a positive number has 53 bits. *)
Lemma mantissa_range a :
  0 < a ->
  (2 ^ 52 <= roundEven (a / 2 ^ (ilog2 a - 52)) <= 2 ^ 53)%Z.
Proof.
  intros Ha. destruct (ilog2_spec a Ha) as [Hl Hu].
  set (e := (ilog2 a - 52)%Z).
  pose proof (pow2_pos e) as He.
  assert (H1 : 2 ^ ilog2 a == 2 ^ e * inject_Z (2 ^ 52)).
  { replace (ilog2 a) with (e + 52)%Z by (unfold e; lia).
    rewrite Qpower_plus by discriminate. reflexivity. }
  assert (H2 : 2 ^ (ilog2 a + 1) == 2 ^ e * inject_Z (2 ^ 53)).
  { replace (ilog2 a + 1)%Z with (e + 53)%Z by (unfold e; lia).
    rewrite Qpower_plus by discriminate. reflexivity. }
  assert (Hs1 : inject_Z (2 ^ 52) <= a / 2 ^ e).
  { apply Qle_shift_div_l; [exact He|]. rewrite Qmult_comm, <- H1.
    exact Hl. }
  assert (Hs2 : a / 2 ^ e < inject_Z (2 ^ 53)).
  { apply Qlt_shift_div_r; [exact He|]. rewrite Qmult_comm, <- H2.
    exact Hu. }
  pose proof (roundEven_floor (a / 2 ^ e)) as [Hf1 Hf2].
  apply Qfloor_resp_le in Hs1. rewrite Qfloor_Z in Hs1.
  assert (Hf3 : (Qfloor (a / 2 ^ e) < 2 ^ 53)%Z).
  { rewrite Zlt_Qlt. eapply Qle_lt_trans; [apply Qfloor_le|exact Hs2]. }
  split; lia.
Qed.

Lemma Qabs_nonzero x : ~ x == 0 -> 0 < Qabs x.
Proof.
  intros Hx. apply Qabs_case; intros Hs;
    destruct (Qle_lt_or_eq _ _ Hs) as [Hlt|Heq];
    try Lqa.lra; exfalso; apply Hx; Lqa.lra.
Qed.

Lemma fl_zero_iff x : fl x == 0 <-> x == 0.
Proof.
  unfold fl. destruct (Qeq_bool x 0) eqn:E.
  - apply Qeq_bool_iff in E. split; [intros _; exact E|reflexivity].
  - assert (Hx : ~ x == 0).
    { intros H. apply Qeq_bool_iff in H. congruence. }
    split; [|intros H; contradiction]. intros H. exfalso.
    pose proof (Qabs_nonzero x Hx) as Ha.
    destruct (mantissa_range (Qabs x) Ha) as [Hm _].
    pose proof (pow2_pos (ilog2 (Qabs x) - 52)) as He.
    set (m := roundEven _) in *.
    assert (Hm0 : 0 < inject_Z m).
    { change 0 with (inject_Z 0). rewrite <- Zlt_Qlt. lia. }
    pose proof (Qmult_lt_0_compat _ _ Hm0 He) as Hr.
    destruct (Qle_bool 0 x); Lqa.lra.
Qed.

(** [fl x] is [x] rounded to 53 significant bits: a mantissa between
    [2^52] and [2^53] times the power of two of its binade, within half
    a unit of the last place. *)
Lemma fl_nearest x :
  ~ x == 0 ->
  exists m e,
    (2 ^ 52 <= m <= 2 ^ 53)%Z /\
    Qabs (fl x) == inject_Z m * 2 ^ e /\
    Qabs (fl x - x) <= (1 # 2) * 2 ^ e.
Proof.
  intros Hx. pose proof (Qabs_nonzero x Hx) as Ha.
  destruct (mantissa_range (Qabs x) Ha) as [Hm1 Hm2].
  pose proof (pow2_pos (ilog2 (Qabs x) - 52)) as He.
  destruct (roundEven_near (Qabs x / 2 ^ (ilog2 (Qabs x) - 52)))
    as [Hn1 Hn2].
  exists (roundEven (Qabs x / 2 ^ (ilog2 (Qabs x) - 52))),
         (ilog2 (Qabs x) - 52)%Z.
  split; [split; assumption|].
  unfold fl.
  assert (E : Qeq_bool x 0 = false).
  { destruct (Qeq_bool x 0) eqn:E; [|reflexivity].
    apply Qeq_bool_iff in E. contradiction. }
  rewrite E.
  set (e := (ilog2 (Qabs x) - 52)%Z) in *.
  set (m := roundEven (Qabs x / 2 ^ e)) in *.
  assert (Hm0 : 0 < inject_Z m).
  { change 0 with (inject_Z 0). rewrite <- Zlt_Qlt. lia. }
  pose proof (Qmult_lt_0_compat _ _ Hm0 He) as Hr.
  assert (Hs : Qabs x == Qabs x / 2 ^ e * 2 ^ e) by (field; Lqa.lra).
  set (s := Qabs x / 2 ^ e) in *.
  assert (Hd1 : inject_Z m * 2 ^ e - Qabs x <= (1 # 2) * 2 ^ e).
  { rewrite Hs. 
    assert (inject_Z m * 2 ^ e - s * 2 ^ e == (inject_Z m - s) * 2 ^ e)
      as -> by ring.
    apply Qmult_le_compat_r; Lqa.lra. }
  assert (Hd2 : - ((1 # 2) * 2 ^ e) <= inject_Z m * 2 ^ e - Qabs x).
  { rewrite Hs.
    assert (inject_Z m * 2 ^ e - s * 2 ^ e == (inject_Z m - s) * 2 ^ e)
      as -> by ring.
    assert (- ((1 # 2) * 2 ^ e) == (- (1 # 2)) * 2 ^ e) as -> by ring.
    apply Qmult_le_compat_r; Lqa.lra. }
  destruct (Qle_bool 0 x) eqn:Es.
  - apply Qle_bool_iff in Es. rewrite (Qabs_pos x Es) in Hd1, Hd2.
    split; [apply Qabs_pos; Lqa.lra|].
    apply Qabs_Qle_condition. split; assumption.
  - assert (Hneg : x < 0).
    { apply Qnot_le_lt. intros H. apply Qle_bool_iff in H. congruence. }
    assert (Hax : Qabs x == - x) by (apply Qabs_neg; Lqa.lra).
    rewrite Hax in Hd1, Hd2.
    split.
    + rewrite Qabs_opp. apply Qabs_pos. Lqa.lra.
    + apply Qabs_Qle_condition. split; Lqa.lra.
Qed.

End DoubleFacts.


(* ================================================================== *)
(** * Properties of the tap tempo *)
(* ================================================================== *)

Section TapFacts.
Import MetronomeControls.
Local Open Scope Z_scope.

Lemma sliceLast_length n (l : list Z) :
  List.length (sliceLast n l) = Nat.min n (List.length l).
Proof. unfold sliceLast. rewrite length_skipn. lia. Qed.

Lemma sliceLast_suffix n (l : list Z) :
  exists pre, l = pre ++ sliceLast n l.
Proof.
  unfold sliceLast. exists (firstn (List.length l - n) l).
  symmetry. apply firstn_skipn.
Qed.

Lemma sliceLast_short n (l : list Z) :
  (List.length l <= n)%nat -> sliceLast n l = l.
Proof.
  intros H. unfold sliceLast.
  replace (List.length l - n)%nat with 0%nat by lia. reflexivity.
Qed.

Lemma sliceLast_long n x (l : list Z) :
  List.length l = n -> sliceLast n (x :: l) = l.
Proof.
  intros H. unfold sliceLast. cbn [List.length].
  replace (S (List.length l) - n)%nat with 1%nat by lia. reflexivity.
Qed.

Lemma last_default_irrelevant (l : list Z) : forall z a b,
  last (z :: l) a = last (z :: l) b.
Proof.
  induction l as [|y l IH]; intros z a b; [reflexivity|].
  change (last (z :: y :: l) a) with (last (y :: l) a).
  change (last (z :: y :: l) b) with (last (y :: l) b).
  apply IH.
Qed.

(** The intervals telescope: their sum is the time from the first tap
    to the last, and there is one interval fewer than taps. *)
Lemma intervals_sum (l : list Z) : forall a acc,
  fold_left Z.add (intervals (a :: l)) acc = acc + (last l a - a).
Proof.
  induction l as [|b l IH]; intros a acc.
  - cbn. lia.
  - change (fold_left Z.add (intervals (a :: b :: l)) acc)
      with (fold_left Z.add (intervals (b :: l)) (acc + (b - a))).
    rewrite IH. destruct l as [|z l]; [cbn [last]; lia|].
    change (last (b :: z :: l) a) with (last (z :: l) a).
    rewrite (last_default_irrelevant l z a b). lia.
Qed.

Lemma intervals_length (l : list Z) : forall a,
  List.length (intervals (a :: l)) = List.length l.
Proof.
  induction l as [|b l IH]; intros a; [reflexivity|].
  change (List.length (intervals (a :: b :: l)))
    with (S (List.length (intervals (b :: l)))).
  rewrite IH. reflexivity.
Qed.

Lemma tapEstimate_spec taps b :
  tapEstimate taps = Some b <->
  ((2 <= List.length taps)%nat /\
   ~ (averageInterval (intervals taps) == 0)%Q /\
   b = Math_round (fl (60000 / averageInterval (intervals taps)))%Q /\
   40 <= b <= 300).
Proof.
  unfold tapEstimate, calculatedBpm.
  destruct (1 <? List.length taps)%nat eqn:El.
  - apply Nat.ltb_lt in El.
    destruct (Qeq_bool (averageInterval (intervals taps)) 0) eqn:Ez.
    + apply Qeq_bool_iff in Ez. split; [discriminate|].
      intros (_ & Hn & _). contradiction.
    + assert (Hn : ~ (averageInterval (intervals taps) == 0)%Q).
      { intros H. apply Qeq_bool_iff in H. congruence. }
      set (r := Math_round
                  (fl (60000 / averageInterval (intervals taps)))%Q).
      destruct ((40 <=? r) && (r <=? 300)) eqn:Er.
      * apply andb_true_iff in Er. destruct Er as [E1 E2].
        apply Z.leb_le in E1, E2. split.
        -- intros H. injection H as <-. repeat split; try assumption; try lia.
        -- intros (_ & _ & -> & _). reflexivity.
      * split; [discriminate|].
        intros (_ & _ & -> & H1 & H2).
        apply Z.leb_le in H1, H2. fold r in H1, H2.
        rewrite H1, H2 in Er. discriminate.
  - apply Nat.ltb_ge in El. split; [discriminate|].
    intros (H & _). lia.
Qed.

Lemma handleTapTempo_effect t c :
  let newTapTimes := sliceLast 4 (tapTimes c ++ [t]) in
  tapTimes (handleTapTempo t c) = newTapTimes /\
  bpm (handleTapTempo t c) =
    match tapEstimate newTapTimes with Some b => b | None => bpm c end /\
  metronome (handleTapTempo t c) =
    match tapEstimate newTapTimes with
    | Some b => MetronomeSound.setBPM (inject_Z b) (metronome c)
    | None => metronome c
    end.
Proof.
  unfold handleTapTempo.
  destruct (tapEstimate (sliceLast 4 (tapTimes c ++ [t]))); cbn; auto.
Qed.

(** The code's intervals are the spec's, and its mean is the spec's
    mean rounded to a double. *)
Lemma intervals_gaps (l : list Z) : forall a,
  intervals (a :: l) = gaps (a :: l).
Proof.
  induction l as [|b l IH]; intros a; [reflexivity|].
  change (intervals (a :: b :: l)) with ((b - a) :: intervals (b :: l)).
  change (gaps (a :: b :: l)) with ((b - a) :: gaps (b :: l)).
  rewrite IH. reflexivity.
Qed.

Lemma sum_right (l : list Z) : forall acc,
  fold_left Z.add l acc = acc + fold_right Z.add 0 l.
Proof.
  induction l as [|x l IH]; intros acc; cbn [fold_left fold_right].
  - lia.
  - rewrite IH. lia.
Qed.

Lemma average_mean taps :
  averageInterval (intervals taps) = fl (meanInterval taps).
Proof.
  destruct taps as [|a l]; [reflexivity|].
  unfold averageInterval, meanInterval.
  rewrite <- intervals_gaps, sum_right, Z.add_0_l. reflexivity.
Qed.

Lemma tapEstimate_mean taps b :
  tapEstimate taps = Some b <->
  ((2 <= List.length taps)%nat /\
   ~ (meanInterval taps == 0)%Q /\
   b = Math_round (fl (60000 / fl (meanInterval taps)))%Q /\
   40 <= b <= 300).
Proof.
  rewrite tapEstimate_spec, average_mean, fl_zero_iff. reflexivity.
Qed.

Lemma meanInterval_first_last a mid z :
  meanInterval (a :: mid ++ [z])
  = (inject_Z (z - a) / inject_Z (Z.of_nat (List.length mid) + 1))%Q.
Proof.
  unfold meanInterval. rewrite <- intervals_gaps.
  rewrite <- (Z.add_0_l (fold_right Z.add 0 _)), <- sum_right.
  rewrite intervals_sum, intervals_length, last_last, length_app.
  cbn [List.length].
  replace (0 + (z - a)) with (z - a) by lia.
  replace (Z.of_nat (List.length mid + 1))
    with (Z.of_nat (List.length mid) + 1) by lia.
  reflexivity.
Qed.

Lemma average_first_last a mid z :
  averageInterval (intervals (a :: mid ++ [z]))
  = fl (inject_Z (z - a) / inject_Z (Z.of_nat (List.length mid) + 1))%Q.
Proof. rewrite average_mean, meanInterval_first_last. reflexivity. Qed.

(** The estimate is that of the series moved to start at 0 with all
    taps but the last at 0. *)
Lemma tapEstimate_canon a mid z :
  tapEstimate (a :: mid ++ [z])
  = tapEstimate (0 :: repeat 0 (List.length mid) ++ [z - a]).
Proof.
  unfold tapEstimate, calculatedBpm. rewrite !average_first_last.
  cbn [List.length]. rewrite !length_app, repeat_length.
  replace (z - a - 0) with (z - a) by lia. reflexivity.
Qed.

(** A fourth tap on a history of three. *)
Lemma fourth_tap a b c d s :
  tapTimes s = [a; b; c] ->
  tapTimes (handleTapTempo d s) = [a; b; c; d] /\
  bpm (handleTapTempo d s)
  = match tapEstimate [0; 0; 0; d - a] with
    | Some e => e
    | None => bpm s
    end.
Proof.
  intros Hs. destruct (handleTapTempo_effect d s) as (T & B & _).
  rewrite Hs in T, B. cbn [app] in T, B.
  rewrite sliceLast_short in T, B by (cbn [List.length]; lia).
  split; [exact T|]. rewrite B.
  change [a; b; c; d] with (a :: [b; c] ++ [d]).
  rewrite tapEstimate_canon. reflexivity.
Qed.

Lemma estimate_two d t0 :
  tapEstimate [t0; t0 + d] =
  tapEstimate [0; d].
Proof.
  unfold tapEstimate, calculatedBpm, averageInterval.
  cbn [List.length intervals fold_left Nat.ltb Nat.leb].
  replace (0 + (t0 + d - t0)) with (0 + (d - 0)) by lia. reflexivity.
Qed.

Lemma estimate_three d t0 :
  tapEstimate [t0; t0 + d; t0 + 2 * d] = tapEstimate [0; d; 2 * d].
Proof.
  unfold tapEstimate, calculatedBpm, averageInterval.
  cbn [List.length intervals fold_left Nat.ltb Nat.leb].
  replace (0 + (t0 + d - t0) + (t0 + 2 * d - (t0 + d)))
    with (0 + (d - 0) + (2 * d - d)) by lia.
  reflexivity.
Qed.

Lemma estimate_four d t0 :
  tapEstimate [t0; t0 + d; t0 + 2 * d; t0 + 3 * d]
  = tapEstimate [0; d; 2 * d; 3 * d].
Proof.
  unfold tapEstimate, calculatedBpm, averageInterval.
  cbn [List.length intervals fold_left Nat.ltb Nat.leb].
  replace (0 + (t0 + d - t0) + (t0 + 2 * d - (t0 + d))
           + (t0 + 3 * d - (t0 + 2 * d)))
    with (0 + (d - 0) + (2 * d - d) + (3 * d - 2 * d)) by lia.
  reflexivity.
Qed.

(** Four taps [d] ms apart on an empty history. *)
Lemma four_taps d t0 c :
  tapTimes c = [] ->
  let c' := registerTaps [t0; t0 + d; t0 + 2 * d; t0 + 3 * d] c in
  tapTimes c' = [t0; t0 + d; t0 + 2 * d; t0 + 3 * d] /\
  bpm c' =
    match tapEstimate [0; d; 2 * d; 3 * d] with
    | Some b => b
    | None =>
        match tapEstimate [0; d; 2 * d] with
        | Some b => b
        | None =>
            match tapEstimate [0; d] with Some b => b | None => bpm c end
        end
    end.
Proof.
  intros Hc c'. unfold c', registerTaps. cbn [fold_left].
  destruct (handleTapTempo_effect t0 c) as (T1 & B1 & _).
  rewrite Hc in T1, B1. cbn [app] in T1, B1.
  rewrite sliceLast_short in T1, B1 by (cbn; lia).
  replace (tapEstimate [t0]) with (@None Z) in B1 by reflexivity.
  remember (handleTapTempo t0 c) as c1 eqn:E1. clear E1.
  destruct (handleTapTempo_effect (t0 + d) c1) as (T2 & B2 & _).
  rewrite T1 in T2, B2. cbn [app] in T2, B2.
  rewrite sliceLast_short in T2, B2 by (cbn; lia).
  rewrite estimate_two, B1 in B2.
  remember (handleTapTempo (t0 + d) c1) as c2 eqn:E2. clear E2.
  destruct (handleTapTempo_effect (t0 + 2 * d) c2) as (T3 & B3 & _).
  rewrite T2 in T3, B3. cbn [app] in T3, B3.
  rewrite sliceLast_short in T3, B3 by (cbn; lia).
  rewrite estimate_three, B2 in B3.
  remember (handleTapTempo (t0 + 2 * d) c2) as c3 eqn:E3. clear E3.
  destruct (handleTapTempo_effect (t0 + 3 * d) c3) as (T4 & B4 & _).
  rewrite T3 in T4, B4. cbn [app] in T4, B4.
  rewrite sliceLast_short in T4, B4 by (cbn; lia).
  rewrite estimate_four, B3 in B4.
  split; assumption.
Qed.

(** C6, as the code has it. A tap is appended to the history, of
    which the last 4 are kept.  With at least 2 taps kept, the estimate
    is [round (60000 / mean)] for the mean of the intervals between
    consecutive taps (their sum over their number, that is last minus
    first over one less than the number of taps), where the mean and
    the quotient are doubles: each is the exact value rounded to the
    nearest double before [Math.round] is taken.  It is applied, to the
    [bpm] state and to the engine, only when it lies between 40 and
    300; otherwise nothing is applied.  Four taps 500 ms apart give 120
    and so do taps 300, 600 and 600 ms apart; taps 171 ms apart give
    351, out of range, hence no estimate and an unchanged tempo; taps
    533, 533 and 534 ms apart give 112. *)
Theorem tap_tempo_estimate :
  (forall t c,
     let newTapTimes := sliceLast 4 (tapTimes c ++ [t]) in
     tapTimes (handleTapTempo t c) = newTapTimes /\
     bpm (handleTapTempo t c) =
       match tapEstimate newTapTimes with Some b => b | None => bpm c end /\
     metronome (handleTapTempo t c) =
       match tapEstimate newTapTimes with
       | Some b => MetronomeSound.setBPM (inject_Z b) (metronome c)
       | None => metronome c
       end) /\
  (forall l,
     List.length (sliceLast 4 l) = Nat.min 4 (List.length l) /\
     exists pre, l = pre ++ sliceLast 4 l) /\
  (forall taps b,
     tapEstimate taps = Some b <->
     ((2 <= List.length taps)%nat /\
      ~ (meanInterval taps == 0)%Q /\
      b = Math_round (fl (60000 / fl (meanInterval taps)))%Q /\
      40 <= b <= 300)) /\
  (forall a b c d,
     meanInterval [a; b]
     = (inject_Z (b - a + 0) / inject_Z 1)%Q /\
     meanInterval [a; b; c]
     = (inject_Z (b - a + (c - b + 0)) / inject_Z 2)%Q /\
     meanInterval [a; b; c; d]
     = (inject_Z (b - a + (c - b + (d - c + 0))) / inject_Z 3)%Q) /\
  (forall a mid z,
     meanInterval (a :: mid ++ [z])
     = (inject_Z (z - a) / inject_Z (Z.of_nat (List.length mid) + 1))%Q) /\
  (forall t0 c,
     tapTimes c = [] ->
     let c' := registerTaps [t0; t0 + 500; t0 + 1000; t0 + 1500] c in
     tapTimes c' = [t0; t0 + 500; t0 + 1000; t0 + 1500] /\
     tapEstimate (tapTimes c') = Some 120 /\ bpm c' = 120) /\
  (forall t0 c,
     tapTimes c = [] ->
     let c' := registerTaps [t0; t0 + 171; t0 + 342; t0 + 513] c in
     tapTimes c' = [t0; t0 + 171; t0 + 342; t0 + 513] /\
     calculatedBpm (intervals (tapTimes c')) = Some 351 /\
     tapEstimate (tapTimes c') = None /\ bpm c' = bpm c) /\
  (forall t0 c,
     tapTimes c = [t0; t0 + 300; t0 + 900] ->
     tapTimes (handleTapTempo (t0 + 1500) c)
     = [t0; t0 + 300; t0 + 900; t0 + 1500] /\
     bpm (handleTapTempo (t0 + 1500) c) = 120) /\
  (forall t0 c,
     tapTimes c = [t0; t0 + 533; t0 + 1066] ->
     tapTimes (handleTapTempo (t0 + 1600) c)
     = [t0; t0 + 533; t0 + 1066; t0 + 1600] /\
     bpm (handleTapTempo (t0 + 1600) c) = 112).
Proof.
  split; [exact handleTapTempo_effect|].
  split; [intros l; split; [apply sliceLast_length|apply sliceLast_suffix]|].
  split; [exact tapEstimate_mean|].
  split; [intros a b c d; split; [|split]; reflexivity|].
  split; [exact meanInterval_first_last|].
  split.
  { intros t0 c Hc c'.
    destruct (four_taps 500 t0 c Hc) as (HT & HB).
    change (2 * 500) with 1000 in HT, HB.
    change (3 * 500) with 1500 in HT, HB.
    fold c' in HT, HB. rewrite HT.
    split; [reflexivity|]. split.
    + change (t0 + 1000) with (t0 + 2 * 500).
      change (t0 + 1500) with (t0 + 3 * 500).
      rewrite estimate_four. vm_compute. reflexivity.
    + rewrite HB. vm_compute. reflexivity. }
  split.
  { intros t0 c Hc c'.
    destruct (four_taps 171 t0 c Hc) as (HT & HB).
    change (2 * 171) with 342 in HT, HB.
    change (3 * 171) with 513 in HT, HB.
    fold c' in HT, HB. rewrite HT.
    split; [reflexivity|].
    assert (He : tapEstimate [t0; t0 + 171; t0 + 342; t0 + 513] = None).
    { change (t0 + 342) with (t0 + 2 * 171).
      change (t0 + 513) with (t0 + 3 * 171).
      rewrite estimate_four. vm_compute. reflexivity. }
    split; [|split; [exact He|]].
    + unfold calculatedBpm, averageInterval.
      cbn [List.length intervals fold_left].
      replace (0 + (t0 + 171 - t0) + (t0 + 342 - (t0 + 171))
               + (t0 + 513 - (t0 + 342))) with 513 by lia.
      vm_compute. reflexivity.
    + rewrite HB.
      replace (tapEstimate [0; 171; 342; 513]) with (@None Z)
        by (vm_compute; reflexivity).
      replace (tapEstimate [0; 171; 342]) with (@None Z)
        by (vm_compute; reflexivity).
      replace (tapEstimate [0; 171]) with (@None Z)
        by (vm_compute; reflexivity).
      reflexivity. }
  split.
  - intros t0 c Hc.
    destruct (fourth_tap _ _ _ (t0 + 1500) c Hc) as [HT HB].
    split; [exact HT|]. rewrite HB.
    replace (t0 + 1500 - t0) with 1500 by lia.
    vm_compute. reflexivity.
  - intros t0 c Hc.
    destruct (fourth_tap _ _ _ (t0 + 1600) c Hc) as [HT HB].
    split; [exact HT|]. rewrite HB.
    replace (t0 + 1600 - t0) with 1600 by lia.
    vm_compute. reflexivity.
Qed.

Lemma tap_tempo_estimate_witness :
  bpm (registerTaps [1000; 1000 + 500; 1000 + 1000; 1000 + 1500]
                    (mkControls 90 [] MetronomeSound.fresh)) = 120.
Proof.
  destruct tap_tempo_estimate as (_ & _ & _ & _ & _ & H & _).
  apply (H 1000 (mkControls 90 [] MetronomeSound.fresh)). reflexivity.
Defined.

(** C6 as stated, with [round (60000 / mean)] taken exactly, fails:
    for taps at 0, 533, 1066 and 1600 ms the mean is 1600/3 and
    60000 over it is 112.5, which rounds to 113, while the code's two
    quotients in doubles give 112.49999999999999 and the estimate
    112. *)
Lemma estimate_not_exact_round : ~ estimateIsExactRound.
Proof.
  intros H. specialize (H [0; 533; 1066; 1600]).
  assert (Hl : (2 <= List.length [0; 533; 1066; 1600])%nat)
    by (cbn [List.length]; lia).
  assert (Hm : ~ (meanInterval [0; 533; 1066; 1600]%Z == 0)%Q)
    by (intros E; vm_compute in E; discriminate).
  specialize (H Hl Hm). vm_compute in H. discriminate.
Qed.

End TapFacts.

(* ================================================================== *)
(** * More on the tuner *)
(* ================================================================== *)

Section TunerMore.
Import Tuner TunerDisplay.
Local Open Scope R_scope.

(** ** When a reading is published *)

Lemma round_within_50 x :
  (Z.abs (Math_round x) <= 50)%Z <-> - (101 / 2) <= x < 101 / 2.
Proof.
  unfold Math_round.
  pose proof (Zfloor_bound (x + / 2)) as [Hl Hu].
  split.
  - intros H.
    assert (H1 : IZR (-50) <= IZR (Zfloor (x + / 2))) by (apply IZR_le; lia).
    assert (H2 : IZR (Zfloor (x + / 2)) <= IZR 50) by (apply IZR_le; lia).
    lra.
  - intros [H1 H2].
    assert (A : (-50 <= Zfloor (x + / 2))%Z) by (apply Zfloor_lub; lra).
    assert (B : (Zfloor (x + / 2) < 51)%Z) by (apply lt_IZR; lra).
    lia.
Qed.

Lemma reading_closest f s c :
  reading f = Some (s, c) ->
  findClosest f guitarStrings0 = Some s /\ In s guitarStrings0 /\
  (Z.abs c <= 50)%Z.
Proof.
  unfold reading.
  destruct (findClosest f guitarStrings0) as [s0|] eqn:Hc; [|discriminate].
  destruct (centsValue f s0) as [c0|]; [|discriminate].
  destruct (Z.abs c0 <=? 50)%Z eqn:E; [|discriminate].
  intros H. injection H as <- <-. apply Z.leb_le in E.
  repeat split; try assumption.
  eapply firstMin_In, findClosest_firstMin, Hc.
Qed.

Lemma centsValue_spec f s :
  0 < freq s ->
  centsValue f s =
  if Rlt_dec 0 f then Some (Math_round (exactCents f s)) else None.
Proof.
  intros Hs. unfold centsValue, Math_log2, exactCents.
  destruct (Rlt_dec 0 (f / freq s)) as [H|H];
    destruct (Rlt_dec 0 f) as [H'|H']; try reflexivity; exfalso.
  - apply H'. apply Rmult_lt_reg_r with (/ freq s).
    + apply Rinv_0_lt_compat, Hs.
    + rewrite Rmult_0_l. exact H.
  - apply H. apply Rdiv_lt_0_compat; assumption.
Qed.

Lemma reading_iff f s c :
  reading f = Some (s, c) <->
  (findClosest f guitarStrings0 = Some s /\ 0 < f /\
   c = Math_round (exactCents f s) /\
   - (101 / 2) <= exactCents f s < 101 / 2).
Proof.
  split.
  - intros H. destruct (reading_closest f s c H) as (Hc & Hin & Habs).
    unfold reading in H. rewrite Hc in H.
    rewrite (centsValue_spec f s (freq_pos s Hin)) in H.
    destruct (Rlt_dec 0 f) as [Hf|Hf]; [|discriminate].
    destruct (Z.abs (Math_round (exactCents f s)) <=? 50)%Z eqn:E;
      [|discriminate].
    injection H as <-. repeat split; try assumption; try reflexivity;
      apply round_within_50; assumption.
  - intros (Hc & Hf & -> & Hb).
    assert (Hin : In s guitarStrings0)
      by (eapply firstMin_In, findClosest_firstMin, Hc).
    unfold reading. rewrite Hc, (centsValue_spec f s (freq_pos s Hin)).
    destruct (Rlt_dec 0 f) as [_|Hn]; [|contradiction].
    apply round_within_50 in Hb. apply Z.leb_le in Hb. rewrite Hb.
    reflexivity.
Qed.

Lemma update_unpublished f t st :
  reading f = None -> updateTuningInfo f t st = st.
Proof. intros H. rewrite update_reading, H. reflexivity. Qed.

Lemma reading_nonpositive f : f <= 0 -> reading f = None.
Proof.
  intros Hf. destruct (reading f) as [[s c]|] eqn:H; [|reflexivity].
  apply reading_iff in H. destruct H as (_ & Hp & _). lra.
Qed.

Lemma update_published f t st s c :
  reading f = Some (s, c) ->
  currentNote (updateTuningInfo f t st) = name s /\
  cents (updateTuningInfo f t st) = c.
Proof. intros H. rewrite update_reading, H. cbn. auto. Qed.

Lemma update_history f t st :
  pitchHistory (updateTuningInfo f t st) = pitchHistory st.
Proof.
  rewrite update_reading. destruct (reading f) as [[s c]|]; [|reflexivity].
  cbn [publish pitchHistory]. unfold holdStep.
  destruct (String.eqb (lastNoteRef st) (name s)); [|reflexivity].
  destruct ((Z.abs c <=? 5) && (t - noteHoldTimeRef st >=? 2000))%Z;
    reflexivity.
Qed.

(** X1. A call of the tracker either publishes a reading or changes
    nothing at all: when it publishes, the note shown is the name of
    the string nearest in Hz, which [lastNoteRef] holds too, the cents
    shown are within 50 and the window is left alone; strings and refs
    are never touched without a reading being published.  A frequency
    that is not positive, for which [Math.log2] gives [NaN] or
    [-Infinity], is never published. *)
Theorem update_publishes_or_changes_nothing :
  (forall f t st,
     (exists s c,
        findClosest f guitarStrings0 = Some s /\ In s guitarStrings0 /\
        (Z.abs c <= 50)%Z /\
        currentNote (updateTuningInfo f t st) = name s /\
        cents (updateTuningInfo f t st) = c /\
        lastNoteRef (updateTuningInfo f t st) = name s /\
        pitchHistory (updateTuningInfo f t st) = pitchHistory st) \/
     updateTuningInfo f t st = st) /\
  (forall f t st, f <= 0 -> updateTuningInfo f t st = st).
Proof.
  split.
  - intros f t st. destruct (reading f) as [[s c]|] eqn:Hr.
    + left. exists s, c.
      destruct (reading_closest f s c Hr) as (Hc & Hin & Habs).
      destruct (update_published f t st s c Hr) as [Hn Hcents].
      repeat split; try assumption.
      * rewrite update_lastNote, Hr. reflexivity.
      * apply update_history.
    + right. apply update_unpublished, Hr.
  - intros f t st Hf. apply update_unpublished, reading_nonpositive, Hf.
Qed.

Lemma update_publishes_or_changes_nothing_witness :
  updateTuningInfo (-1) 0 initialTuner = initialTuner.
Proof.
  destruct update_publishes_or_changes_nothing as (_ & H).
  apply H. lra.
Defined.

(** ** Frames the tracker ignores *)

Lemma detectPitch_off_chart p c t st :
  accepted p c = true ->
  reading (average (pushPitch (pitchHistory st) p)) = None ->
  detectPitch p c t st = setHistory st (pushPitch (pitchHistory st) p).
Proof.
  intros Ha Hr. rewrite (detectPitch_accepted _ _ _ _ Ha).
  apply update_unpublished, Hr.
Qed.

(** Above the high E string, that string is the nearest. *)
Lemma closest_above f :
  freq highE <= f -> findClosest f guitarStrings0 = Some highE.
Proof.
  intros Hf.
  destruct (findClosest_some f guitarStrings0) as [c Hc]; [discriminate|].
  rewrite Hc. f_equal.
  pose proof (findClosest_firstMin _ _ _ Hc) as Hmin.
  pose proof (firstMin_In _ _ _ Hmin) as Hcin.
  assert (Hh : In highE guitarStrings0) by (do 5 right; left; reflexivity).
  pose proof (firstMin_le _ _ _ highE Hmin Hh) as Hle.
  unfold guitarStrings0 in Hcin; simpl in Hcin. simpl in Hf.
  destruct Hcin as [<-|[<-|[<-|[<-|[<-|[<-|[]]]]]]];
    try reflexivity; exfalso; simpl in Hle;
    unfold Rabs in Hle; repeat destruct (Rcase_abs _); lra.
Qed.

Lemma reading_octave_above : reading (65926 / 100) = None.
Proof.
  destruct (reading (65926 / 100)) as [[s c]|] eqn:H; [|reflexivity].
  apply reading_iff in H. destruct H as (Hc & _ & _ & _ & Hb).
  rewrite closest_above in Hc by (simpl; lra). injection Hc as <-.
  unfold exactCents in Hb. simpl freq in Hb.
  replace (65926 / 100 / (32963 / 100)) with 2 in Hb by field.
  replace (ln 2 / ln 2) with 1 in Hb
    by (field; pose proof ln2_pos; lra).
  lra.
Qed.

(** X2. An accepted frame whose window average gets no reading (it is
    too far from every string) only enters the window: the note and the
    cents on display, the strings, the last note and the hold stay as
    they were, so the display keeps the previous reading. *)
Theorem off_chart_frame_keeps_display (p c : R) (t : Z) (st : TunerState) :
  accepted p c = true ->
  reading (average (pushPitch (pitchHistory st) p)) = None ->
  let st' := detectPitch p c t st in
  st' = setHistory st (pushPitch (pitchHistory st) p) /\
  currentNote st' = currentNote st /\ cents st' = cents st /\
  guitarStrings st' = guitarStrings st /\
  lastNoteRef st' = lastNoteRef st /\
  noteHoldTimeRef st' = noteHoldTimeRef st.
Proof.
  intros Ha Hr st'. unfold st'.
  rewrite (detectPitch_off_chart _ _ _ _ Ha Hr). cbn.
  repeat split; reflexivity.
Qed.

(** An open low E is shown as E; the next frame, at 1236.11 Hz, brings
    the average to 659.26 Hz, an octave above the high E, and E with 0
    cents stays on display. *)
Lemma off_chart_frame_keeps_display_witness :
  let st1 := detectPitch (8241 / 100) (9 / 10) 0 initialTuner in
  let st2 := detectPitch (123611 / 100) (9 / 10) 16 st1 in
  currentNote st1 = "E"%string /\
  currentNote st2 = "E"%string /\ cents st2 = 0%Z.
Proof.
  intros st1 st2.
  assert (Ha1 : accepted (8241 / 100) (9 / 10) = true)
    by (apply accepted_true; lra).
  assert (Ha2 : accepted (123611 / 100) (9 / 10) = true)
    by (apply accepted_true; lra).
  assert (H1 : st1 = updateTuningInfo (8241 / 100) 0
                       (setHistory initialTuner [8241 / 100])).
  { unfold st1. rewrite (detectPitch_accepted _ _ _ _ Ha1).
    cbn [initialTuner pitchHistory pushPitch app List.length
         maxHistoryLength Nat.ltb Nat.leb].
    rewrite average_single. reflexivity. }
  assert (Hh : pitchHistory st1 = [8241 / 100]).
  { rewrite H1, update_history. reflexivity. }
  assert (Hn : currentNote st1 = "E"%string /\ cents st1 = 0%Z).
  { rewrite H1. apply (update_published _ _ _ lowE 0%Z), reading_lowE. }
  destruct Hn as [Hn Hc]. split; [exact Hn|].
  assert (Hr : reading (average (pushPitch (pitchHistory st1)
                                           (123611 / 100))) = None).
  { rewrite Hh.
    cbn [pushPitch app List.length maxHistoryLength Nat.ltb Nat.leb].
    replace (average [8241 / 100; 123611 / 100]) with (65926 / 100)
      by (unfold average; simpl; field).
    exact reading_octave_above. }
  destruct (off_chart_frame_keeps_display (123611 / 100) (9 / 10) 16%Z
              st1 Ha2 Hr) as (_ & Hn2 & Hc2 & _).
  fold st2 in Hn2, Hc2. rewrite Hn2, Hc2. auto.
Defined.


(** ** The window *)

Lemma sum_between a b l :
  l <> [] -> Forall (fun x => a < x < b) l ->
  INR (List.length l) * a < fold_right Rplus 0 l < INR (List.length l) * b.
Proof.
  induction l as [|x l IH]; intros Hne Hall; [congruence|].
  inversion Hall as [|? ? Hx Hl]; subst.
  destruct l as [|y l].
  - simpl. lra.
  - assert (Hne' : y :: l <> []) by discriminate.
    specialize (IH Hne' Hl).
    change (fold_right Rplus 0 (x :: y :: l))
      with (x + fold_right Rplus 0 (y :: l)).
    change (List.length (x :: y :: l)) with (S (List.length (y :: l))).
    rewrite S_INR. lra.
Qed.

Lemma average_between a b l :
  l <> [] -> Forall (fun x => a < x < b) l -> a < average l < b.
Proof.
  intros Hne Hall.
  pose proof (sum_between a b l Hne Hall) as [Hl Hu].
  pose proof (average_sum l Hne) as Hs.
  assert (Hn : 0 < INR (List.length l)).
  { apply lt_0_INR. destruct l; [congruence|simpl; lia]. }
  rewrite <- Hs in Hl, Hu. split; nra.
Qed.

Lemma pushPitch_plausible h p :
  Forall plausible h -> plausible p -> Forall plausible (pushPitch h p).
Proof.
  intros Hh Hp. unfold pushPitch.
  assert (H : Forall plausible (h ++ [p])).
  { apply Forall_app. split; [exact Hh|]. constructor; [exact Hp|constructor]. }
  destruct (maxHistoryLength <? List.length (h ++ [p]))%nat; [|exact H].
  destruct (h ++ [p]); [exact H|]. inversion H; assumption.
Qed.

Lemma pushPitch_not_nil h p : pushPitch h p <> [].
Proof.
  pose proof (pushPitch_nonempty h p) as H. apply Nat.ltb_lt in H.
  intros E. rewrite E in H. simpl in H. lia.
Qed.

Lemma smooth_plausible p c h h' out :
  Forall plausible h -> smooth p c h = (h', out) ->
  Forall plausible h' /\ (forall x, out = Some x -> plausible x).
Proof.
  intros Hh Hs. destruct (accepted p c) eqn:E.
  - rewrite (smooth_accepted _ _ _ E) in Hs. injection Hs as <- <-.
    assert (Hp : plausible p) by (apply accepted_true in E; apply E).
    pose proof (pushPitch_plausible h p Hh Hp) as Hw.
    split; [exact Hw|]. intros x Hx. injection Hx as <-.
    apply average_between; [apply pushPitch_not_nil|exact Hw].
  - rewrite (smooth_rejected _ _ _ E) in Hs. injection Hs as <- <-.
    split; [constructor|discriminate].
Qed.

Lemma smoothOutputs_plausible es : forall h x,
  Forall plausible h -> In (Some x) (smoothOutputs es h) -> plausible x.
Proof.
  induction es as [|[p c] es IH]; intros h x Hh Hin; [destruct Hin|].
  cbn [smoothOutputs] in Hin.
  destruct (smooth p c h) as [h' out] eqn:Hs.
  destruct (smooth_plausible p c h h' out Hh Hs) as [Hh' Hout].
  destruct Hin as [Hin|Hin].
  - apply Hout, Hin.
  - apply (IH h' x Hh' Hin).
Qed.

Lemma detectPitch_history p c t st :
  pitchHistory (detectPitch p c t st)
  = fst (smooth p c (pitchHistory st)).
Proof.
  destruct (accepted p c) eqn:E.
  - rewrite (detectPitch_accepted _ _ _ _ E), update_history,
      (smooth_accepted _ _ _ E). reflexivity.
  - rewrite (detectPitch_rejected _ _ _ _ E), (smooth_rejected _ _ _ E).
    reflexivity.
Qed.

Lemma runFrames_history_inv (P : list R -> Prop) fs :
  (forall p c h, P h -> P (fst (smooth p c h))) ->
  forall st, P (pitchHistory st) -> P (pitchHistory (runFrames fs st)).
Proof.
  intros Hstep. induction fs as [|fr fs IH]; intros st H; [exact H|].
  apply IH. rewrite detectPitch_history. apply Hstep, H.
Qed.

(** X3. Every frequency in the window lies strictly between 50 and
    2000 Hz, and so does every average handed to the tracker: the
    tracker is never called with a frequency outside that range. *)
Theorem smoothed_pitch_between_50_and_2000 :
  (forall fs, Forall plausible (pitchHistory (runFrames fs initialTuner))) /\
  (forall p c h h' out,
     Forall plausible h -> smooth p c h = (h', out) ->
     Forall plausible h' /\ (forall x, out = Some x -> plausible x)) /\
  (forall es x, In (Some x) (smoothOutputs es []) -> plausible x).
Proof.
  split.
  { intros fs. apply (runFrames_history_inv (Forall plausible)).
    - intros p c h Hh. destruct (smooth p c h) as [h' out] eqn:Hs.
      apply (smooth_plausible p c h h' out Hh Hs).
    - constructor. }
  split; [exact smooth_plausible|].
  intros es x. apply smoothOutputs_plausible. constructor.
Qed.

Lemma smoothed_pitch_between_50_and_2000_witness :
  plausible (average (pushPitch [100; 1900] 60)).
Proof.
  destruct smoothed_pitch_between_50_and_2000 as (_ & H & _).
  assert (Hh : Forall plausible [100; 1900])
    by (repeat constructor; unfold plausible; lra).
  assert (Ha : accepted 60 (9 / 10) = true) by (apply accepted_true; lra).
  destruct (H 60 (9 / 10) [100; 1900] _ _ Hh (smooth_accepted _ _ _ Ha))
    as [_ Hout].
  apply Hout. reflexivity.
Defined.

Lemma lastN_short n (l : list R) :
  (List.length l <= n)%nat -> lastN n l = l.
Proof.
  intros H. unfold lastN.
  replace (List.length l - n)%nat with 0%nat by lia. reflexivity.
Qed.

Lemma lastN_length n (l : list R) :
  List.length (lastN n l) = Nat.min n (List.length l).
Proof. unfold lastN. rewrite length_skipn. lia. Qed.

Lemma lastN_app_lastN n (l x : list R) :
  lastN n (lastN n l ++ x) = lastN n (l ++ x).
Proof.
  destruct (Nat.le_gt_cases (List.length l) n) as [H|H].
  - rewrite (lastN_short n l H). reflexivity.
  - unfold lastN at 1 3. rewrite !length_app, lastN_length.
    unfold lastN.
    assert (E : skipn (List.length l - n) l ++ x
                = skipn (List.length l - n) (l ++ x)).
    { rewrite skipn_app.
      replace (List.length l - n - List.length l)%nat with 0%nat by lia.
      reflexivity. }
    rewrite E, skipn_skipn. f_equal. lia.
Qed.

Lemma smoothHistory_accepted es : forall h,
  Forall (fun e => accepted (fst e) (snd e) = true) es ->
  (List.length h <= 5)%nat ->
  smoothHistory es h = lastN 5 (h ++ map fst es).
Proof.
  induction es as [|[p c] es IH]; intros h Hall Hh.
  - cbn. rewrite app_nil_r. symmetry. apply lastN_short, Hh.
  - inversion Hall as [|? ? Ha Hall']; subst. cbn [fst snd] in Ha.
    cbn [smoothHistory]. rewrite (smooth_accepted _ _ _ Ha). cbn [fst].
    destruct (pushPitch_window h p Hh) as [Hw Hl].
    rewrite (IH _ Hall' Hl), Hw, lastN_app_lastN, <- app_assoc.
    reflexivity.
Qed.

Lemma lastN_app_long n (l x : list R) :
  (n <= List.length x)%nat -> lastN n (l ++ x) = lastN n x.
Proof.
  intros H. unfold lastN. rewrite length_app.
  replace (List.length l + List.length x - n)%nat
    with (List.length l + (List.length x - n))%nat by lia.
  rewrite skipn_app.
  rewrite (skipn_all2 l) by lia.
  replace (List.length l + (List.length x - n) - List.length l)%nat
    with (List.length x - n)%nat by lia.
  reflexivity.
Qed.

Lemma runFrames_app a b st :
  runFrames (a ++ b) st = runFrames b (runFrames a st).
Proof. unfold runFrames. apply fold_left_app. Qed.

Lemma runFrames_history fs : forall st,
  pitchHistory (runFrames fs st)
  = smoothHistory (map (fun fr => (fPitch fr, fClarity fr)) fs)
                  (pitchHistory st).
Proof.
  induction fs as [|fr fs IH]; intros st; [reflexivity|].
  change (runFrames (fr :: fs) st)
    with (runFrames fs (detectPitch (fPitch fr) (fClarity fr) (fNow fr) st)).
  rewrite IH, detectPitch_history. reflexivity.
Qed.

Lemma runFrames_length fs st :
  (List.length (pitchHistory st) <= 5)%nat ->
  (List.length (pitchHistory (runFrames fs st)) <= 5)%nat.
Proof.
  intros H. rewrite runFrames_history. apply smoothHistory_length, H.
Qed.

(** The window after a run of accepted frames. *)
Lemma runFrames_window fs st :
  Forall (fun fr => acceptedFrame fr = true) fs ->
  (List.length (pitchHistory st) <= 5)%nat ->
  pitchHistory (runFrames fs st)
  = lastN 5 (pitchHistory st ++ map fPitch fs).
Proof.
  intros Hall Hh. rewrite runFrames_history.
  rewrite smoothHistory_accepted.
  - rewrite map_map. reflexivity.
  - apply Forall_map. exact Hall.
  - exact Hh.
Qed.

Lemma detectPitch_window p c t st :
  accepted p c = true -> (List.length (pitchHistory st) <= 5)%nat ->
  pitchHistory (detectPitch p c t st) = lastN 5 (pitchHistory st ++ [p]) /\
  detectPitch p c t st
  = updateTuningInfo (average (lastN 5 (pitchHistory st ++ [p]))) t
      (setHistory st (lastN 5 (pitchHistory st ++ [p]))).
Proof.
  intros Ha Hh. destruct (pushPitch_window (pitchHistory st) p Hh) as [Hw _].
  rewrite (detectPitch_accepted _ _ _ _ Ha), update_history, Hw.
  split; reflexivity.
Qed.

(** A rejected frame in the middle of a run: the loop goes on from an
    empty window. *)
Lemma runFrames_gap pre rej post st :
  acceptedFrame rej = false ->
  runFrames (pre ++ rej :: post) st
  = runFrames post
      (publish (setHistory (runFrames pre st) []) EmptyString 0).
Proof.
  intros Hr. rewrite runFrames_app.
  change (runFrames (rej :: post) (runFrames pre st))
    with (runFrames post
            (detectPitch (fPitch rej) (fClarity rej) (fNow rej)
                         (runFrames pre st))).
  rewrite (detectPitch_rejected _ _ _ _ Hr). reflexivity.
Qed.

Lemma window_after_gap pre rej post st :
  acceptedFrame rej = false ->
  Forall (fun fr => acceptedFrame fr = true) post ->
  pitchHistory (runFrames (pre ++ rej :: post) st)
  = lastN 5 (map fPitch post).
Proof.
  intros Hr Hall. rewrite (runFrames_gap _ _ _ _ Hr).
  rewrite runFrames_window; [reflexivity|exact Hall|].
  cbn [publish setHistory pitchHistory List.length]. lia.
Qed.

Lemma mean_after_gap pre rej post st p c t :
  acceptedFrame rej = false ->
  Forall (fun fr => acceptedFrame fr = true) post ->
  accepted p c = true ->
  detectPitch p c t (runFrames (pre ++ rej :: post) st)
  = updateTuningInfo (average (lastN 5 (map fPitch post ++ [p]))) t
      (setHistory (runFrames (pre ++ rej :: post) st)
                  (lastN 5 (map fPitch post ++ [p]))).
Proof.
  intros Hr Hall Ha.
  pose proof (window_after_gap pre rej post st Hr Hall) as Hw.
  assert (Hl : (List.length (pitchHistory
                   (runFrames (pre ++ rej :: post) st)) <= 5)%nat).
  { rewrite Hw, lastN_length. lia. }
  destruct (detectPitch_window p c t _ Ha Hl) as [_ Hd].
  rewrite Hd, Hw, lastN_app_lastN. reflexivity.
Qed.

(** C8. On an accepted frame [detectPitch] pushes the frequency onto
    [pitchHistory], which keeps the last 5 at most, and calls the
    tracker with the arithmetic mean of that window; whatever frames
    come in, the window never exceeds 5.  On a rejected frame it
    empties the window, clears the note and the cents and does not call
    the tracker (strings and refs stay).  After a rejected frame the
    loop goes on from an empty window: the window then holds
    frequencies of later frames only, and the mean handed to the
    tracker is computed from those alone. *)
Theorem smoother_window_and_reset :
  (forall p c t st,
     accepted p c = true ->
     pitchHistory (detectPitch p c t st)
     = pushPitch (pitchHistory st) p /\
     detectPitch p c t st
     = updateTuningInfo (average (pushPitch (pitchHistory st) p)) t
         (setHistory st (pushPitch (pitchHistory st) p))) /\
  (forall p c t st,
     accepted p c = true -> (List.length (pitchHistory st) <= 5)%nat ->
     pitchHistory (detectPitch p c t st)
     = lastN 5 (pitchHistory st ++ [p]) /\
     detectPitch p c t st
     = updateTuningInfo (average (lastN 5 (pitchHistory st ++ [p]))) t
         (setHistory st (lastN 5 (pitchHistory st ++ [p])))) /\
  (forall fs,
     (List.length (pitchHistory (runFrames fs initialTuner)) <= 5)%nat) /\
  (forall h, h <> [] ->
     average h * INR (List.length h) = fold_right Rplus 0 h) /\
  (forall p c t st,
     accepted p c = false ->
     let st' := detectPitch p c t st in
     pitchHistory st' = [] /\ currentNote st' = EmptyString /\
     cents st' = 0%Z /\ guitarStrings st' = guitarStrings st /\
     lastNoteRef st' = lastNoteRef st /\
     noteHoldTimeRef st' = noteHoldTimeRef st) /\
  (forall pre rej post st,
     acceptedFrame rej = false ->
     runFrames (pre ++ rej :: post) st
     = runFrames post
         (publish (setHistory (runFrames pre st) []) EmptyString 0)) /\
  (forall pre rej post st,
     acceptedFrame rej = false ->
     Forall (fun fr => acceptedFrame fr = true) post ->
     pitchHistory (runFrames (pre ++ rej :: post) st)
     = lastN 5 (map fPitch post)) /\
  (forall pre rej post st p c t,
     acceptedFrame rej = false ->
     Forall (fun fr => acceptedFrame fr = true) post ->
     accepted p c = true ->
     detectPitch p c t (runFrames (pre ++ rej :: post) st)
     = updateTuningInfo (average (lastN 5 (map fPitch post ++ [p]))) t
         (setHistory (runFrames (pre ++ rej :: post) st)
                     (lastN 5 (map fPitch post ++ [p])))) /\
  (forall p c h, accepted p c = true ->
     smooth p c h = (pushPitch h p, Some (average (pushPitch h p)))) /\
  (forall p c h, accepted p c = false -> smooth p c h = ([], None)) /\
  (forall pre p c post h, accepted p c = false ->
     smoothOutputs (pre ++ (p, c) :: post) h =
     smoothOutputs pre h ++ None :: smoothOutputs post []).
Proof.
  split.
  { intros p c t st Ha.
    rewrite (detectPitch_accepted _ _ _ _ Ha), update_history.
    split; reflexivity. }
  split; [exact detectPitch_window|].
  split.
  { intros fs. apply runFrames_length. cbn. lia. }
  split; [exact average_sum|].
  split.
  { intros p c t st H. rewrite (detectPitch_rejected _ _ _ _ H).
    cbn. repeat split; reflexivity. }
  split; [exact runFrames_gap|].
  split; [exact window_after_gap|].
  split; [exact mean_after_gap|].
  split; [exact smooth_accepted|].
  split; [exact smooth_rejected|].
  intros pre p c post h. apply smoothOutputs_gap.
Qed.

(** A frame of 30 Hz between two frames of 440 and 441 Hz: the window
    after the three is the last frequency alone. *)
Lemma smoother_window_and_reset_witness :
  pitchHistory
    (runFrames [mkFrame 440 (9 / 10) 0; mkFrame 30 (9 / 10) 16;
                mkFrame 441 (9 / 10) 32] initialTuner)
  = lastN 5 [441].
Proof.
  destruct smoother_window_and_reset
    as (_ & _ & _ & _ & _ & _ & H & _).
  apply (H [mkFrame 440 (9 / 10) 0] (mkFrame 30 (9 / 10) 16)
           [mkFrame 441 (9 / 10) 32] initialTuner).
  - apply accepted_false. right. left. cbn [fPitch]. lra.
  - constructor; [|constructor]. apply accepted_true.
    cbn [fPitch fClarity]. lra.
Defined.

Lemma window_steady fs pre p :
  Forall (fun fr => acceptedFrame fr = true) fs ->
  Forall (fun fr => fPitch fr = p) fs -> (5 <= List.length fs)%nat ->
  pitchHistory (runFrames (pre ++ fs) initialTuner) = repeat p 5.
Proof.
  intros Hall Hp H5. rewrite runFrames_app.
  rewrite runFrames_window;
    [|exact Hall|apply runFrames_length; cbn; lia].
  rewrite lastN_app_long by (rewrite length_map; exact H5).
  assert (Hm : map fPitch fs = repeat p (List.length fs)).
  { clear Hall H5. induction Hp as [|fr fs E _ IH]; [reflexivity|].
    cbn [map List.length repeat]. rewrite E, IH. reflexivity. }
  rewrite Hm. unfold lastN. rewrite repeat_length.
  remember (List.length fs) as n eqn:En. clear -H5.
  replace n with ((n - 5) + 5)%nat at 2 by lia.
  rewrite repeat_app, skipn_app, repeat_length, skipn_all2
    by (rewrite repeat_length; lia).
  replace (n - 5 - (n - 5))%nat with 0%nat by lia. reflexivity.
Qed.

(** X4. While every frame is accepted, [pitchHistory] holds the last 5
    of the earlier window followed by the new frequencies; after 5 or
    more accepted frames it holds exactly the last 5 of them, whatever
    came before, and after 5 or more accepted frames of one frequency
    it holds that frequency 5 times. *)
Theorem window_is_last_5_accepted :
  (forall fs st,
     Forall (fun fr => acceptedFrame fr = true) fs ->
     (List.length (pitchHistory st) <= 5)%nat ->
     pitchHistory (runFrames fs st)
     = lastN 5 (pitchHistory st ++ map fPitch fs)) /\
  (forall fs pre,
     Forall (fun fr => acceptedFrame fr = true) fs ->
     (5 <= List.length fs)%nat ->
     pitchHistory (runFrames (pre ++ fs) initialTuner)
     = lastN 5 (map fPitch fs)) /\
  (forall fs pre p,
     Forall (fun fr => acceptedFrame fr = true) fs ->
     Forall (fun fr => fPitch fr = p) fs -> (5 <= List.length fs)%nat ->
     pitchHistory (runFrames (pre ++ fs) initialTuner) = repeat p 5).
Proof.
  split; [exact runFrames_window|].
  split; [|exact window_steady].
  intros fs pre Hall H5. rewrite runFrames_app.
  rewrite runFrames_window;
    [|exact Hall|apply runFrames_length; cbn; lia].
  apply lastN_app_long. rewrite length_map. exact H5.
Qed.

Lemma window_is_last_5_accepted_witness :
  pitchHistory
    (runFrames ([mkFrame 100 (9 / 10) 0; mkFrame 30 (9 / 10) 16]
                ++ repeat (mkFrame 440 (9 / 10) 32) 5) initialTuner)
  = repeat 440 5.
Proof.
  destruct window_is_last_5_accepted as (_ & _ & H).
  apply H.
  - apply Forall_forall. intros fr Hf. apply repeat_spec in Hf. subst fr.
    apply accepted_true. cbn [fPitch fClarity]. lra.
  - apply Forall_forall. intros fr Hf. apply repeat_spec in Hf. subst fr.
    reflexivity.
  - cbn [repeat List.length]. lia.
Defined.

(** ** What the loop never touches *)

Lemma markOne_untouched n a b :
  name a = name b /\ freq a = freq b /\ tuningStartTime a = None ->
  name (markOne n a) = name b /\ freq (markOne n a) = freq b /\
  tuningStartTime (markOne n a) = None.
Proof.
  unfold markOne. destruct (String.eqb (name a) n); cbn; tauto.
Qed.

Lemma markTuned_untouched n g :
  stringsUntouched g -> stringsUntouched (markTuned n g).
Proof.
  unfold stringsUntouched. rewrite markTuned_map.
  generalize guitarStrings0. induction g as [|a g IH]; intros g0 H.
  - inversion H; subst. constructor.
  - inversion H as [|? b ? g0' Hab Hrest]; subst. cbn [map].
    constructor; [apply markOne_untouched, Hab|apply IH, Hrest].
Qed.

Lemma update_untouched f t st :
  stringsUntouched (guitarStrings st) ->
  stringsUntouched (guitarStrings (updateTuningInfo f t st)).
Proof.
  intros H. rewrite update_strings.
  destruct (reading f) as [[s c]|]; [|exact H].
  destruct (_ && _)%bool; [apply markTuned_untouched|]; exact H.
Qed.

Lemma untouched_initial : stringsUntouched guitarStrings0.
Proof.
  unfold stringsUntouched, guitarStrings0.
  repeat constructor.
Qed.

Lemma update_displayOk f t st :
  displayOk st -> displayOk (updateTuningInfo f t st).
Proof.
  intros H. destruct (reading f) as [[s c]|] eqn:Hr.
  - destruct (reading_closest f s c Hr) as (_ & Hin & Hc).
    destruct (update_published f t st s c Hr) as [Hn Hcs].
    unfold displayOk. rewrite Hn, Hcs, update_lastNote, Hr.
    assert (Hok : noteOk (name s)) by (right; apply in_map, Hin).
    repeat split; try assumption.
    intros E. exfalso. exact (names_nonempty s Hin E).
  - rewrite (update_unpublished f t st Hr). exact H.
Qed.

Lemma detectPitch_displayOk p c t st :
  displayOk st -> displayOk (detectPitch p c t st).
Proof.
  intros H. destruct (accepted p c) eqn:E.
  - rewrite (detectPitch_accepted _ _ _ _ E). apply update_displayOk.
    exact H.
  - rewrite (detectPitch_rejected _ _ _ _ E).
    destruct H as (_ & _ & Hl & _). unfold displayOk. cbn.
    repeat split; try lia; try assumption; left; reflexivity.
Qed.

Lemma runFrames_displayOk fs : forall st,
  displayOk st -> displayOk (runFrames fs st).
Proof.
  induction fs as [|fr fs IH]; intros st H; [exact H|].
  apply IH, detectPitch_displayOk, H.
Qed.

(** X5. Whatever frames come in, the loop changes nothing of the six
    strings but their tuned flags (names and frequencies stay, the
    tuning start time is never set), the cents on display stay within
    50 in absolute value and are 0 when no note is shown, the note
    shown and the note remembered are empty or the name of a string,
    and the window never holds more than 5 frequencies. *)
Theorem audio_loop_invariant (fs : list Frame) :
  let st := runFrames fs initialTuner in
  stringsUntouched (guitarStrings st) /\
  (Z.abs (cents st) <= 50)%Z /\
  noteOk (currentNote st) /\ noteOk (lastNoteRef st) /\
  (currentNote st = EmptyString -> cents st = 0%Z) /\
  (List.length (pitchHistory st) <= 5)%nat.
Proof.
  intros st. split.
  { apply (runFrames_strings_inv stringsUntouched fs update_untouched).
    exact untouched_initial. }
  assert (Hd : displayOk st).
  { apply runFrames_displayOk. unfold displayOk. cbn.
    repeat split; try lia; left; reflexivity. }
  destruct Hd as (H1 & H2 & H3 & H4).
  repeat split; try assumption.
  apply (runFrames_history_inv (fun h => (List.length h <= 5)%nat)).
  - intros p c h Hh. apply smooth_length, Hh.
  - cbn. lia.
Qed.

Lemma audio_loop_invariant_witness :
  cents (runFrames [mkFrame 30 (9 / 10) 0] initialTuner) = 0%Z.
Proof.
  destruct (audio_loop_invariant [mkFrame 30 (9 / 10) 0])
    as (_ & _ & _ & _ & H & _).
  apply H. unfold runFrames. cbn [fold_left fPitch fClarity fNow].
  rewrite detectPitch_rejected; [reflexivity|].
  apply accepted_false. right. left. lra.
Defined.

(** ** The indicator *)

Lemma truthyString_iff s : truthyString s = true <-> s <> EmptyString.
Proof.
  unfold truthyString. rewrite negb_true_iff. apply String.eqb_neq.
Qed.

Lemma indicator_white n c : indicatorColor n c = White <-> n = EmptyString.
Proof.
  unfold indicatorColor. destruct (truthyString n) eqn:E.
  - assert (Hn : n <> EmptyString) by (apply truthyString_iff, E).
    cbn [andb].
    destruct (Z.abs c <=? 5)%Z eqn:E1; [split; [discriminate|tauto]|].
    destruct (0 <? c)%Z eqn:E2; [split; [discriminate|tauto]|].
    destruct (c <? 0)%Z eqn:E3; [split; [discriminate|tauto]|].
    apply Z.leb_gt in E1. apply Z.ltb_ge in E2, E3. lia.
  - cbn [andb]. split; [intros _|reflexivity].
    destruct (String.eqb_spec n EmptyString) as [H|H]; [exact H|].
    apply truthyString_iff in H. congruence.
Qed.

Lemma indicator_of_note n c :
  n <> EmptyString ->
  (indicatorColor n c = Green <-> (Z.abs c <= 5)%Z) /\
  (indicatorColor n c = Red <-> (5 < c)%Z) /\
  (indicatorColor n c = Amber <-> (c < -5)%Z).
Proof.
  intros Hn. apply truthyString_iff in Hn. unfold indicatorColor.
  rewrite Hn. cbn [andb].
  destruct (Z.abs c <=? 5)%Z eqn:E1.
  { apply Z.leb_le in E1.
    repeat split; try discriminate; try tauto; intros; lia. }
  apply Z.leb_gt in E1.
  destruct (0 <? c)%Z eqn:E2.
  { apply Z.ltb_lt in E2.
    repeat split; try discriminate; try tauto; intros; lia. }
  apply Z.ltb_ge in E2.
  destruct (c <? 0)%Z eqn:E3.
  { apply Z.ltb_lt in E3.
    repeat split; try discriminate; try tauto; intros; lia. }
  apply Z.ltb_ge in E3. lia.
Qed.

(** X6. The indicator is white exactly when no note is shown, which
    is the case after every rejected frame and never after a published
    reading; with a note shown it is green exactly when the cents are
    within 5, red when they are above 5 and amber when below -5. *)
Theorem indicator_colour_follows_reading :
  (forall n c, indicatorColor n c = White <-> n = EmptyString) /\
  (forall n c,
     n <> EmptyString ->
     (indicatorColor n c = Green <-> (Z.abs c <= 5)%Z) /\
     (indicatorColor n c = Red <-> (5 < c)%Z) /\
     (indicatorColor n c = Amber <-> (c < -5)%Z)) /\
  (forall p c t st,
     accepted p c = false -> indicatorOf (detectPitch p c t st) = White) /\
  (forall f t st s c,
     reading f = Some (s, c) ->
     indicatorOf (updateTuningInfo f t st) <> White /\
     (indicatorOf (updateTuningInfo f t st) = Green <-> (Z.abs c <= 5)%Z)).
Proof.
  split; [exact indicator_white|].
  split; [exact indicator_of_note|].
  split.
  - intros p c t st H. rewrite (detectPitch_rejected _ _ _ _ H).
    reflexivity.
  - intros f t st s c Hr.
    destruct (reading_closest f s c Hr) as (_ & Hin & _).
    destruct (update_published f t st s c Hr) as [Hn Hc].
    unfold indicatorOf. rewrite Hn, Hc.
    pose proof (names_nonempty s Hin) as Hne. split.
    + intros H. apply indicator_white in H. contradiction.
    + apply (indicator_of_note (name s) c Hne).
Qed.

Lemma indicator_colour_follows_reading_witness :
  indicatorOf (detectPitch 50 (9 / 10) 0 initialTuner) = White.
Proof.
  destruct indicator_colour_follows_reading as (_ & _ & H & _).
  apply H. apply accepted_false. right. left. lra.
Defined.

End TunerMore.

(* ================================================================== *)
(** * More on the metronome engine *)
(* ================================================================== *)

Section EngineMore.
Import MetronomeSound.
Local Open Scope Q_scope.

(** X7. In every state the engine can reach: the tempo lies between 40
    and 300, [beatCount] is not negative, [currentBeat] is
    [beatCount % 4] and so between 0 and 3, the interval id is never
    used, and there is exactly one pending timer, the one [timeoutId]
    names, while the engine plays and none while it is idle. *)
Theorem engine_invariant (acts : list action) :
  let w := run acts fresh in
  (40 <= bpm w /\ bpm w <= 300) /\
  (0 <= beatCount w)%Z /\
  currentBeat w = (beatCount w mod 4)%Z /\
  (0 <= currentBeat w <= 3)%Z /\
  intervalId w = None /\
  (List.length (timers w) <= 1)%nat /\
  (isPlaying w = true <->
     exists t, timers w = [t] /\ timeoutId w = Some (tid t)) /\
  (isPlaying w = false <-> timers w = [] /\ timeoutId w = None).
Proof.
  intros w.
  destruct (reachable_wellFormed acts)
    as (Hiv & Hnx & Hb & Hbc & Hcb & _ & Hpl).
  fold w in Hiv, Hnx, Hb, Hbc, Hcb, Hpl.
  assert (Hmod : currentBeat w = (beatCount w mod 4)%Z).
  { rewrite Hcb. apply Z.rem_mod_nonneg; lia. }
  split; [exact Hb|]. split; [exact Hbc|]. split; [exact Hmod|].
  split.
  { rewrite Hmod.
    pose proof (Z.mod_pos_bound (beatCount w) 4 ltac:(lia)). lia. }
  split; [exact Hiv|].
  destruct (isPlaying w).
  - destruct Hpl as (t & Ht & Hto & _). rewrite Ht. cbn.
    repeat split; try lia; try discriminate.
    + intros _. exists t. auto.
    + intros [H _]. discriminate.
  - destruct Hpl as (Ht & Hto). rewrite Ht. cbn.
    repeat split; try lia; try discriminate; try assumption.
    intros (t & H & _). discriminate.
Qed.

(** ** Pace *)

Lemma interval_bounds q :
  40 <= q -> q <= 300 -> 200 <= 60000 / q /\ 60000 / q <= 1500.
Proof.
  intros H1 H2. split.
  - apply Qle_shift_div_l; Lqa.lra.
  - apply Qle_shift_div_r; Lqa.lra.
Qed.

Lemma nondecreasing_snoc l : forall y,
  nondecreasing l -> Forall (fun x => x <= y) l -> nondecreasing (l ++ [y]).
Proof.
  induction l as [|a l IH]; intros y Hn Hall; [exact I|].
  inversion Hall as [|? ? Ha Hl]; subst.
  destruct l as [|b l].
  - cbn. auto.
  - destruct Hn as [Hab Hn]. change ((a :: b :: l) ++ [y])
      with (a :: (b :: l) ++ [y]).
    cbn [nondecreasing app]. split; [exact Hab|].
    apply (IH y Hn Hl).
Qed.

(** A tick at [d] joins a log whose ticks are not later than [d]. *)
Lemma log_snoc tk d n c b db :
  Forall (fun k => tickTime k <= n) tk -> n <= d ->
  nondecreasing (map tickTime tk) ->
  Forall (fun k => tickTime k <= d) (tk ++ [mkTick d c b db]) /\
  nondecreasing (map tickTime (tk ++ [mkTick d c b db])).
Proof.
  intros Hall Hnd Hs.
  assert (Hall' : Forall (fun k => tickTime k <= d) tk).
  { eapply Forall_impl; [|exact Hall]. cbn. intros k Hk. Lqa.lra. }
  split.
  - apply Forall_app. split; [exact Hall'|].
    constructor; [cbn; Lqa.lra|constructor].
  - rewrite map_app. apply nondecreasing_snoc; [exact Hs|].
    apply Forall_map. exact Hall'.
Qed.

(** A timer armed at [n] with an interval between 200 and 1500. *)
Lemma armed_ok tk n i :
  Forall (fun k => tickTime k <= n) tk -> 200 <= i -> i <= 1500 ->
  n <= n + i /\ n + i <= n + 1500 /\
  Forall (fun k => tickTime k + 200 <= n + i) tk.
Proof.
  intros Hall H1 H2. repeat split; try Lqa.lra.
  eapply Forall_impl; [|exact Hall]. cbn. intros k Hk. Lqa.lra.
Qed.

Lemma paced_fresh : paced fresh.
Proof. unfold paced, fresh. cbn. repeat split; constructor. Qed.

Lemma paced_ext w w' :
  now w' = now w -> ticks w' = ticks w -> timers w' = timers w ->
  paced w -> paced w'.
Proof.
  unfold paced. intros -> -> ->. auto.
Qed.

Lemma idle_no_timer w :
  wellFormed w -> isPlaying w = false -> timers w = [].
Proof.
  intros (_ & _ & _ & _ & _ & _ & H) Hp. rewrite Hp in H. apply H.
Qed.

Lemma bpm_in_range w : wellFormed w -> 40 <= bpm w /\ bpm w <= 300.
Proof. intros (_ & _ & H & _). exact H. Qed.

Lemma wait_cases dt w :
  ticks (wait dt w) = ticks w /\ timers (wait dt w) = timers w /\
  (now (wait dt w) = now w \/
   (now (wait dt w) = now w + dt /\ 0 <= dt /\
    forall t, timers w = [t] -> now w + dt <= due t)).
Proof.
  destruct w as [pl to iv b bc cb nw nx tm tk]. unfold wait.
  cbn [timers now ticks].
  destruct (Qlt_le_dec dt 0) as [Hd|Hd].
  { cbn [timers now ticks]. auto. }
  destruct (earliest tm) as [t|] eqn:Et.
  - destruct (Qlt_le_dec (due t) (nw + dt)) as [Hl|Hl];
      cbn [timers now ticks]; [auto|].
    split; [reflexivity|]. split; [reflexivity|]. right.
    split; [reflexivity|]. split; [exact Hd|].
    intros t' Ht'. subst tm. cbn [earliest] in Et. injection Et as <-.
    exact Hl.
  - cbn [timers now ticks].
    split; [reflexivity|]. split; [reflexivity|]. right.
    split; [reflexivity|]. split; [exact Hd|].
    intros t' Ht'. subst tm. discriminate.
Qed.

Lemma fire_when_idle w :
  wellFormed w -> isPlaying w = false -> fire w = w.
Proof.
  intros Hw Hp. unfold fire. rewrite (idle_no_timer w Hw Hp). reflexivity.
Qed.

Lemma setBPM_idle q w :
  isPlaying w = false ->
  setBPM q w = setBpmField (Math_min (Math_max q 40) 300) w.
Proof.
  intros H. destruct w as [pl to iv b bc cb nw nx tm tk]. cbn in H.
  subst pl. unfold setBPM. cbn. destruct to; reflexivity.
Qed.

Lemma paced_step w a : wellFormed w -> paced w -> paced (step w a).
Proof.
  intros Hw Hp.
  destruct (bpm_in_range w Hw) as [Hb1 Hb2].
  destruct (interval_bounds _ Hb1 Hb2) as [Hi1 Hi2].
  destruct a as [| |q| |dt]; cbn [step].
  - (* start *)
    destruct (isPlaying w) eqn:Ep.
    { unfold start. rewrite Ep. exact Hp. }
    destruct (start_from_idle w Ep)
      as (_ & _ & _ & _ & Hnow & _ & Htk & Htm).
    rewrite (idle_no_timer w Hw Ep) in Htm. cbn [app] in Htm.
    destruct Hp as (Hpast & Hord & _).
    destruct (log_snoc (ticks w) (now w) (now w) 0 0 true Hpast
                (Qle_refl _) Hord) as [Hpast' Hord'].
    unfold paced. rewrite Hnow, Htk, Htm.
    split; [exact Hpast'|]. split; [exact Hord'|].
    constructor; [|constructor]. cbn [due].
    apply armed_ok; assumption.
  - (* stop *)
    destruct (stop_effect w Hw) as (_ & Htm & _ & _ & _ & Htk & Hnow & _).
    destruct Hp as (Hpast & Hord & _).
    unfold paced. rewrite Hnow, Htk, Htm.
    split; [exact Hpast|]. split; [exact Hord|]. constructor.
  - (* setBPM *)
    destruct (isPlaying w) eqn:Ep.
    + destruct (setBPM_while_playing q w Hw Ep)
        as (_ & (Hc1 & Hc2) & Htm & _ & _ & _ & _ & _ & Htk & Hnow).
      destruct (interval_bounds _ Hc1 Hc2) as [Hj1 Hj2].
      destruct Hp as (Hpast & Hord & _).
      unfold paced. rewrite Hnow, Htk, Htm.
      split; [exact Hpast|]. split; [exact Hord|].
      constructor; [|constructor]. cbn [due].
      apply armed_ok; assumption.
    + rewrite (setBPM_idle q w Ep).
      apply (paced_ext w); try reflexivity. exact Hp.
  - (* fire *)
    destruct (isPlaying w) eqn:Ep.
    + destruct (fire_while_playing w Hw Ep)
        as (t & Ht & Hnow & Htk & _ & _ & _ & _ & Htm).
      destruct Hp as (Hpast & Hord & Hdue).
      rewrite Ht in Hdue.
      inversion Hdue as [|? ? (Hd1 & Hd2 & Hd3) _]; subst.
      destruct (log_snoc (ticks w) (due t) (now w) (beatCount w + 1)
                  (Z.rem (beatCount w + 1) 4)
                  (Z.rem (beatCount w + 1) 4 =? 0)%Z Hpast Hd1 Hord)
        as [Hpast' Hord'].
      unfold paced. rewrite Hnow, Htk, Htm.
      split; [exact Hpast'|]. split; [exact Hord'|].
      constructor; [|constructor]. cbn [due].
      apply armed_ok; assumption.
    + rewrite (fire_when_idle w Hw Ep). exact Hp.
  - (* wait *)
    destruct (wait_cases dt w) as (Htk & Htm & [Hnow|(Hnow & Hd & Hguard)]).
    + apply (paced_ext w); assumption.
    + destruct Hp as (Hpast & Hord & Hdue).
      unfold paced. rewrite Hnow, Htk, Htm.
      split.
      { eapply Forall_impl; [|exact Hpast]. cbn beta. intros k Hk.
        Lqa.lra. }
      split; [exact Hord|].
      destruct (isPlaying w) eqn:Ep.
      * destruct (playing_has_one_timer w Hw Ep) as (t & Ht & _).
        rewrite Ht in Hdue |- *.
        inversion Hdue as [|? ? (Hd1 & Hd2 & Hd3) _]; subst.
        pose proof (Hguard t Ht) as Hg.
        constructor; [|constructor].
        split; [exact Hg|]. split; [Lqa.lra|exact Hd3].
      * rewrite (idle_no_timer w Hw Ep). constructor.
Qed.

Lemma paced_run acts : forall w,
  wellFormed w -> paced w -> paced (run acts w).
Proof.
  induction acts as [|a acts IH]; intros w Hw Hp; [exact Hp|].
  apply IH; [apply wellFormed_step, Hw|apply paced_step; assumption].
Qed.

(** X8. In every run the ticks are logged in the order of their
    instants and none lies in the future; while the engine plays, the
    next tick comes at least 200 ms after every earlier tick and at most
    1500 ms after the present instant. *)
Theorem ticks_paced_between_200_and_1500_ms (acts : list action) :
  let w := run acts fresh in
  Forall (fun k => tickTime k <= now w) (ticks w) /\
  nondecreasing (map tickTime (ticks w)) /\
  (isPlaying w = true ->
   exists k,
     ticks (fire w) = ticks w ++ [k] /\
     Forall (fun k0 => tickTime k0 + 200 <= tickTime k) (ticks w) /\
     now w <= tickTime k /\ tickTime k <= now w + 1500).
Proof.
  intros w.
  pose proof (reachable_wellFormed acts) as Hw. fold w in Hw.
  destruct (paced_run acts fresh wellFormed_fresh paced_fresh)
    as (Hpast & Hord & Htm).
  fold w in Hpast, Hord, Htm.
  split; [exact Hpast|]. split; [exact Hord|].
  intros Hp.
  destruct (fire_while_playing w Hw Hp) as (t & Ht & _ & Hticks & _).
  rewrite Ht in Htm. inversion Htm as [|? ? (H1 & H2 & H3) _]; subst.
  eexists. split; [exact Hticks|]. cbn [tickTime]. auto.
Qed.

Lemma ticks_paced_between_200_and_1500_ms_witness :
  exists k,
    ticks (fire (run [Start; Wait 100; SetBPM 300] fresh))
    = ticks (run [Start; Wait 100; SetBPM 300] fresh) ++ [k] /\
    Forall (fun k0 => tickTime k0 + 200 <= tickTime k)
           (ticks (run [Start; Wait 100; SetBPM 300] fresh)).
Proof.
  destruct (ticks_paced_between_200_and_1500_ms [Start; Wait 100; SetBPM 300])
    as (_ & _ & H).
  destruct (H eq_refl) as (k & H1 & H2 & _).
  exists k. split; assumption.
Defined.


Lemma engine_invariant_witness :
  exists t, timers (run [SetBPM 90; Start; Fire] fresh) = [t] /\
            timeoutId (run [SetBPM 90; Start; Fire] fresh) = Some (tid t).
Proof.
  destruct (engine_invariant [SetBPM 90; Start; Fire])
    as (_ & _ & _ & _ & _ & _ & H & _).
  apply H. reflexivity.
Defined.

(** ** Repeated calls *)

Lemma start_twice w : start (start w) = start w.
Proof.
  destruct (isPlaying w) eqn:E.
  - unfold start. rewrite E. rewrite E. reflexivity.
  - destruct (start_from_idle w E) as (_ & Hp & _).
    unfold start at 1. rewrite Hp. reflexivity.
Qed.

Lemma stop_settled w :
  isPlaying w = false -> truthy (timeoutId w) = false ->
  truthy (intervalId w) = false -> stop w = w.
Proof.
  destruct w as [pl to iv b bc cb nw nx tm tk].
  cbv [isPlaying timeoutId intervalId]. intros -> Ht Hi.
  cbv [stop setIsPlaying isPlaying timeoutId intervalId bpm beatCount
       currentBeat now nextId timers ticks].
  destruct to as [i|]; [rewrite Ht|];
    (destruct iv as [j|]; [rewrite Hi|]; reflexivity).
Qed.

Lemma stop_settles w :
  isPlaying (stop w) = false /\ truthy (timeoutId (stop w)) = false /\
  truthy (intervalId (stop w)) = false.
Proof.
  destruct w as [pl to iv b bc cb nw nx tm tk].
  cbv [stop setIsPlaying isPlaying timeoutId intervalId bpm beatCount
       currentBeat now nextId timers ticks].
  destruct to as [i|]; [destruct (truthy (Some i)) eqn:Ei|];
    cbv [setTimeoutId clearTimeout isPlaying timeoutId intervalId bpm
         beatCount currentBeat now nextId timers ticks];
    (destruct iv as [j|]; [destruct (truthy (Some j)) eqn:Ej|]);
    cbv [setIntervalId clearTimeout isPlaying timeoutId intervalId bpm
         beatCount currentBeat now nextId timers ticks];
    repeat split; solve [reflexivity | assumption].
Qed.

Lemma stop_twice w : stop (stop w) = stop w.
Proof.
  destruct (stop_settles w) as (Hp & Ht & Hi).
  apply stop_settled; assumption.
Qed.

Lemma setBPM_keeps_playing q w : isPlaying (setBPM q w) = isPlaying w.
Proof.
  destruct w as [pl to iv b bc cb nw nx tm tk]. unfold setBPM. cbn.
  destruct to as [i|]; [|reflexivity].
  destruct pl; cbn; [|reflexivity].
  destruct (i =? 0)%Z; reflexivity.
Qed.

Lemma setBPM_twice q w :
  wellFormed w ->
  observeEngine (setBPM q (setBPM q w)) = observeEngine (setBPM q w).
Proof.
  intros Hw. destruct (isPlaying w) eqn:Hp.
  - pose proof (wellFormed_setBPM q w Hw) as Hw1.
    destruct (setBPM_while_playing q w Hw Hp)
      as (Hb & _ & Htm & _ & _ & Hp1 & _ & _ & Htk & Hnow).
    destruct (setBPM_while_playing q (setBPM q w) Hw1 Hp1)
      as (Hb2 & _ & Htm2 & _ & _ & _ & _ & _ & Htk2 & _).
    unfold observeEngine. rewrite Htm2, Htk2, Hb2, Htm, Hnow, Hb.
    reflexivity.
  - rewrite (setBPM_idle q w Hp).
    rewrite setBPM_idle by (destruct w; exact Hp).
    destruct w. reflexivity.
Qed.

(** X9. Starting a started engine and stopping a stopped one change
    nothing: [start] after [start] and [stop] after [stop] are the
    single call.  [setBPM] never starts or stops the engine, on an idle
    engine it only stores the clamped tempo, and repeating it with the
    same value at the same instant leaves the stored tempo, the tick
    log and the instant of the next tick as they were. *)
Theorem repeated_calls_change_nothing :
  (forall w, start (start w) = start w) /\
  (forall w, stop (stop w) = stop w) /\
  (forall q w, isPlaying (setBPM q w) = isPlaying w) /\
  (forall q w,
     isPlaying w = false ->
     setBPM q w = setBpmField (Math_min (Math_max q 40) 300) w) /\
  (forall acts q,
     observeEngine (setBPM q (setBPM q (run acts fresh)))
     = observeEngine (setBPM q (run acts fresh))).
Proof.
  split; [exact start_twice|].
  split; [exact stop_twice|].
  split; [exact setBPM_keeps_playing|].
  split; [exact setBPM_idle|].
  intros acts q. apply setBPM_twice, reachable_wellFormed.
Qed.

Lemma repeated_calls_change_nothing_witness :
  setBPM 500 fresh = setBpmField (Math_min (Math_max 500 40) 300) fresh.
Proof.
  destruct repeated_calls_change_nothing as (_ & _ & _ & H & _).
  apply H. reflexivity.
Defined.

End EngineMore.

(* ================================================================== *)
(** * More on the control panel *)
(* ================================================================== *)

Section PanelMore.
Import MetronomeControls ControlPanel.
Local Open Scope Z_scope.

(** ** The slider *)

Lemma round_between (x : Q) (lo hi : Z) :
  (inject_Z lo <= x)%Q -> (x <= inject_Z hi)%Q ->
  lo <= Math_round x <= hi.
Proof.
  intros Hl Hh. unfold Math_round. split.
  - rewrite <- (Qfloor_Z lo). apply Qfloor_resp_le. Lqa.lra.
  - assert (H : Qfloor (x + (1 # 2)) < hi + 1); [|lia].
    rewrite Zlt_Qlt, inject_Z_plus.
    pose proof (Qfloor_le (x + (1 # 2))) as Hf.
    change (inject_Z 1) with 1%Q. Lqa.lra.
Qed.

Lemma round_inject (b : Z) (x : Q) :
  (x == inject_Z b)%Q -> Math_round x = b.
Proof.
  intros H. unfold Math_round. rewrite H.
  assert (A : b <= Qfloor (inject_Z b + (1 # 2))).
  { rewrite <- (Qfloor_Z b) at 1. apply Qfloor_resp_le. Lqa.lra. }
  assert (B : Qfloor (inject_Z b + (1 # 2)) < b + 1); [|lia].
  rewrite Zlt_Qlt, inject_Z_plus.
  pose proof (Qfloor_le (inject_Z b + (1 # 2))) as Hf.
  change (inject_Z 1) with 1%Q. Lqa.lra.
Qed.

Lemma clamp01_range x :
  (0 <= Math_max 0 (Math_min 1 x) /\ Math_max 0 (Math_min 1 x) <= 1)%Q.
Proof.
  unfold Math_max, Math_min.
  destruct (Qlt_le_dec x 1); destruct (Qlt_le_dec 0 _); Lqa.lra.
Qed.

Lemma clamp01_mono x y :
  (x <= y)%Q ->
  (Math_max 0 (Math_min 1 x) <= Math_max 0 (Math_min 1 y))%Q.
Proof.
  intros H. unfold Math_max, Math_min.
  destruct (Qlt_le_dec x 1); destruct (Qlt_le_dec y 1);
    repeat destruct (Qlt_le_dec 0 _); Lqa.lra.
Qed.

Lemma clamp01_id x :
  (0 <= x)%Q -> (x <= 1)%Q -> (Math_max 0 (Math_min 1 x) == x)%Q.
Proof.
  intros H0 H1. unfold Math_max, Math_min.
  destruct (Qlt_le_dec x 1); destruct (Qlt_le_dec 0 _); Lqa.lra.
Qed.

Lemma sliderBpm_range x : 40 <= sliderBpm x <= 300.
Proof.
  unfold sliderBpm. destruct (clamp01_range x) as [H0 H1].
  apply round_between.
  - change (inject_Z 40) with 40%Q. Lqa.lra.
  - change (inject_Z 300) with 300%Q. Lqa.lra.
Qed.

Lemma sliderBpm_mono x y : (x <= y)%Q -> sliderBpm x <= sliderBpm y.
Proof.
  intros H. unfold sliderBpm, Math_round. apply Qfloor_resp_le.
  pose proof (clamp01_mono x y H). Lqa.lra.
Qed.

Lemma sliderBpm_left x : (x <= 0)%Q -> sliderBpm x = 40.
Proof.
  intros H. unfold sliderBpm. apply round_inject.
  assert (E : (Math_max 0 (Math_min 1 x) == 0)%Q).
  { unfold Math_max, Math_min.
    destruct (Qlt_le_dec x 1); destruct (Qlt_le_dec 0 _); Lqa.lra. }
  rewrite E. reflexivity.
Qed.

Lemma sliderBpm_right x : (1 <= x)%Q -> sliderBpm x = 300.
Proof.
  intros H. unfold sliderBpm. apply round_inject.
  assert (E : (Math_max 0 (Math_min 1 x) == 1)%Q).
  { unfold Math_max, Math_min.
    destruct (Qlt_le_dec x 1); destruct (Qlt_le_dec 0 _); Lqa.lra. }
  rewrite E. reflexivity.
Qed.

Lemma sliderBpm_thumb b :
  40 <= b <= 300 -> sliderBpm (thumbPosition b) = b.
Proof.
  intros [H1 H2]. unfold sliderBpm. apply round_inject.
  assert (Hq : (40 <= inject_Z b /\ inject_Z b <= 300)%Q).
  { split; [change 40%Q with (inject_Z 40)|change 300%Q with (inject_Z 300)];
      rewrite <- Zle_Qle; assumption. }
  assert (Ht : (thumbPosition b * 260 == inject_Z b - 40)%Q)
    by (unfold thumbPosition; field).
  assert (H01 : (0 <= thumbPosition b /\ thumbPosition b <= 1)%Q)
    by (split; Lqa.lra).
  rewrite (clamp01_id _ (proj1 H01) (proj2 H01)), Ht. ring.
Qed.

(** X10. The tempo picked on the slider track is always between 40 and
    300: positions left of the track give 40, positions right of it
    300, a position further right never gives a lower tempo, and the
    position at which the thumb is drawn for a tempo gives back that
    tempo (positions taken as exact fractions). *)
Theorem slider_position_to_bpm :
  (forall x, 40 <= sliderBpm x <= 300) /\
  (forall x, (x <= 0)%Q -> sliderBpm x = 40) /\
  (forall x, (1 <= x)%Q -> sliderBpm x = 300) /\
  (forall x y, (x <= y)%Q -> sliderBpm x <= sliderBpm y) /\
  (forall b, 40 <= b <= 300 -> sliderBpm (thumbPosition b) = b).
Proof.
  split; [exact sliderBpm_range|].
  split; [exact sliderBpm_left|].
  split; [exact sliderBpm_right|].
  split; [exact sliderBpm_mono|exact sliderBpm_thumb].
Qed.

Lemma slider_position_to_bpm_witness :
  sliderBpm (thumbPosition 137) = 137.
Proof.
  destruct slider_position_to_bpm as (_ & _ & _ & _ & H).
  apply H. lia.
Defined.


(** ** The panel and its engine *)

Lemma setBPM_fields q w :
  Engine.bpm (Engine.setBPM q w) = Math_min (Math_max q 40) 300 /\
  Engine.beatCount (Engine.setBPM q w) = Engine.beatCount w /\
  Engine.ticks (Engine.setBPM q w) = Engine.ticks w /\
  Engine.isPlaying (Engine.setBPM q w) = Engine.isPlaying w.
Proof.
  destruct w as [pl to iv b bc cb nw nx tm tk]. unfold Engine.setBPM. cbn.
  destruct to as [i|]; [|cbn; auto].
  destruct pl; cbn; [|auto].
  destruct (i =? 0); cbn; auto.
Qed.

Lemma wait_fields dt w :
  Engine.bpm (Engine.wait dt w) = Engine.bpm w /\
  Engine.beatCount (Engine.wait dt w) = Engine.beatCount w /\
  Engine.ticks (Engine.wait dt w) = Engine.ticks w /\
  Engine.isPlaying (Engine.wait dt w) = Engine.isPlaying w.
Proof.
  destruct w as [pl to iv b bc cb nw nx tm tk]. unfold Engine.wait. cbn.
  destruct (Qlt_le_dec dt 0); cbn; [auto|].
  destruct (Engine.earliest tm) as [t|]; cbn; [|auto].
  destruct (Qlt_le_dec (Engine.due t) (nw + dt)); cbn; auto.
Qed.

Lemma inject_range n :
  40 <= n <= 300 -> (40 <= inject_Z n)%Q /\ (inject_Z n <= 300)%Q.
Proof.
  intros [H1 H2].
  split; [change 40%Q with (inject_Z 40)|change 300%Q with (inject_Z 300)];
    rewrite <- Zle_Qle; assumption.
Qed.

Lemma dispatch_none before after p :
  Engine.ticks after = Engine.ticks before -> dispatch before after p = p.
Proof.
  intros H. unfold dispatch. rewrite H, skipn_all. reflexivity.
Qed.

Lemma dispatch_one before after k p :
  Engine.ticks after = Engine.ticks before ++ [k] ->
  dispatch before after p = onBeat k p.
Proof.
  intros H. unfold dispatch. rewrite H, skipn_app, skipn_all, Nat.sub_diag.
  reflexivity.
Qed.

(** The colour after beat [c + 1]. *)
Lemma colour_step c :
  0 <= c ->
  (if (Z.rem (c + 1) 4 =? 0) && (0 <? c + 1) && (Z.rem (c + 1) 8 =? 0)
   then negb (Z.odd (c / 8)) else Z.odd (c / 8))
  = Z.odd ((c + 1) / 8).
Proof.
  intros Hc.
  rewrite (Z.rem_mod_nonneg (c + 1) 4), (Z.rem_mod_nonneg (c + 1) 8) by lia.
  assert (H0 : (0 <? c + 1) = true) by (apply Z.ltb_lt; lia).
  rewrite H0, andb_true_r.
  destruct ((c + 1) mod 8 =? 0) eqn:E8.
  - apply Z.eqb_eq in E8.
    assert (E4 : (c + 1) mod 4 = 0)
      by (revert E8; Z.div_mod_to_equations; lia).
    rewrite E4. cbn [Z.eqb andb].
    assert (Ed : (c + 1) / 8 = Z.succ (c / 8))
      by (revert E8; Z.div_mod_to_equations; lia).
    rewrite Ed, Z.odd_succ, Z.negb_odd. reflexivity.
  - rewrite andb_false_r. apply Z.eqb_neq in E8.
    assert (Ed : (c + 1) / 8 = c / 8)
      by (revert E8; Z.div_mod_to_equations; lia).
    rewrite Ed. reflexivity.
Qed.

Lemma inStep_initial : inStep initialPanel.
Proof.
  unfold inStep, initialPanel, initialControls. cbn.
  split; [exact wellFormed_fresh|].
  repeat split; try reflexivity; lia.
Qed.

Lemma inStep_applyBpm n p :
  40 <= n <= 300 -> inStep p -> inStep (applyBpm n p).
Proof.
  intros Hn (Hw & Hpl & Hb & Hr & Hg & Hc).
  destruct p as [[b taps w] pl ab g dr calls]. cbn in *.
  destruct (setBPM_fields (inject_Z n) w) as (Eb & Ebc & Etk & Epl).
  destruct (inject_range n Hn) as [Q1 Q2].
  unfold inStep, applyBpm. cbn.
  split; [apply wellFormed_setBPM, Hw|].
  rewrite Eb, Ebc, Etk, Epl, (clamp_id _ Q1 Q2).
  repeat split; try assumption; try reflexivity; lia.
Qed.

Lemma inStep_dragging d p :
  inStep p ->
  inStep (mkPanel (core p) (isPlaying p) (activeBeat p) (isGreenDownbeat p)
                  d (downbeatCalls p)).
Proof. intros H. exact H. Qed.

Lemma inStep_moveTo x p : inStep p -> inStep (moveTo x p).
Proof.
  intros H. unfold moveTo.
  destruct (sliderBpm x =? bpm (core p)); [exact H|].
  apply inStep_applyBpm; [apply sliderBpm_range|exact H].
Qed.

Lemma inStep_tap t p :
  inStep p -> inStep (setCore (handleTapTempo t (core p)) p).
Proof.
  intros H. unfold handleTapTempo.
  destruct (tapEstimate (sliceLast 4 (tapTimes (core p) ++ [t])))
    as [b|] eqn:E.
  - apply tapEstimate_spec in E. destruct E as (_ & _ & _ & Hb).
    pose proof (inStep_applyBpm b p Hb H) as H'.
    destruct p as [[b0 taps w] pl ab g dr calls]. exact H'.
  - destruct p as [[b0 taps w] pl ab g dr calls]. exact H.
Qed.

Lemma start_after_reset q w :
  Engine.isPlaying w = false ->
  Engine.start (Engine.setBPM q (Engine.setBeatCount (-1) w))
  = Engine.start (Engine.setBPM q w) /\
  Engine.ticks (Engine.setBPM q (Engine.setBeatCount (-1) w))
  = Engine.ticks w.
Proof.
  intros H. destruct w as [pl to iv b bc cb nw nx tm tk]. cbn in H.
  subst pl. unfold Engine.setBPM. cbn. destruct to; cbn; auto.
Qed.

Lemma inStep_toggle p : inStep p -> inStep (togglePlay p).
Proof.
  intros (Hw & Hpl & Hb & Hr & Hg & Hc).
  destruct p as [[b taps w] pl ab g dr calls]. cbn in *.
  unfold togglePlay. cbn [isPlaying core metronome bpm].
  destruct pl.
  - (* stop *)
    symmetry in Hpl.
    destruct (stop_effect w Hw)
      as (Ep & _ & _ & Ebc & _ & Etk & _ & Ebpm).
    unfold inStep. cbn.
    split; [apply wellFormed_stop, Hw|].
    rewrite Ep, Ebc, Etk, Ebpm.
    repeat split; try assumption; try reflexivity; lia.
  - (* start *)
    symmetry in Hpl.
    destruct (start_after_reset (inject_Z b) w Hpl) as [Es Et].
    destruct (setBPM_fields (inject_Z b) w) as (Eb & Ebc & Etk & Epl).
    destruct (inject_range b Hr) as [Q1 Q2].
    pose proof (wellFormed_setBPM (inject_Z b) w Hw) as Hw2.
    assert (Hidle : Engine.isPlaying (Engine.setBPM (inject_Z b) w) = false)
      by (rewrite Epl; exact Hpl).
    destruct (start_from_idle _ Hidle)
      as (_ & Sp & Sbc & _ & _ & Sbpm & Stk & _).
    rewrite Es.
    rewrite (dispatch_one _ _
               (mkTick (Engine.now (Engine.setBPM (inject_Z b) w))
                       0 0 true)).
    2:{ rewrite Stk, Et, Etk. reflexivity. }
    unfold inStep. cbn.
    split; [apply wellFormed_start, Hw2|].
    rewrite Sp, Sbc, Sbpm, Stk, Eb, Etk.
    rewrite (clamp_id _ Q1 Q2), map_app, Hc.
    repeat split; try reflexivity; lia.
Qed.

Lemma inStep_deliver p : inStep p -> inStep (react p Deliver).
Proof.
  intros (Hw & Hpl & Hb & Hr & Hg & Hc).
  destruct p as [[b taps w] pl ab g dr calls]. cbn in *.
  destruct (Engine.isPlaying w) eqn:Ep.
  - destruct (fire_while_playing w Hw Ep)
      as (t & _ & _ & Etk & Ebc & _ & Ebpm & Ep' & _).
    pose proof (wellFormed_fire w Hw) as Hw'.
    assert (Hbc : 0 <= Engine.beatCount w)
      by (destruct Hw as (_ & _ & _ & H & _); exact H).
    rewrite (dispatch_one _ _ _ _ Etk).
    unfold inStep. cbn.
    split; [exact Hw'|].
    rewrite Ep', Ebc, Ebpm, Etk, map_app, Hc, Hg.
    rewrite (colour_step _ Hbc).
    repeat split; try assumption; try reflexivity; lia.
  - rewrite (fire_when_idle w Hw Ep).
    rewrite dispatch_none by reflexivity.
    unfold inStep. cbn.
    split; [exact Hw|].
    rewrite Ep. repeat split; try assumption; try reflexivity; lia.
Qed.

Lemma inStep_pass dt p : inStep p -> inStep (react p (Pass dt)).
Proof.
  intros (Hw & Hpl & Hb & Hr & Hg & Hc).
  destruct p as [[b taps w] pl ab g dr calls]. cbn in *.
  destruct (wait_fields dt w) as (Eb & Ebc & Etk & Epl).
  unfold inStep. cbn.
  split; [apply wellFormed_wait, Hw|].
  rewrite Eb, Ebc, Etk, Epl.
  repeat split; try assumption; try reflexivity; lia.
Qed.

Lemma inStep_react p e : sliderInRange e -> inStep p -> inStep (react p e).
Proof.
  intros He H. destruct e; cbn [react].
  - apply inStep_toggle, H.
  - unfold changeBpm. apply inStep_applyBpm; [lia|exact H].
  - unfold handleSliderChange. apply inStep_applyBpm; [exact He|exact H].
  - unfold handleMouseDown. apply inStep_moveTo.
    apply (inStep_dragging true), H.
  - unfold handleMove. destruct (isDragging p); [apply inStep_moveTo|];
      exact H.
  - apply (inStep_dragging false), H.
  - apply inStep_tap, H.
  - destruct p as [[b taps w] pl ab g dr calls]. exact H.
  - apply inStep_deliver, H.
  - destruct p as [[b taps w] pl ab g dr calls]. exact H.
  - apply inStep_pass, H.
Qed.

Lemma inStep_session es : forall p,
  Forall sliderInRange es -> inStep p -> inStep (session es p).
Proof.
  induction es as [|e es IH]; intros p Hr H; [exact H|].
  inversion Hr as [|? ? He Hr']; subst.
  apply (IH (react p e) Hr'). apply inStep_react; assumption.
Qed.

(** X11. Through any sequence of toggles, tempo buttons, slider
    changes and drags, taps, timer deliveries and waits, starting from
    the mounted panel, the panel's play state is the engine's, the
    tempo on display is the engine's tempo and lies between 40 and 300,
    and the parent's beat handler (when one is given) has been called
    once per tick, in order, with that tick's [beatCount]: on every
    beat, not on downbeats only. *)
Theorem panel_mirrors_engine (es : list event) :
  Forall sliderInRange es ->
  let p := session es initialPanel in
  isPlaying p = Engine.isPlaying (metronome (core p)) /\
  Engine.bpm (metronome (core p)) = inject_Z (bpm (core p)) /\
  40 <= bpm (core p) <= 300 /\
  downbeatCalls p = map tickCount (Engine.ticks (metronome (core p))).
Proof.
  intros Hr p.
  destruct (inStep_session es initialPanel Hr inStep_initial)
    as (_ & Hpl & Hb & Hrange & _ & Hc).
  fold p in Hpl, Hb, Hrange, Hc. auto.
Qed.

Lemma panel_mirrors_engine_witness :
  bpm (core (session [Toggle; Deliver; ChangeBpm 500; SliderChange 90;
                      Deliver; Toggle] initialPanel)) = 90 /\
  downbeatCalls (session [Toggle; Deliver; ChangeBpm 500; SliderChange 90;
                          Deliver; Toggle] initialPanel) = [0; 1; 2].
Proof.
  assert (Hr : Forall sliderInRange
                 [Toggle; Deliver; ChangeBpm 500; SliderChange 90;
                  Deliver; Toggle])
    by (repeat constructor; cbn; lia).
  pose proof (panel_mirrors_engine _ Hr) as (_ & _ & _ & H).
  split; [reflexivity|]. rewrite H. vm_compute. reflexivity.
Defined.

(** X12. The downbeat colour follows the beat count alone: after any
    such sequence it is green exactly when [beatCount / 8] is odd, so it
    is blue for beats 0 to 7 of a run, green for beats 8 to 15, and so
    on; a tick switches it exactly when its count is a positive multiple
    of 8. *)
Theorem downbeat_colour_flips_every_8_beats :
  (forall es,
     Forall sliderInRange es ->
     let p := session es initialPanel in
     isGreenDownbeat p
     = Z.odd (Engine.beatCount (metronome (core p)) / 8)) /\
  (forall k p,
     0 <= tickCount k -> tickBeat k = Z.rem (tickCount k) 4 ->
     (isGreenDownbeat (onBeat k p) = negb (isGreenDownbeat p) <->
      0 < tickCount k /\ tickCount k mod 8 = 0) /\
     (isGreenDownbeat (onBeat k p) = isGreenDownbeat p <->
      ~ (0 < tickCount k /\ tickCount k mod 8 = 0))).
Proof.
  split.
  - intros es Hr p.
    destruct (inStep_session es initialPanel Hr inStep_initial)
      as (_ & _ & _ & _ & Hg & _).
    exact Hg.
  - intros k p Hc Hb. unfold onBeat. cbn [isGreenDownbeat].
    rewrite Hb.
    rewrite (Z.rem_mod_nonneg (tickCount k) 4),
      (Z.rem_mod_nonneg (tickCount k) 8) by lia.
    set (switch := andb _ _).
    assert (Hs : switch = true <-> 0 < tickCount k /\ tickCount k mod 8 = 0).
    { subst switch. rewrite !andb_true_iff, !Z.eqb_eq, Z.ltb_lt.
      split; [tauto|]. intros [H1 H2]. repeat split; auto.
      revert H2. Z.div_mod_to_equations. lia. }
    clearbody switch. destruct switch.
    + assert (HP : 0 < tickCount k /\ tickCount k mod 8 = 0)
        by (apply Hs; reflexivity).
      split; split; intros H; try reflexivity; try exact HP;
        try (destruct (isGreenDownbeat p); discriminate);
        try contradiction.
    + assert (HN : ~ (0 < tickCount k /\ tickCount k mod 8 = 0))
        by (intros HP; apply Hs in HP; discriminate).
      split; split; intros H; try reflexivity; try exact HN;
        try (destruct (isGreenDownbeat p); discriminate);
        try contradiction.
Qed.

Lemma downbeat_colour_flips_every_8_beats_witness :
  isGreenDownbeat (session (Toggle :: repeat Deliver 8) initialPanel)
  = Z.odd (Engine.beatCount
             (metronome (core (session (Toggle :: repeat Deliver 8)
                                       initialPanel))) / 8).
Proof.
  destruct downbeat_colour_flips_every_8_beats as (H & _).
  apply (H (Toggle :: repeat Deliver 8)).
  repeat constructor.
Defined.

End PanelMore.
(* ================================================================== *)
(** * More on the tap tempo *)
(* ================================================================== *)

Section TapMore.
Import MetronomeControls.
Local Open Scope Z_scope.

Lemma filter_all (f : Z -> bool) l :
  Forall (fun t => f t = true) l -> filter f l = l.
Proof.
  induction 1 as [|t l Ht _ IH]; [reflexivity|].
  cbn [filter]. rewrite Ht, IH. reflexivity.
Qed.

Lemma filter_none (f : Z -> bool) l :
  Forall (fun t => f t = false) l -> filter f l = [].
Proof.
  induction 1 as [|t l Ht _ IH]; [reflexivity|].
  cbn [filter]. rewrite Ht, IH. reflexivity.
Qed.

Lemma clearOldTaps_young later c :
  Forall (fun t => later - t < 2000) (tapTimes (clearOldTaps later c)).
Proof.
  unfold clearOldTaps. cbn [tapTimes]. apply Forall_forall.
  intros t Ht. apply filter_In in Ht. destruct Ht as [_ Ht].
  apply Z.ltb_lt, Ht.
Qed.

Lemma clearOldTaps_keeps later c :
  Forall (fun t => later - t < 2000) (tapTimes c) ->
  clearOldTaps later c = c.
Proof.
  intros H. destruct c as [b taps w]. unfold clearOldTaps.
  cbn [bpm tapTimes metronome] in *. rewrite filter_all; [reflexivity|].
  eapply Forall_impl; [|exact H]. cbn beta. intros t Ht.
  apply Z.ltb_lt, Ht.
Qed.

Lemma clearOldTaps_stale later lastTap c :
  Forall (fun t => t <= lastTap) (tapTimes c) ->
  lastTap + 2000 <= later ->
  tapTimes (clearOldTaps later c) = [].
Proof.
  intros H Hl. unfold clearOldTaps. cbn [tapTimes].
  apply filter_none. eapply Forall_impl; [|exact H]. cbn beta.
  intros t Ht. apply Z.ltb_ge. lia.
Qed.

Lemma first_tap t c :
  tapTimes c = [] ->
  tapTimes (handleTapTempo t c) = [t] /\
  bpm (handleTapTempo t c) = bpm c /\
  metronome (handleTapTempo t c) = metronome c.
Proof.
  intros H. unfold handleTapTempo. rewrite H. cbn [app].
  rewrite sliceLast_short by (cbn [List.length]; lia).
  change (tapEstimate [t]) with (@None Z).
  cbn [tapTimes bpm metronome]. auto.
Qed.

(** X13. The clean-up that runs 2000 ms after a tap keeps only taps
    younger than 2000 ms at the moment it runs and touches neither the
    tempo nor the engine: a history of young taps is left as it is, and
    once the last tap is 2000 ms old the history is emptied, so that
    the next tap starts a new series (it alone gives no estimate and
    changes no tempo). *)
Theorem stale_taps_cleared_after_2000_ms :
  (forall later c,
     Forall (fun t => later - t < 2000) (tapTimes (clearOldTaps later c)) /\
     bpm (clearOldTaps later c) = bpm c /\
     metronome (clearOldTaps later c) = metronome c) /\
  (forall later c,
     Forall (fun t => later - t < 2000) (tapTimes c) ->
     clearOldTaps later c = c) /\
  (forall later lastTap c,
     Forall (fun t => t <= lastTap) (tapTimes c) ->
     lastTap + 2000 <= later ->
     tapTimes (clearOldTaps later c) = [] /\
     forall t,
       tapTimes (handleTapTempo t (clearOldTaps later c)) = [t] /\
       bpm (handleTapTempo t (clearOldTaps later c)) = bpm c /\
       metronome (handleTapTempo t (clearOldTaps later c)) = metronome c).
Proof.
  split; [|split].
  - intros later c. split; [apply clearOldTaps_young|].
    split; reflexivity.
  - exact clearOldTaps_keeps.
  - intros later lastTap c H Hl.
    pose proof (clearOldTaps_stale later lastTap c H Hl) as He.
    split; [exact He|]. intros t.
    destruct (first_tap t (clearOldTaps later c) He) as (H1 & H2 & H3).
    rewrite H1, H2, H3. split; [reflexivity|]. split; reflexivity.
Qed.

Lemma stale_taps_cleared_after_2000_ms_witness :
  tapTimes (clearOldTaps 3000 (registerTaps [0; 500; 1000] initialControls))
  = [].
Proof.
  destruct stale_taps_cleared_after_2000_ms as (_ & _ & H).
  assert (E : tapTimes (registerTaps [0; 500; 1000] initialControls)
              = [0; 500; 1000]) by (vm_compute; reflexivity).
  assert (Hall : Forall (fun t => t <= 1000)
                   (tapTimes (registerTaps [0; 500; 1000] initialControls)))
    by (rewrite E; repeat constructor; lia).
  assert (Hl : 1000 + 2000 <= 3000) by lia.
  destruct (H 3000 1000 _ Hall Hl) as [H1 _]. exact H1.
Defined.

(** ** First tap, last tap and the number of taps *)

Lemma inject_nonzero d : d <> 0 -> ~ (inject_Z d == 0)%Q.
Proof.
  intros Hd H. apply Hd. change 0%Q with (inject_Z 0) in H.
  apply (proj1 (inject_Z_injective d 0)). exact H.
Qed.

Lemma quotient_zero d m :
  m <> 0 -> ((inject_Z d / inject_Z m == 0)%Q <-> d = 0).
Proof.
  intros Hm. pose proof (inject_nonzero m Hm) as Hq. split.
  - intros H.
    assert (E : (inject_Z d == inject_Z d / inject_Z m * inject_Z m)%Q)
      by (field; exact Hq).
    rewrite H in E. change 0%Q with (inject_Z 0) in E.
    rewrite <- inject_Z_mult in E.
    apply (proj1 (inject_Z_injective _ _)) in E. lia.
  - intros ->. change (inject_Z 0) with 0%Q. field. exact Hq.
Qed.

Lemma tapEstimate_first_last a mid z b :
  tapEstimate (a :: mid ++ [z]) = Some b <->
  z <> a /\
  b = Math_round
        (fl (60000
             / fl (inject_Z (z - a)
                   / inject_Z (Z.of_nat (List.length mid) + 1))))%Q /\
  40 <= b <= 300.
Proof.
  rewrite tapEstimate_spec, average_first_last, fl_zero_iff.
  assert (Hm : Z.of_nat (List.length mid) + 1 <> 0) by lia.
  rewrite (quotient_zero (z - a) _ Hm).
  assert (Hl : (2 <= List.length (a :: mid ++ [z]))%nat)
    by (cbn [List.length]; rewrite length_app; cbn [List.length]; lia).
  split.
  - intros (_ & Hd & Hb & Hr). split; [lia|]. split; assumption.
  - intros (Hza & Hb & Hr).
    split; [exact Hl|]. split; [lia|]. split; assumption.
Qed.

Lemma tapEstimate_middle a mid mid' z :
  List.length mid = List.length mid' ->
  tapEstimate (a :: mid ++ [z]) = tapEstimate (a :: mid' ++ [z]).
Proof.
  intros H. unfold tapEstimate, calculatedBpm.
  rewrite !average_first_last. cbn [List.length].
  rewrite !length_app, H. reflexivity.
Qed.

(** X14. The estimate of a tap series depends on its first tap, its
    last tap and the number of taps only: for [n] taps it is the code's
    [Math.round(60000 / ((last - first) / (n - 1)))], both quotients in
    doubles, whatever the taps in between, and there is none when the
    last tap has the time of the first or when that value is outside 40
    to 300. *)
Theorem tap_estimate_from_first_last_and_count :
  (forall a mid z b,
     tapEstimate (a :: mid ++ [z]) = Some b <->
     z <> a /\
     b = Math_round
           (fl (60000
                / fl (inject_Z (z - a)
                      / inject_Z (Z.of_nat (List.length mid) + 1))))%Q /\
     40 <= b <= 300) /\
  (forall a mid mid' z,
     List.length mid = List.length mid' ->
     tapEstimate (a :: mid ++ [z]) = tapEstimate (a :: mid' ++ [z])).
Proof.
  split; [exact tapEstimate_first_last|exact tapEstimate_middle].
Qed.

Lemma tap_estimate_from_first_last_and_count_witness :
  tapEstimate [0; 100; 1400; 1500] = tapEstimate [0; 500; 1000; 1500].
Proof.
  destruct tap_estimate_from_first_last_and_count as (_ & H).
  apply (H 0 [100; 1400] [500; 1000] 1500). reflexivity.
Defined.

End TapMore.

(* ================================================================== *)
(** * The page's own engine and tap tempo *)
(* ================================================================== *)

Section PageMore.
Import MetronomePage.
Local Open Scope Z_scope.

(** ** The measure *)

(** A call changes the position and the log not at all, or by one
    tick. *)
Lemma legacy_step_beats w a :
  (Legacy.currentBeat (Legacy.step w a) = Legacy.currentBeat w /\
   Legacy.ticks (Legacy.step w a) = Legacy.ticks w) \/
  (exists t n,
     Legacy.currentBeat (Legacy.step w a)
     = Z.rem (Legacy.currentBeat w + 1) 4 /\
     Legacy.ticks (Legacy.step w a)
     = Legacy.ticks w
       ++ [mkTick t n (Z.rem (Legacy.currentBeat w + 1) 4)
                  (Legacy.currentBeat w =? 0)]).
Proof.
  destruct w as [lp li lb lbc lcb ln lx lt lk].
  destruct a as [| |q| |dt]; cbn [Legacy.step].
  - unfold Legacy.start. destruct lp.
    + left. split; reflexivity.
    + right. exists ln, 0. split; reflexivity.
  - left. unfold Legacy.stop. cbn. destruct li as [i|]; [|auto].
    destruct (i =? 0); auto.
  - left. unfold Legacy.setBPM. cbn. destruct li as [i|]; [|auto].
    destruct lp; [|auto]. destruct (i =? 0); auto.
  - unfold Legacy.fire. cbn [Legacy.timers].
    destruct (Legacy.earliest lt) as [t|].
    + right. exists (Legacy.due t), lbc. split; reflexivity.
    + left. split; reflexivity.
  - left. unfold Legacy.wait. cbn. destruct (Qlt_le_dec dt 0); [auto|].
    destruct (Legacy.earliest lt) as [t|]; [|auto].
    destruct (Qlt_le_dec (Legacy.due t) (ln + dt)); auto.
Qed.

Lemma measureKept_fresh : measureKept Legacy.fresh.
Proof. unfold measureKept. cbn. auto. Qed.

Lemma measureKept_step w a : measureKept w -> measureKept (Legacy.step w a).
Proof.
  intros (Hc & Hd & Hb).
  destruct (legacy_step_beats w a) as [[E1 E2]|(t & n & E1 & E2)];
    unfold measureKept; rewrite E1, E2.
  - auto.
  - set (len := List.length (Legacy.ticks w)) in *.
    assert (Hm : 0 <= Z.of_nat len mod 4 < 4)
      by (apply Z.mod_pos_bound; lia).
    rewrite length_app. cbn [List.length]. fold len.
    rewrite Nat.add_1_r, seq_S, !map_app, Hd, Hb. cbn [map Nat.add].
    cbn [tickDownbeat tickBeat]. rewrite Hc.
    rewrite Z.rem_mod_nonneg by lia.
    assert (E : (Z.of_nat len mod 4 + 1) mod 4 = (Z.of_nat len + 1) mod 4).
    { rewrite Zplus_mod_idemp_l. reflexivity. }
    rewrite E.
    split; [f_equal; lia|]. split; reflexivity.
Qed.

Lemma measureKept_run acts : forall w,
  measureKept w -> measureKept (Legacy.run acts w).
Proof.
  induction acts as [|a acts IH]; intros w H; [exact H|].
  apply (IH (Legacy.step w a)), measureKept_step, H.
Qed.

(** X15. The page's engine counts its measure across stops and
    starts: whatever calls and timer deliveries there were since the
    engine was made, its position is the number of clicks so far
    modulo 4, the click of index [i] (from 0) is accented exactly when
    [i] is a multiple of 4 and the beat shown with it is
    [(i + 1) mod 4]; [start] does not begin a new measure. *)
Theorem legacy_measure_runs_across_restarts (acts : list action) :
  measureKept (Legacy.run acts Legacy.fresh).
Proof. apply measureKept_run, measureKept_fresh. Qed.

(** ** The page's tap tempo *)










(** ** The page and its engine *)

Lemma legacy_start_fields w :
  Legacy.isPlaying (Legacy.start w) = true /\
  (Legacy.isPlaying w = false -> Legacy.bpm (Legacy.start w) = Legacy.bpm w).
Proof.
  destruct w as [lp li lb lbc lcb ln lx lt lk]. unfold Legacy.start.
  cbn [Legacy.isPlaying]. destruct lp; split; intros; reflexivity.
Qed.

Lemma legacy_stop_idle w : Legacy.isPlaying (Legacy.stop w) = false.
Proof.
  destruct w as [lp li lb lbc lcb ln lx lt lk]. unfold Legacy.stop. cbn.
  destruct li as [i|]; [|reflexivity]. destruct (i =? 0); reflexivity.
Qed.

Lemma legacy_setBPM_playing q w :
  Legacy.isPlaying (Legacy.setBPM q w) = Legacy.isPlaying w.
Proof.
  destruct w as [lp li lb lbc lcb ln lx lt lk]. unfold Legacy.setBPM. cbn.
  destruct li as [i|]; [|reflexivity].
  destruct lp; [|reflexivity]. destruct (i =? 0); reflexivity.
Qed.

Lemma legacy_fire_fields w :
  Legacy.isPlaying (Legacy.fire w) = Legacy.isPlaying w /\
  Legacy.bpm (Legacy.fire w) = Legacy.bpm w.
Proof.
  destruct w as [lp li lb lbc lcb ln lx lt lk]. unfold Legacy.fire.
  cbn [Legacy.timers]. destruct (Legacy.earliest lt); split; reflexivity.
Qed.

Lemma legacy_wait_fields dt w :
  Legacy.isPlaying (Legacy.wait dt w) = Legacy.isPlaying w /\
  Legacy.bpm (Legacy.wait dt w) = Legacy.bpm w.
Proof.
  destruct w as [lp li lb lbc lcb ln lx lt lk]. unfold Legacy.wait. cbn.
  destruct (Qlt_le_dec dt 0); [auto|].
  destruct (Legacy.earliest lt) as [t|]; [|auto].
  destruct (Qlt_le_dec (Legacy.due t) (ln + dt)); auto.
Qed.

Lemma inStep_applyBpm_page n p : inStep p -> inStep (applyBpm n p).
Proof.
  intros [Hp Hb]. unfold inStep, applyBpm. cbn [isPlaying metronome bpm].
  destruct (isPlaying p) eqn:E.
  - rewrite legacy_setBPM_playing, legacy_setBPM_unclamped. auto.
  - split; [exact Hp|discriminate].
Qed.

Lemma inStep_react_page p e : inStep p -> inStep (react p e).
Proof.
  intros H. destruct e; cbn [react].
  - destruct H as [Hp Hb]. unfold inStep, togglePlay.
    destruct (isPlaying p) eqn:E; cbn [isPlaying metronome bpm].
    + rewrite legacy_stop_idle. split; [reflexivity|discriminate].
    + destruct (legacy_start_fields
                  (Legacy.setBPM (inject_Z (bpm p)) (metronome p)))
        as [Hs Hk].
      rewrite Hs. split; [reflexivity|]. intros _.
      rewrite Hk, legacy_setBPM_unclamped; [reflexivity|].
      rewrite legacy_setBPM_playing, <- Hp. reflexivity.
  - apply inStep_applyBpm_page, H.
  - apply inStep_applyBpm_page, H.
  - unfold handleTapTempo.
    destruct (tapEstimate (newTapTimes (tapTimes p) now)) as [b|].
    + exact (inStep_applyBpm_page b p H).
    + exact H.
  - exact H.
  - destruct H as [Hp Hb]. unfold inStep, setEngine.
    cbn [isPlaying metronome bpm].
    destruct (legacy_fire_fields (metronome p)) as [-> ->]. auto.
  - destruct H as [Hp Hb]. unfold inStep, setEngine.
    cbn [isPlaying metronome bpm].
    destruct (legacy_wait_fields dt (metronome p)) as [-> ->]. auto.
Qed.

Lemma inStep_session_page es : forall p,
  inStep p -> inStep (session es p).
Proof.
  induction es as [|e es IH]; intros p H; [exact H|].
  apply (IH (react p e)), inStep_react_page, H.
Qed.

Lemma presses_bpm increment n : forall p,
  bpm (session (repeat (BpmChange increment) n) p)
  = if increment then bpm p + Z.of_nat n else bpm p - Z.of_nat n.
Proof.
  induction n as [|n IH]; intros p.
  - cbn [repeat session fold_left]. destruct increment; lia.
  - cbn [repeat]. unfold session in *. cbn [fold_left]. rewrite IH.
    cbn [react]. unfold handleBpmChange, applyBpm. cbn [bpm].
    destruct increment; lia.
Qed.

(** X17. Through any sequence of toggles, tempo buttons, slider
    changes, taps, clean-ups, timer deliveries and waits the page is
    playing exactly when its engine is, and while it plays the engine
    holds the tempo on display.  The tempo buttons put no bounds on the
    tempo: [n] presses of minus (plus) lower (raise) it by [n], below 40
    as well as above 300. *)
Theorem page_mirrors_engine_without_bounds :
  (forall es,
     let p := session es initialPage in
     isPlaying p = Legacy.isPlaying (metronome p) /\
     (isPlaying p = true -> Legacy.bpm (metronome p) = inject_Z (bpm p))) /\
  (forall increment n p,
     bpm (session (repeat (BpmChange increment) n) p)
     = if increment then bpm p + Z.of_nat n else bpm p - Z.of_nat n).
Proof.
  split.
  - intros es p. apply inStep_session_page.
    unfold inStep, initialPage. cbn. split; [reflexivity|discriminate].
  - exact presses_bpm.
Qed.

Lemma page_mirrors_engine_without_bounds_witness :
  Legacy.bpm (metronome (session [Toggle; BpmChange false] initialPage))
  = inject_Z (bpm (session [Toggle; BpmChange false] initialPage)).
Proof.
  destruct page_mirrors_engine_without_bounds as (H & _).
  destruct (H [Toggle; BpmChange false]) as (_ & Hb).
  apply Hb. reflexivity.
Defined.

End PageMore.

(* ================================================================== *)
(** * The two engines run side by side *)
(* ================================================================== *)

Section EnginesCompared.
Local Open Scope Q_scope.



(** ** Time *)




(** ** The measure *)










(** ** Runs with at most one start *)






(** Where the two engines part: the stored tempo out of range, the
    interval armed from it, the counters, and the downbeats after a
    restart. *)
Lemma engines_differences :
  (Legacy.bpm (Legacy.run [SetBPM 500] Legacy.fresh) = 500 /\
   Engine.bpm (Engine.run [SetBPM 500] Engine.fresh) = 300) /\
  (map (fun d => Qred d) (oPending (observeLegacy
       (Legacy.run [SetBPM 500; Start] Legacy.fresh))) = [120] /\
   map (fun d => Qred d) (oPending (observeEngine
       (Engine.run [SetBPM 500; Start] Engine.fresh))) = [200]) /\
  (map tickCount (Legacy.ticks (Legacy.run [Start; Fire; Fire] Legacy.fresh))
     = [0; 0; 0]%Z /\
   map tickCount (Engine.ticks (Engine.run [Start; Fire; Fire] Engine.fresh))
     = [0; 1; 2]%Z) /\
  (map tickBeat (Legacy.ticks (Legacy.run [Start; Fire; Fire] Legacy.fresh))
     = [1; 2; 3]%Z /\
   map tickBeat (Engine.ticks (Engine.run [Start; Fire; Fire] Engine.fresh))
     = [0; 1; 2]%Z) /\
  (map tickDownbeat
       (Legacy.ticks (Legacy.run [Start; Fire; Stop; Start] Legacy.fresh))
     = [true; false; false] /\
   map tickDownbeat
       (Engine.ticks (Engine.run [Start; Fire; Stop; Start] Engine.fresh))
     = [true; false; true]).
Proof. vm_compute. repeat split; reflexivity. Qed.

End EnginesCompared.
